(** * Celeste DATA <-> PNG converter: the codec and the batch pipeline

    A shallow embedding of [pkg/converter/graphics_converter.go] (the
    run-length codec) and of the worker pool of the files converter, with
    the properties of the specification stated and proved over it; then of
    the rest of the files converter (the directory scan, the tasks and
    their file names, the number of workers) and of the command line of
    [cmd/celeste-converter/main.go], with further properties of the code.

    Conventions.
    - A byte ([uint8]) is a [Byte.byte]; Go's [int] and [int32] are [Z], the
      32-bit wrap-around of the decoder's [width*height] and of the
      encoder's [int32(width)] being written out ([int32]). A 64-bit [int]
      holds every other value that arises (the sides of a decoded PNG are
      below 2^31). Go's [/] and [%] truncate towards zero: [Z.quot] and
      [Z.rem].
    - An [io.Reader] is the list of bytes not read yet (the behaviour of
      [bytes.Reader] and of a regular file): a read of a non-empty buffer
      yields at least one byte, or [io.EOF] when nothing is left. A reader
      that fails in another way, or that returns no byte and no error, is
      not modelled.
    - The PNG codec ([png.Decode], [png.Encode]) is an external
      collaborator: the decoder's result is the canvas handed to
      [png.Encode], the encoder's input is the image [png.Decode] returned.
      Their errors are not modelled: [DataToPng] returns the error of
      [png.Encode] as it is (line 153), [PngToData] that of [png.Decode]
      (lines 159-162), which refuses among others a file with a side of 0.
      Writes to the output never fail (an in-memory writer).
    - Loops that Go writes with [for] carry a fuel argument; running out of
      fuel is the result [None], and the file proves it never happens. *)

From Stdlib Require Import ZArith List Bool Lia Permutation.
From Stdlib.Strings Require Import Byte.
From Stdlib.Strings Require String.
Import ListNotations.
Open Scope Z_scope.

(* ------------------------------------------------------------------ *)
(** ** Bytes and fixed-width integers *)

(** The conversion [int(b)] of a byte. *)
Definition byte_to_Z (b : byte) : Z := Z.of_N (Byte.to_N b).

(** The conversion [uint8(z)]: the low eight bits. *)
Definition uint8 (z : Z) : byte :=
  match Byte.of_N (Z.to_N (z mod 256)) with
  | Some b => b
  | None => x00
  end.

(** The conversion [int32(z)]: two's complement wrap-around. *)
Definition int32 (z : Z) : Z := (z + 2^31) mod 2^32 - 2^31.

(** Little-endian value of a four byte buffer. *)
Definition le_uint32 (bs : list byte) : Z :=
  match bs with
  | [b0; b1; b2; b3] =>
      Z.lor (byte_to_Z b0)
        (Z.lor (Z.shiftl (byte_to_Z b1) 8)
           (Z.lor (Z.shiftl (byte_to_Z b2) 16) (Z.shiftl (byte_to_Z b3) 24)))
  | _ => 0
  end.

(** [binary.Write(output, binary.LittleEndian, v)] for an [int32]. *)
Definition put_int32 (v : Z) : list byte :=
  [uint8 v; uint8 (Z.shiftr v 8); uint8 (Z.shiftr v 16); uint8 (Z.shiftr v 24)].

(* ------------------------------------------------------------------ *)
(** ** Errors and readers *)

Inductive error : Type :=
| EOF                    (* io.EOF *)
| ErrUnexpectedEOF       (* io.ErrUnexpectedEOF *)
| ErrInvalidDimensions   (* "invalid image dimensions" *)
| ErrCountByte           (* "failed to read count byte" *)
| ErrAlphaByte           (* "failed to read alpha byte" *)
| ErrRGBBytes.           (* "failed to read RGB bytes" *)

Definition error_eqb (a b : error) : bool :=
  match a, b with
  | EOF, EOF | ErrUnexpectedEOF, ErrUnexpectedEOF
  | ErrInvalidDimensions, ErrInvalidDimensions
  | ErrCountByte, ErrCountByte | ErrAlphaByte, ErrAlphaByte
  | ErrRGBBytes, ErrRGBBytes => true
  | _, _ => false
  end.

Definition Reader : Type := list byte.

(** What a read hands back: the bytes placed in the buffer, their number
    [n], the error, and the reader after the call. *)
Record read_result : Type := mkRead {
  rd_buf : list byte;
  rd_n : Z;
  rd_err : option error;
  rd_rest : Reader
}.

(** [input.Read(buf[:])] with a buffer of [len] bytes. *)
Definition Read (len : nat) (input : Reader) : read_result :=
  match input, len with
  | [], S _ => mkRead [] 0 (Some EOF) []
  | _, _ =>
      let got := firstn len input in
      mkRead got (Z.of_nat (length got)) None (skipn len input)
  end.

(** [io.ReadFull(input, buf[:])] with a buffer of [len] bytes: the error is
    [io.EOF] only when no byte was read, and [io.ErrUnexpectedEOF] when the
    stream ends after some but not all of them. *)
Definition ReadFull (len : nat) (input : Reader) : read_result :=
  let got := firstn len input in
  let n := length got in
  if Nat.eqb n len then mkRead got (Z.of_nat n) None (skipn len input)
  else if Nat.eqb n 0 then mkRead got 0 (Some EOF) (skipn len input)
  else mkRead got (Z.of_nat n) (Some ErrUnexpectedEOF) (skipn len input).

(** [binary.Read(input, binary.LittleEndian, &v)] for an [int32] [v]. *)
Definition binary_Read_int32 (input : Reader) : (error + Z) * Reader :=
  let rd := ReadFull 4 input in
  match rd_err rd with
  | Some e => (inl e, rd_rest rd)
  | None => (inr (int32 (le_uint32 (rd_buf rd))), rd_rest rd)
  end.

(* ------------------------------------------------------------------ *)
(** ** Colours and the RGBA canvas *)

Record RGBA : Type := mkRGBA { cR : byte; cG : byte; cB : byte; cA : byte }.

Definition RGBA_eqb (p q : RGBA) : bool :=
  Byte.eqb (cR p) (cR q) && Byte.eqb (cG p) (cG q)
  && Byte.eqb (cB p) (cB q) && Byte.eqb (cA p) (cA q).

(** [image.RGBA] over the rectangle [(0,0)-(Rect_Dx,Rect_Dy)]. *)
Record RGBAImage : Type := mkImage {
  Rect_Dx : Z;
  Rect_Dy : Z;
  Pix : Z -> Z -> RGBA
}.

(** [image.Point{x, y}.In(img.Rect)] *)
Definition in_rect (img : RGBAImage) (x y : Z) : bool :=
  (0 <=? x) && (x <? Rect_Dx img) && (0 <=? y) && (y <? Rect_Dy img).

(** [image.NewRGBA(image.Rect(0, 0, w, h))]: every pixel zero. *)
Definition NewRGBA (w h : Z) : RGBAImage :=
  mkImage w h (fun _ _ => mkRGBA x00 x00 x00 x00).

(** [img.SetRGBA(x, y, c)]: a point outside the rectangle is ignored. *)
Definition SetRGBA (img : RGBAImage) (x y : Z) (c : RGBA) : RGBAImage :=
  if in_rect img x y then
    mkImage (Rect_Dx img) (Rect_Dy img)
      (fun x' y' => if (x' =? x) && (y' =? y) then c else Pix img x' y')
  else img.

(** [img.RGBAAt(x, y)]: the zero colour outside the rectangle. *)
Definition RGBAAt (img : RGBAImage) (x y : Z) : RGBA :=
  if in_rect img x y then Pix img x y else mkRGBA x00 x00 x00 x00.

(** [for j := lo; j < lo + n; j++ { s = body j s }] *)
Fixpoint for_loop {S : Type} (n : nat) (lo : Z) (body : Z -> S -> S) (s : S) : S :=
  match n with
  | O => s
  | Datatypes.S n' => for_loop n' (lo + 1) body (body lo s)
  end.

(** [for j := lo; j < hi; j++ { s = body j s }] *)
Definition for_range {S : Type} (lo hi : Z) (body : Z -> S -> S) (s : S) : S :=
  for_loop (Z.to_nat (hi - lo)) lo body s.

(* ------------------------------------------------------------------ *)
(** ** Decoding: [DataToPng] *)

(** The mode-dependent colour every pixel of the canvas starts with. *)
Definition default_pixel (hasAlpha : bool) : RGBA :=
  if hasAlpha then mkRGBA x00 x00 x00 x00 else mkRGBA x00 x00 x00 xff.

(** Lines 53-61: the canvas is filled with the default colour. *)
Definition init_canvas (width height : Z) (hasAlpha : bool) (img : RGBAImage) : RGBAImage :=
  for_range 0 height
    (fun y img => for_range 0 width
       (fun x img => SetRGBA img x y (default_pixel hasAlpha)) img)
    img.

(** What reading one run off the stream comes to. *)
Inductive run_read : Type :=
| RunBreak (input : Reader)                       (* break: end of stream *)
| RunError (e : error) (input : Reader)           (* return err *)
| RunOk (count : Z) (c : RGBA) (input : Reader).  (* a run was read *)

(** Lines 65-133: the count byte, then the colour of the run. *)
Definition read_run (hasAlpha : bool) (input : Reader) : run_read :=
  let rd := Read 1 input in
  let input := rd_rest rd in
  match rd_err rd with
  | Some e => if error_eqb e EOF then RunBreak input else RunError e input
  | None =>
    if negb (rd_n rd =? 1) then RunError ErrCountByte input else
    let count := byte_to_Z (nth 0 (rd_buf rd) x00) in
    let count := if count =? 0 then 256 else count in
    if hasAlpha then
      let rd := Read 1 input in
      let input := rd_rest rd in
      match rd_err rd with
      | Some e => if error_eqb e EOF then RunBreak input else RunError e input
      | None =>
        if negb (rd_n rd =? 1) then RunError ErrAlphaByte input else
        let a := nth 0 (rd_buf rd) x00 in
        if negb (Byte.eqb a x00) then
          let rd := ReadFull 3 input in
          let input := rd_rest rd in
          match rd_err rd with
          | Some e => if error_eqb e EOF then RunBreak input else RunError e input
          | None =>
            if negb (rd_n rd =? 3) then RunError ErrRGBBytes input else
            let rgbBuf := rd_buf rd in
            RunOk count
              (mkRGBA (nth 2 rgbBuf x00) (nth 1 rgbBuf x00) (nth 0 rgbBuf x00) a)
              input
          end
        else RunOk count (mkRGBA x00 x00 x00 a) input
      end
    else
      let rd := ReadFull 3 input in
      let input := rd_rest rd in
      match rd_err rd with
      | Some e => if error_eqb e EOF then RunBreak input else RunError e input
      | None =>
        if negb (rd_n rd =? 3) then RunError ErrRGBBytes input else
        let rgbBuf := rd_buf rd in
        RunOk count
          (mkRGBA (nth 2 rgbBuf x00) (nth 1 rgbBuf x00) (nth 0 rgbBuf x00) xff)
          input
      end
  end.

(** Lines 136-139: the run is cut to the pixels left on the canvas. *)
Definition clamp_count (width height i count : Z) : Z :=
  let pixelsLeft := int32 (width * height) - i in
  if count >? pixelsLeft then pixelsLeft else count.

(** Lines 143-147: the pixels [i, i+count) get the colour [c]. *)
Definition paint_run (width i count : Z) (c : RGBA) (img : RGBAImage) : RGBAImage :=
  for_range 0 count
    (fun j img => SetRGBA img (Z.rem (i + j) width) (Z.quot (i + j) width) c)
    img.

(** How the loop is left: by [return err], or by falling out of it (the
    guard fails, or a [break]) with the cursor [i] and the canvas. *)
Inductive loop_exit : Type :=
| LoopReturn (e : error) (input : Reader)
| LoopDone (i : Z) (img : RGBAImage) (input : Reader).

(** Lines 63-150, the loop [for i < int(width*height)]. *)
Fixpoint DataToPng_loop (fuel : nat) (width height : Z) (hasAlpha : bool)
    (i : Z) (img : RGBAImage) (input : Reader) : option loop_exit :=
  if i <? int32 (width * height) then
    match fuel with
    | O => None
    | S fuel' =>
      match read_run hasAlpha input with
      | RunBreak input => Some (LoopDone i img input)
      | RunError e input => Some (LoopReturn e input)
      | RunOk count c input =>
        let count := clamp_count width height i count in
        let img := paint_run width i count c img in
        DataToPng_loop fuel' width height hasAlpha (i + count) img input
      end
    end
  else Some (LoopDone i img input).

(** The result of the whole function: [return err], or the canvas that
    reaches [return png.Encode(output, img)]. *)
Inductive outcome : Type :=
| Failed (e : error)
| Encoded (img : RGBAImage).

(** The result comes with the reader as the call leaves it. *)
Definition DataToPng (input : Reader) : option (outcome * Reader) :=
  match binary_Read_int32 input with
  | (inl e, input) => Some (Failed e, input)
  | (inr width, input) =>
  match binary_Read_int32 input with
  | (inl e, input) => Some (Failed e, input)
  | (inr height, input) =>
  match binary_Read_int32 input with
  | (inl e, input) => Some (Failed e, input)
  | (inr alphaFlag, input) =>
    let hasAlpha := negb (alphaFlag =? 0) in
    if (width <=? 0) || (height <=? 0) || (width >? 8192) || (height >? 8192)
    then Some (Failed ErrInvalidDimensions, input)
    else
      let img := NewRGBA width height in
      let img := init_canvas width height hasAlpha img in
      match DataToPng_loop (Z.to_nat (int32 (width * height)))
              width height hasAlpha 0 img input with
      | None => None
      | Some (LoopReturn e input) => Some (Failed e, input)
      | Some (LoopDone _ img input) => Some (Encoded img, input)
      end
  end end end.

(* ------------------------------------------------------------------ *)
(** ** Encoding: [PngToData] *)

(** The dynamic type of the [image.Image]: the types [png.Decode] returns. *)
Inductive image_type : Type :=
| TypeGray       (* *image.Gray *)
| TypeGray16     (* *image.Gray16 *)
| TypeRGBA       (* *image.RGBA *)
| TypeRGBA64     (* *image.RGBA64 *)
| TypeNRGBA      (* *image.NRGBA *)
| TypeNRGBA64    (* *image.NRGBA64 *)
| TypePaletted.  (* *image.Paletted *)

(** The four [uint32] results of [color.Color.RGBA()]. *)
Record Color16 : Type := mkColor16 { r16 : Z; g16 : Z; b16 : Z; a16 : Z }.

Record Rectangle : Type := mkRect { MinX : Z; MinY : Z; MaxX : Z; MaxY : Z }.

(** An [image.Image]: its dynamic type, [Bounds()], and [At(x, y).RGBA()]. *)
Record Image : Type := mkSource {
  img_type : image_type;
  Bounds : Rectangle;
  At : Z -> Z -> Color16
}.

(** Lines 272-276: the high byte of each 16-bit channel. *)
Definition getRGBA (img : Image) (x y : Z) : RGBA :=
  let c := At img x y in
  mkRGBA (uint8 (Z.shiftr (r16 c) 8)) (uint8 (Z.shiftr (g16 c) 8))
         (uint8 (Z.shiftr (b16 c) 8)) (uint8 (Z.shiftr (a16 c) 8)).

(** [for j := lo; j < lo + n; j++ { if p j { return true } }; false] *)
Fixpoint any_loop (n : nat) (lo : Z) (p : Z -> bool) : bool :=
  match n with
  | O => false
  | S n' => if p lo then true else any_loop n' (lo + 1) p
  end.

(** [for j := lo; j < hi; j++ { if p j { return true } }; false] *)
Definition any_range (lo hi : Z) (p : Z -> bool) : bool :=
  any_loop (Z.to_nat (hi - lo)) lo p.

(** Lines 287-302: the type switch, then the search for a pixel that is not
    fully opaque. *)
Definition hasAlphaChannel (img : Image) : bool :=
  match img_type img with
  | TypeRGBA | TypeNRGBA =>
      let bounds := Bounds img in
      any_range (MinY bounds) (MaxY bounds) (fun y =>
        any_range (MinX bounds) (MaxX bounds) (fun x =>
          a16 (At img x y) <? 65535))
  | _ => false
  end.

(** Lines 200-222: the look-ahead that measures the run starting at [i]. *)
Fixpoint run_length (fuel : nat) (img : Image) (width height i : Z)
    (px : RGBA) (count : Z) : option Z :=
  match fuel with
  | O => None
  | S fuel' =>
    if i + count >=? width * height then Some count else
    let px2 := getRGBA img (Z.rem (i + count) width) (Z.quot (i + count) width) in
    if negb (RGBA_eqb px px2) then Some count else
    let count := count + 1 in
    if count >=? 256 then Some 256 else
    run_length fuel' img width height i px count
  end.

(** Lines 225-228: [uint8(count)], with 256 written as 0. *)
Definition count_byte (count : Z) : byte :=
  if count =? 256 then x00 else uint8 count.

(** Lines 234-263: the bytes of one run after its count byte. *)
Definition pixel_bytes (hasAlpha : bool) (px : RGBA) : list byte :=
  if hasAlpha then
    cA px :: (if negb (Byte.eqb (cA px) x00) then [cB px; cG px; cR px] else [])
  else [cB px; cG px; cR px].

(** One run as the encoder emits it: where it starts, its length, its colour. *)
Record Run : Type := mkRun { run_start : Z; run_count : Z; run_px : RGBA }.

Definition run_bytes (hasAlpha : bool) (r : Run) : list byte :=
  count_byte (run_count r) :: pixel_bytes hasAlpha (run_px r).

(** Lines 192-266, the loop [for i < width*height]: the runs in the order
    they are written. *)
Fixpoint PngToData_runs (fuel : nat) (img : Image) (width height i : Z)
    : option (list Run) :=
  if i <? width * height then
    match fuel with
    | O => None
    | S fuel' =>
      let x := Z.rem i width in
      let y := Z.quot i width in
      let px := getRGBA img x y in
      match run_length 256 img width height i px 1 with
      | None => None
      | Some count =>
        match PngToData_runs fuel' img width height (i + count) with
        | None => None
        | Some rest => Some (mkRun i count px :: rest)
        end
      end
    end
  else Some [].

(** Lines 175-189: width, height and alpha flag, each an [int32]. *)
Definition header_bytes (width height : Z) (hasAlpha : bool) : list byte :=
  put_int32 (int32 width) ++ put_int32 (int32 height)
  ++ put_int32 (if hasAlpha then 1 else 0).

(** The bytes written to [output] (which accepts every write). *)
Definition PngToData (img : Image) : option (list byte) :=
  let bounds := Bounds img in
  let width := MaxX bounds - MinX bounds in
  let height := MaxY bounds - MinY bounds in
  let hasAlpha := hasAlphaChannel img in
  match PngToData_runs (Z.to_nat (width * height)) img width height 0 with
  | None => None
  | Some runs =>
      Some (header_bytes width height hasAlpha
            ++ flat_map (run_bytes hasAlpha) runs)
  end.

(* ------------------------------------------------------------------ *)
(** ** The notions the properties are stated with *)

(** Row-major position of the pixel [(x, y)]. *)
Definition pixel_index (width x y : Z) : Z := y * width + x.

(** The count a count byte stands for. *)
Definition run_count_of (b : byte) : Z :=
  if byte_to_Z b =? 0 then 256 else byte_to_Z b.

(** The dimensions the decoder accepts. *)
Definition valid_dims (width height : Z) : Prop :=
  1 <= width <= 8192 /\ 1 <= height <= 8192.

(** The value of four header bytes. *)
Definition header_int (b0 b1 b2 b3 : byte) : Z := int32 (le_uint32 [b0; b1; b2; b3]).

(** The states the loop of [DataToPng] goes through for a header
    [(width, height, hasAlpha)] and a body [body]: the cursor, the canvas
    and the reader at the head of an iteration. *)
Inductive loop_state (width height : Z) (hasAlpha : bool) (body : Reader)
  : Z -> RGBAImage -> Reader -> Prop :=
| loop_start :
    loop_state width height hasAlpha body 0
      (init_canvas width height hasAlpha (NewRGBA width height)) body
| loop_next i img input count c input' :
    loop_state width height hasAlpha body i img input ->
    i < int32 (width * height) ->
    read_run hasAlpha input = RunOk count c input' ->
    loop_state width height hasAlpha body
      (i + clamp_count width height i count)
      (paint_run width i (clamp_count width height i count) c img)
      input'.

(** The coordinates the painting loop of one iteration passes to
    [SetRGBA], in order. *)
Definition run_coords (width i count : Z) : list (Z * Z) :=
  map (fun j => (Z.rem (i + Z.of_nat j) width, Z.quot (i + Z.of_nat j) width))
      (seq 0 (Z.to_nat count)).

(** The 8-bit colour the encoder sees at row-major position [k]. *)
Definition pixel_at (img : Image) (width k : Z) : RGBA :=
  getRGBA img (Z.rem k width) (Z.quot k width).

(** The case [*image.RGBA, *image.NRGBA] of the type switch: the pixel
    representations the encoder takes to carry an alpha channel. *)
Definition exposes_alpha (img : Image) : Prop :=
  img_type img = TypeRGBA \/ img_type img = TypeNRGBA.

(** The pixel types that store an alpha value for each pixel, 8 or 16 bits
    wide: a representation with an alpha channel in the words of the
    specification. *)
Definition stores_alpha (t : image_type) : bool :=
  match t with
  | TypeRGBA | TypeRGBA64 | TypeNRGBA | TypeNRGBA64 => true
  | TypeGray | TypeGray16 | TypePaletted => false
  end.

(** Some pixel within the bounds is less than fully opaque. *)
Definition some_pixel_not_opaque (img : Image) : Prop :=
  exists x y,
    MinX (Bounds img) <= x < MaxX (Bounds img) /\
    MinY (Bounds img) <= y < MaxY (Bounds img) /\
    a16 (At img x y) < 65535.

(** The alpha flag of a DATA stream: the third integer of its header. *)
Definition alpha_flag_of (data : list byte) : Z :=
  header_int (nth 8 data x00) (nth 9 data x00) (nth 10 data x00) (nth 11 data x00).



(** The colour a pixel has after going over the wire: alpha mode drops the
    colour of a pixel whose alpha is 0, the other mode drops the alpha. *)
Definition wire_pixel (hasAlpha : bool) (px : RGBA) : RGBA :=
  if hasAlpha then
    if Byte.eqb (cA px) x00 then mkRGBA x00 x00 x00 x00 else px
  else mkRGBA (cR px) (cG px) (cB px) xff.

(** The source images the round trip is about: what [png.Decode] returns
    has its origin at (0,0); the dimensions are those the decoder accepts. *)
Definition bitmap (img : Image) : Prop :=
  MinX (Bounds img) = 0 /\ MinY (Bounds img) = 0
  /\ valid_dims (MaxX (Bounds img)) (MaxY (Bounds img)).

(** The contract of [color.Color.RGBA]: 16-bit channels, the colour
    channels scaled by the alpha. *)
Definition premultiplied (c : Color16) : Prop :=
  0 <= r16 c <= a16 c /\ 0 <= g16 c <= a16 c /\ 0 <= b16 c <= a16 c
  /\ a16 c <= 65535.

(** A Bitmap of the encoder: an image as [png.Decode] returns it, with its
    origin at (0,0), of dimensions the decoder accepts, every colour as
    [color.Color.RGBA] gives it. *)
Definition decoded_bitmap (img : Image) : Prop :=
  bitmap img
  /\ forall x y, 0 <= x < MaxX (Bounds img) -> 0 <= y < MaxY (Bounds img) ->
       premultiplied (At img x y).

(** Two values of a channel are at most [tolerance] apart. *)
Definition channel_within (tolerance : Z) (a b : byte) : Prop :=
  Z.abs (byte_to_Z a - byte_to_Z b) <= tolerance.

(** The colour channels of two pixels are within [tolerance] of each
    other; so are all four channels. *)
Definition colour_within (tolerance : Z) (c d : RGBA) : Prop :=
  channel_within tolerance (cR c) (cR d)
  /\ channel_within tolerance (cG c) (cG d)
  /\ channel_within tolerance (cB c) (cB d).

Definition within_tolerance (tolerance : Z) (c d : RGBA) : Prop :=
  colour_within tolerance c d /\ channel_within tolerance (cA c) (cA d).

(** A 2x1 bitmap of type [*image.NRGBA]: a half-transparent red pixel and a
    fully transparent one. *)
Definition sample_nrgba : Image :=
  mkSource TypeNRGBA (mkRect 0 0 2 1)
    (fun x _ => if x =? 0 then mkColor16 32896 0 0 32896 else mkColor16 0 0 0 0).

(** A 1x1 bitmap of type [*image.NRGBA64], what [png.Decode] returns for a
    16-bit RGBA file: its one pixel is fully transparent, (0,0,0,0). *)
Definition sample_nrgba64 : Image :=
  mkSource TypeNRGBA64 (mkRect 0 0 1 1) (fun _ _ => mkColor16 0 0 0 0).

(** A 1x1 bitmap of type [*image.Paletted], what [png.Decode] returns for an
    8-bit paletted file: its one pixel has a palette entry that the file
    declares transparent, so that [At(0, 0).RGBA()] is (0,0,0,0). *)
Definition sample_paletted : Image :=
  mkSource TypePaletted (mkRect 0 0 1 1) (fun _ _ => mkColor16 0 0 0 0).

(* ------------------------------------------------------------------ *)
(** ** Further notions: runs on the wire, colours of a mode *)

(** The colour of the run that covers position [k] when the runs [rs] are
    laid one after the other from position [i] on. *)
Fixpoint run_covering (rs : list Run) (i k : Z) : option RGBA :=
  match rs with
  | [] => None
  | r :: rs' =>
      if k <? i + run_count r then Some (run_px r)
      else run_covering rs' (i + run_count r) k
  end.

(** The colour the runs [rs] of a body give the pixel at position [k]: that
    of the run covering it as it goes over the wire, and the default colour
    where the runs do not reach. *)
Definition decoded_pixel (hasAlpha : bool) (rs : list Run) (k : Z) : RGBA :=
  match run_covering rs 0 k with
  | Some px => wire_pixel hasAlpha px
  | None => default_pixel hasAlpha
  end.

(** The colours a canvas of either mode holds: without alpha every pixel is
    opaque, with alpha a pixel of alpha 0 has no colour. *)
Definition pixel_in_mode (hasAlpha : bool) (c : RGBA) : Prop :=
  if hasAlpha then cA c = x00 -> c = mkRGBA x00 x00 x00 x00
  else cA c = xff.

(** The runs [rs] lie end to end from position [i] to position [stop],
    each 1 to 256 pixels long. *)
Fixpoint runs_tile (rs : list Run) (i stop : Z) : Prop :=
  match rs with
  | [] => i = stop
  | r :: rs' =>
      run_start r = i /\ 1 <= run_count r <= 256
      /\ runs_tile rs' (i + run_count r) stop
  end.

(** The [color.Color.RGBA()] of an 8-bit [color.RGBA]: each channel [v]
    becomes [v | v << 8]. *)
Definition Color16_of_RGBA (c : RGBA) : Color16 :=
  let wide := fun v : byte => Z.lor (byte_to_Z v) (Z.shiftl (byte_to_Z v) 8) in
  mkColor16 (wide (cR c)) (wide (cG c)) (wide (cB c)) (wide (cA c)).

(** The runs the encoder writes in two bytes when the stream carries
    alpha: those of alpha 0 (lines 231-244). *)
Definition transparent_run (r : Run) : bool := Byte.eqb (cA (run_px r)) x00.

(** The number of bytes the encoder writes for a run: the count byte, then
    the colour (no alpha), or the alpha byte and, unless it is 0, the
    colour. *)
Definition run_size (hasAlpha : bool) (r : Run) : nat :=
  if hasAlpha then (if transparent_run r then 2 else 5)%nat else 4%nat.

(** A black image one pixel wider than the decoder accepts, 8193x1, as
    [png.Decode] returns it for a greyscale file. *)
Definition sample_wide : Image :=
  mkSource TypeGray (mkRect 0 0 8193 1) (fun _ _ => mkColor16 0 0 0 65535).

(** A 2x1 bitmap of type [*image.RGBA] with the pixels of [sample_nrgba],
    but for the red channel of 1 left in its transparent pixel. *)
Definition sample_nrgba_tinted : Image :=
  mkSource TypeRGBA (mkRect 0 0 2 1)
    (fun x _ => if x =? 0 then mkColor16 32896 0 0 32896 else mkColor16 257 0 0 0).

(* ================================================================== *)
(** * The batch pipeline: [FilesConverter.convert]

    The worker pool is a transition system. Its state holds the task queue
    (a closed channel, read in order), the buffered error channel (as large
    as the number of files, so a send never blocks), what each worker is
    doing, and the tasks whose conversion returned without error. A worker
    takes a task off the queue in one step and runs the body of its loop on
    it in another, so that the workers' bodies, and their sends to the error
    channel, interleave in any order. The file system and the conversion
    function are functions of the paths: different tasks work on different
    files and do not disturb each other. The directory scan comes before
    all this and hands over the list of relative paths. *)

Module FilesConverter.

(** What [convert] calls outside itself: [os.MkdirAll], [os.Open],
    [os.Create], the conversion function over the two opened files and
    [Close] on either ([None] is [nil]); and the path functions
    [filepath.Join], [filepath.Dir], [filepath.Base], [strings.TrimSuffix]. *)
Record OS : Type := mkOS {
  oserror : Type;
  MkdirAll : String.string -> option oserror;
  Open : String.string -> option oserror;
  Create : String.string -> option oserror;
  convertFunc : String.string -> String.string -> option oserror;
  CloseInput : String.string -> option oserror;
  CloseOutput : String.string -> option oserror;
  Join : String.string -> String.string -> String.string;
  Dir : String.string -> String.string;
  Base : String.string -> String.string;
  TrimSuffix : String.string -> String.string -> String.string
}.

(** The arguments of [convert] besides the conversion function. *)
Record Job : Type := mkJob {
  fromDir : String.string;
  toDir : String.string;
  fromExt : String.string;
  toExt : String.string
}.

Record ConversionTask : Type := mkTask {
  index : Z;
  totalFiles : Z;
  relPath : String.string;
  inputPath : String.string;
  outputPath : String.string
}.

(** The errors [convert] builds with [fmt.Errorf]. *)
Inductive batch_error (os : OS) : Type :=
| ErrMkdir (dir : String.string) (e : oserror os)   (* failed to create output directory *)
| ErrOpen (path : String.string) (e : oserror os)   (* failed to open input file *)
| ErrCreate (path : String.string) (e : oserror os) (* failed to create output file *)
| ErrConvert (rel : String.string) (e : oserror os). (* failed to convert file *)

Arguments ErrMkdir {os} dir e.
Arguments ErrOpen {os} path e.
Arguments ErrCreate {os} path e.
Arguments ErrConvert {os} rel e.

(** [NewFilesConverter]: the number of workers is the number of CPUs, at
    most 8. *)
Definition NewFilesConverter (numCPU : Z) : Z :=
  let maxWorkers := numCPU in
  if maxWorkers >? 8 then 8 else maxWorkers.

Definition SetMaxWorkers (maxWorkers workers : Z) : Z :=
  if workers >? 0 then workers else maxWorkers.

(** Lines 110-122: one task per file, numbered from 1. *)
Fixpoint make_tasks (os : OS) (job : Job) (i total : Z)
    (files : list String.string) : list ConversionTask :=
  match files with
  | [] => []
  | relPath :: files' =>
      let inputPath := Join os (fromDir job) relPath in
      let outputDir := Join os (toDir job) (Dir os relPath) in
      let outputPath :=
        Join os outputDir
          (String.append (TrimSuffix os (Base os relPath) (fromExt job)) (toExt job)) in
      mkTask (i + 1) total relPath inputPath outputPath
      :: make_tasks os job (i + 1) total files'
  end.

(** How the body of [for task := range taskQueue] ends for a task. *)
Inductive task_result (os : OS) : Type :=
| TaskFailed (e : batch_error os)  (* errChan <- e; continue *)
| WorkerReturns                    (* return, after a failed Close *)
| TaskDone.                        (* the end of the body *)

Arguments TaskFailed {os} e.
Arguments WorkerReturns {os}.
Arguments TaskDone {os}.

(** Lines 139-172. *)
Definition run_task (os : OS) (task : ConversionTask) : task_result os :=
  let outputDir := Dir os (outputPath task) in
  match MkdirAll os outputDir with
  | Some e => TaskFailed (ErrMkdir outputDir e)
  | None =>
  match Open os (inputPath task) with
  | Some e => TaskFailed (ErrOpen (inputPath task) e)
  | None =>
  match Create os (outputPath task) with
  | Some e => TaskFailed (ErrCreate (outputPath task) e)
  | None =>
  match convertFunc os (inputPath task) (outputPath task) with
  | Some e => TaskFailed (ErrConvert (relPath task) e)
  | None =>
  match CloseInput os (inputPath task) with
  | Some _ => WorkerReturns
  | None =>
  match CloseOutput os (outputPath task) with
  | Some _ => WorkerReturns
  | None => TaskDone
  end end end end end end.

(** A worker goroutine: at the head of its loop, inside the body with a
    task, or returned ([wg.Done]). *)
Inductive worker : Type :=
| Idle
| Busy (task : ConversionTask)
| Exited.

Record pool (os : OS) : Type := mkPool {
  taskQueue : list ConversionTask;
  errChan : list (batch_error os);
  workers : list worker;
  converted : list ConversionTask
}.

Arguments mkPool {os} taskQueue errChan workers converted.
Arguments taskQueue {os} p.
Arguments errChan {os} p.
Arguments workers {os} p.
Arguments converted {os} p.

Inductive step (os : OS) : pool os -> pool os -> Prop :=
| step_receive ws1 ws2 task queue errs done :
    step os (mkPool (task :: queue) errs (ws1 ++ Idle :: ws2) done)
            (mkPool queue errs (ws1 ++ Busy task :: ws2) done)
| step_drained ws1 ws2 errs done :
    step os (mkPool [] errs (ws1 ++ Idle :: ws2) done)
            (mkPool [] errs (ws1 ++ Exited :: ws2) done)
| step_failed ws1 ws2 task e queue errs done :
    run_task os task = TaskFailed e ->
    step os (mkPool queue errs (ws1 ++ Busy task :: ws2) done)
            (mkPool queue (errs ++ [e]) (ws1 ++ Idle :: ws2) done)
| step_returns ws1 ws2 task queue errs done :
    run_task os task = WorkerReturns ->
    step os (mkPool queue errs (ws1 ++ Busy task :: ws2) done)
            (mkPool queue errs (ws1 ++ Exited :: ws2) (task :: done))
| step_done ws1 ws2 task queue errs done :
    run_task os task = TaskDone ->
    step os (mkPool queue errs (ws1 ++ Busy task :: ws2) done)
            (mkPool queue errs (ws1 ++ Idle :: ws2) (task :: done)).

Inductive steps (os : OS) : pool os -> pool os -> Prop :=
| steps_refl s : steps os s s
| steps_cons s1 s2 s3 : step os s1 s2 -> steps os s2 s3 -> steps os s1 s3.

(** [wg.Wait()] returns: every worker has returned. *)
Definition all_exited {os : OS} (s : pool os) : Prop :=
  Forall (fun w => w = Exited) (workers s).

(** Lines 99-129: the queue is filled and closed, then [maxWorkers]
    goroutines are started. *)
Definition init_pool (os : OS) (tasks : list ConversionTask) (maxWorkers : Z)
    : pool os :=
  mkPool tasks [] (repeat Idle (Z.to_nat maxWorkers)) [].

(** Lines 181-185: [for err := range errChan { return err }; return nil]. *)
Definition first_error {os : OS} (errs : list (batch_error os))
    : option (batch_error os) :=
  match errs with
  | e :: _ => Some e
  | [] => None
  end.

(** A call of [convert] on the scanned [files] returns [result], having
    converted [done]. *)
Inductive convert_returns (os : OS) (job : Job) (files : list String.string)
    (maxWorkers : Z) : option (batch_error os) -> list ConversionTask -> Prop :=
| convert_no_files :
    files = [] -> convert_returns os job files maxWorkers None []
| convert_root_failed e :
    files <> [] -> MkdirAll os (toDir job) = Some e ->
    convert_returns os job files maxWorkers (Some (ErrMkdir (toDir job) e)) []
| convert_pool s :
    files <> [] -> MkdirAll os (toDir job) = None ->
    steps os
      (init_pool os (make_tasks os job 0 (Z.of_nat (length files)) files) maxWorkers)
      s ->
    all_exited s ->
    convert_returns os job files maxWorkers (first_error (errChan s)) (converted s).

(** The errors of the tasks that fail, and the tasks whose conversion
    returns without error, in task order. *)
Definition failures (os : OS) (tasks : list ConversionTask) : list (batch_error os) :=
  flat_map (fun t => match run_task os t with TaskFailed e => [e] | _ => [] end) tasks.

Definition successes (os : OS) (tasks : list ConversionTask) : list ConversionTask :=
  flat_map (fun t => match run_task os t with TaskFailed _ => [] | _ => [t] end) tasks.

Definition busy_tasks (ws : list worker) : list ConversionTask :=
  flat_map (fun w => match w with Busy t => [t] | _ => [] end) ws.

(** What is left to do, as a number that every step lowers. *)
Definition worker_weight (w : worker) : nat :=
  match w with Idle => 1 | Busy _ => 2 | Exited => 0 end.

Definition weight {os : OS} (s : pool os) : nat :=
  3 * length (taskQueue s) + list_sum (map worker_weight (workers s)).

(** The bookkeeping of a run: the tasks are those already through the body
    ([processed]), those inside it, and those still queued; the error
    channel holds the errors of the processed tasks that failed, and the
    converted tasks are the processed ones whose conversion succeeded. *)
Definition pool_inv (os : OS) (tasks : list ConversionTask) (s : pool os) : Prop :=
  exists processed,
    Permutation tasks (processed ++ busy_tasks (workers s) ++ taskQueue s)
    /\ Permutation (errChan s) (failures os processed)
    /\ Permutation (converted s) (successes os processed).

(** As long as tasks are queued some worker is there to take them. *)
Definition pool_alive (os : OS) (s : pool os) : Prop :=
  taskQueue s = [] \/ exists w, In w (workers s) /\ w <> Exited.

End FilesConverter.

(** A batch of three files over two workers; the conversion of the second
    file fails. *)
Module SampleBatch.
Import String.
Import FilesConverter.

Definition TrimSuffix (s suffix : string) : string :=
  let n := (String.length s - String.length suffix)%nat in
  if String.eqb (substring n (String.length suffix) s) suffix
  then substring 0 n s else s.

Definition sample_os : OS :=
  mkOS unit
    (fun _ => None)
    (fun _ => None)
    (fun _ => None)
    (fun input _ => if prefix "in/bad" input then Some tt else None)
    (fun _ => None)
    (fun _ => None)
    (fun a b => (a ++ "/" ++ b)%string)
    (fun _ => "."%string)
    (fun p => p)
    TrimSuffix.

Definition sample_job : Job := mkJob "in" "out" ".data" ".png".

Definition sample_files : list string := ["a.data"; "bad.data"; "c.data"]%string.

Definition sample_error : batch_error sample_os :=
  @ErrConvert sample_os "bad.data" tt.

(** Two corrupted files. *)
Definition two_bad_files : list string := ["bad1.data"; "bad2.data"]%string.

Definition bad1_task : ConversionTask :=
  mkTask 1 2 "bad1.data" "in/bad1.data" "out/./bad1.png".

Definition bad2_task : ConversionTask :=
  mkTask 2 2 "bad2.data" "in/bad2.data" "out/./bad2.png".

Definition bad1_error : batch_error sample_os := @ErrConvert sample_os "bad1.data" tt.

Definition bad2_error : batch_error sample_os := @ErrConvert sample_os "bad2.data" tt.

End SampleBatch.

(** Runs of the pool: their length, a worker on its own, the workers left. *)
Module PoolRuns.
Import FilesConverter.

(** A run of the pool of a given number of steps. *)
Inductive steps_n (os : OS) : nat -> pool os -> pool os -> Prop :=
| steps_n_O s : steps_n os 0 s s
| steps_n_S n s1 s2 s3 :
    step os s1 s2 -> steps_n os n s2 s3 -> steps_n os (S n) s1 s3.

(** Lines 134-174 run by one goroutine alone: the tasks are taken in queue
    order until the queue is empty or a [Close] fails; the errors sent and
    the tasks whose conversion returned without error, in that order. *)
Fixpoint run_in_order (os : OS) (queue : list ConversionTask)
    : list (batch_error os) * list ConversionTask :=
  match queue with
  | [] => ([], [])
  | task :: queue' =>
      match run_task os task with
      | TaskFailed e =>
          let (errs, done) := run_in_order os queue' in (e :: errs, done)
      | WorkerReturns => ([], [task])
      | TaskDone =>
          let (errs, done) := run_in_order os queue' in (errs, task :: done)
      end
  end.

(** What one worker does from where it stands. *)
Definition worker_run (os : OS) (w : worker) (queue : list ConversionTask)
    : list (batch_error os) * list ConversionTask :=
  match w with
  | Idle => run_in_order os queue
  | Busy task => run_in_order os (task :: queue)
  | Exited => ([], [])
  end.

(** The tasks [convert] queues for the scanned [files]. *)
Definition tasks_of (os : OS) (job : Job) (files : list String.string)
    : list ConversionTask :=
  make_tasks os job 0 (Z.of_nat (length files)) files.

(** The worker count after [NewFilesConverter] and a series of calls of
    [SetMaxWorkers]. *)
Definition configure (numCPU : Z) (calls : list Z) : Z :=
  fold_left SetMaxWorkers calls (NewFilesConverter numCPU).

(** The workers that have not returned. *)
Definition alive (ws : list worker) : nat :=
  length (filter (fun w => match w with Exited => false | _ => true end) ws).

(** The tasks on which a worker returns: the conversion is through and a
    [Close] fails. *)
Definition close_failures (os : OS) (tasks : list ConversionTask)
    : list ConversionTask :=
  filter (fun t => match run_task os t with
                   | WorkerReturns => true
                   | _ => false
                   end) tasks.

(** A worker is lost only to a failing [Close] as long as tasks are
    queued. *)
Definition pool_staffed (os : OS) (maxWorkers : Z) (s : pool os) : Prop :=
  taskQueue s = []
  \/ maxWorkers
     <= Z.of_nat (alive (workers s))
        + Z.of_nat (length (close_failures os (converted s))).

End PoolRuns.

(** A batch of two files: closing the input of the first fails once it is
    converted, the conversion of the second fails. *)
Module SampleClose.
Import String.
Import FilesConverter.

Definition close_os : OS :=
  mkOS unit
    (fun _ => None)
    (fun _ => None)
    (fun _ => None)
    (fun input _ => if prefix "in/bad" input then Some tt else None)
    (fun input => if prefix "in/a" input then Some tt else None)
    (fun _ => None)
    (fun a b => (a ++ "/" ++ b)%string)
    (fun _ => "."%string)
    (fun p => p)
    SampleBatch.TrimSuffix.

Definition close_files : list string := ["a.data"; "bad.data"]%string.

Definition a_task : ConversionTask :=
  mkTask 1 2 "a.data" "in/a.data" "out/./a.png".

Definition bad_task : ConversionTask :=
  mkTask 2 2 "bad.data" "in/bad.data" "out/./bad.png".

Definition bad_error : batch_error close_os := @ErrConvert close_os "bad.data" tt.

End SampleClose.

(** * The directory scan

    Lines 74-91 of [convert]. [filepath.Walk] presents the entries under
    [fromDir] one after the other to the function it is given, each with
    its path, whether it is a directory, and the error met on the way to it
    if any; it stops at the first call that returns an error and returns
    that error. *)
Module Scan.
Import FilesConverter.

(** The library functions the scan calls: [strings.ToLower],
    [strings.HasSuffix] and [filepath.Rel]. *)
Record Paths (os : OS) : Type := mkPaths {
  ToLower : String.string -> String.string;
  HasSuffix : String.string -> String.string -> bool;
  Rel : String.string -> String.string -> oserror os + String.string
}.

Arguments ToLower {os} p s.
Arguments HasSuffix {os} p s suffix.
Arguments Rel {os} p basepath targpath.

(** The arguments of one call of the walk function. *)
Record visit (os : OS) : Type := mkVisit {
  path : String.string;
  IsDir : bool;
  err : option (oserror os)
}.

Arguments mkVisit {os} path IsDir err.
Arguments path {os} v.
Arguments IsDir {os} v.
Arguments err {os} v.

(** The test of line 79. *)
Definition selected {os : OS} (p : Paths os) (job : Job) (v : visit os) : bool :=
  negb (IsDir v) && HasSuffix p (ToLower p (path v)) (ToLower p (fromExt job)).

(** Lines 75-87, the function given to [filepath.Walk]: the error it
    returns, or the list [files] after the call. *)
Definition walk_func {os : OS} (p : Paths os) (job : Job)
    (files : list String.string) (v : visit os)
    : oserror os + list String.string :=
  match err v with
  | Some e => inl e
  | None =>
      if selected p job v then
        match Rel p (fromDir job) (path v) with
        | inl e => inl e
        | inr relPath => inr (files ++ [relPath])
        end
      else inr files
  end.

(** [filepath.Walk] over the entries [visits]. *)
Fixpoint Walk {os : OS} (p : Paths os) (job : Job) (visits : list (visit os))
    (files : list String.string) : oserror os + list String.string :=
  match visits with
  | [] => inr files
  | v :: visits' =>
      match walk_func p job files v with
      | inl e => inl e
      | inr files' => Walk p job visits' files'
      end
  end.

End Scan.

(** * The command line *)
Module Main.
Import String.
Import FilesConverter.

(** The two commands [main] knows. *)
Inductive command : Type := data2png | png2data.

(** How far [main] gets before the conversion starts: one of the calls of
    [logrus.Fatal], or the call of the files converter with its command,
    the two absolute paths and the number of workers. *)
Inductive plan (E : Type) : Type :=
| FatalUsage
| FatalFromPath (e : E)
| FatalToPath (e : E)
| FatalUnrecognized (cmd : string)
| Convert (c : command) (fromPath toPath : string) (maxWorkers : Z).

Arguments FatalUsage {E}.
Arguments FatalFromPath {E} e.
Arguments FatalToPath {E} e.
Arguments FatalUnrecognized {E} cmd.
Arguments Convert {E} c fromPath toPath maxWorkers.

(** Lines 21-80. [numCPU] is [runtime.NumCPU()], [Abs] is [filepath.Abs],
    [workers_flag] is the value given with [-workers] if the flag is
    there, [args] are the arguments after the flags. *)
Definition main {E : Type} (numCPU : Z) (Abs : string -> E + string)
    (workers_flag : option Z) (args : list string) : plan E :=
  let workers := match workers_flag with Some n => n | None => numCPU end in
  match args with
  | cmd :: from :: to :: _ =>
      match Abs from with
      | inl e => FatalFromPath e
      | inr fromPath =>
      match Abs to with
      | inl e => FatalToPath e
      | inr toPath =>
          let maxWorkers := NewFilesConverter numCPU in
          let maxWorkers :=
            if workers >? 0 then SetMaxWorkers maxWorkers workers
            else maxWorkers in
          if String.eqb cmd "data2png" then
            Convert data2png fromPath toPath maxWorkers
          else if String.eqb cmd "png2data" then
            Convert png2data fromPath toPath maxWorkers
          else FatalUnrecognized cmd
      end end
  | _ => FatalUsage
  end.

(** [celeste-converter data2png in out] *)
Definition sample_args : list string := ["data2png"; "in"; "out"]%string.

Definition sample_from : string := "in".

Definition sample_to : string := "out".

End Main.

(** * File names *)
Module Names.
Import String.
Import FilesConverter.

(** Line 113: the name of the output file for the base name of an input
    file, [strings.TrimSuffix(base, fromExt) + toExt]. *)
Definition output_name (job : Job) (base : string) : string :=
  SampleBatch.TrimSuffix base (fromExt job) ++ toExt job.

(** Lines 45-54: the extensions [FilesConverter.DataToPng] and
    [FilesConverter.PngToData] hand to [convert]. *)
Definition job_of (c : Main.command) (fromDir toDir : string) : Job :=
  match c with
  | Main.data2png => mkJob fromDir toDir ".data" ".png"
  | Main.png2data => mkJob fromDir toDir ".png" ".data"
  end.

(** The command that converts the other way. *)
Definition opposite (c : Main.command) : Main.command :=
  match c with
  | Main.data2png => Main.png2data
  | Main.png2data => Main.data2png
  end.

(** An operating system whose [strings.TrimSuffix] is the library's. *)
Definition trims_suffix (os : OS) : Prop :=
  forall s suffix, TrimSuffix os s suffix = SampleBatch.TrimSuffix s suffix.

End Names.

(** * The batch as a whole: the scan, the pool, the value returned

    [convert] from its first line to its last. A run of the pool is recorded
    as the list of what its steps do, in the order in which they happen; the
    sends to the error channel are among them. *)
Module Batch.
Import FilesConverter.

(** What one step of the pool does. *)
Inductive event (os : OS) : Type :=
| Received (task : ConversionTask)                   (* task := <-taskQueue *)
| Drained                                            (* the queue is empty: wg.Done *)
| Sent (task : ConversionTask) (e : batch_error os)  (* errChan <- e; continue *)
| Returned (task : ConversionTask)                   (* a Close failed: return *)
| Finished (task : ConversionTask).                  (* the end of the body *)

Arguments Received {os} task.
Arguments Drained {os}.
Arguments Sent {os} task e.
Arguments Returned {os} task.
Arguments Finished {os} task.

(** The steps of [step], each with what it does. *)
Inductive observed_step (os : OS) : pool os -> event os -> pool os -> Prop :=
| observed_receive ws1 ws2 task queue errs done :
    observed_step os (mkPool (task :: queue) errs (ws1 ++ Idle :: ws2) done)
      (Received task)
      (mkPool queue errs (ws1 ++ Busy task :: ws2) done)
| observed_drained ws1 ws2 errs done :
    observed_step os (mkPool [] errs (ws1 ++ Idle :: ws2) done)
      Drained
      (mkPool [] errs (ws1 ++ Exited :: ws2) done)
| observed_failed ws1 ws2 task e queue errs done :
    run_task os task = TaskFailed e ->
    observed_step os (mkPool queue errs (ws1 ++ Busy task :: ws2) done)
      (Sent task e)
      (mkPool queue (errs ++ [e]) (ws1 ++ Idle :: ws2) done)
| observed_returns ws1 ws2 task queue errs done :
    run_task os task = WorkerReturns ->
    observed_step os (mkPool queue errs (ws1 ++ Busy task :: ws2) done)
      (Returned task)
      (mkPool queue errs (ws1 ++ Exited :: ws2) (task :: done))
| observed_done ws1 ws2 task queue errs done :
    run_task os task = TaskDone ->
    observed_step os (mkPool queue errs (ws1 ++ Busy task :: ws2) done)
      (Finished task)
      (mkPool queue errs (ws1 ++ Idle :: ws2) (task :: done)).

(** A run of the pool and what happens in it, first to last. *)
Inductive run (os : OS) : pool os -> list (event os) -> pool os -> Prop :=
| run_nil s : run os s [] s
| run_cons s1 ev s2 events s3 :
    observed_step os s1 ev s2 -> run os s2 events s3 ->
    run os s1 (ev :: events) s3.



(** Lines 93-185: [convert] once the files are known. What [convert_returns]
    says, with the events of the run. *)
Inductive convert_run (os : OS) (job : Job) (files : list String.string)
    (maxWorkers : Z)
    : list (event os) -> option (batch_error os) -> list ConversionTask -> Prop :=
| convert_run_no_files :
    files = [] -> convert_run os job files maxWorkers [] None []
| convert_run_root_failed e :
    files <> [] -> MkdirAll os (toDir job) = Some e ->
    convert_run os job files maxWorkers []
      (Some (ErrMkdir (toDir job) e)) []
| convert_run_pool events s :
    files <> [] -> MkdirAll os (toDir job) = None ->
    run os
      (init_pool os (make_tasks os job 0 (Z.of_nat (length files)) files) maxWorkers)
      events s ->
    all_exited s ->
    convert_run os job files maxWorkers events
      (first_error (errChan s)) (converted s).

(** The errors [convert] returns. *)
Inductive convert_error (os : OS) : Type :=
| ErrScanning (e : oserror os)   (* error scanning directory *)
| ErrBatch (e : batch_error os).

Arguments ErrScanning {os} e.
Arguments ErrBatch {os} e.

(** Lines 66-186: the scan of the entries [visits] that [filepath.Walk]
    presents, then the rest. *)
Inductive convert (os : OS) (p : Scan.Paths os) (job : Job)
    (visits : list (Scan.visit os)) (maxWorkers : Z)
    : list (event os) -> option (convert_error os) -> list ConversionTask -> Prop :=
| convert_scan_failed e :
    Scan.Walk p job visits [] = inl e ->
    convert os p job visits maxWorkers [] (Some (ErrScanning e)) []
| convert_scanned files events result done :
    Scan.Walk p job visits [] = inr files ->
    convert_run os job files maxWorkers events result done ->
    convert os p job visits maxWorkers events (option_map ErrBatch result) done.








End Batch.

(** The batch of [SampleBatch] from the scan on, and two that go wrong
    outside the four steps of a task. *)
Module SampleScan.
Import String.
Import FilesConverter.

(** Path functions for relative paths under a one-name root. *)
Definition plain_paths (os : OS) : Scan.Paths os :=
  Scan.mkPaths os
    (fun s => s)
    (fun s suffix =>
       String.eqb
         (substring (String.length s - String.length suffix)
            (String.length suffix) s) suffix)
    (fun base target =>
       inr (substring (String.length base + 1) (String.length target) target)).

(** What the walk of [in] presents: the directory, then its three files. *)
Definition sample_visits (os : OS) : list (Scan.visit os) :=
  [Scan.mkVisit "in" true None;
   Scan.mkVisit "in/a.data" false None;
   Scan.mkVisit "in/bad.data" false None;
   Scan.mkVisit "in/c.data" false None].

Definition a_task : ConversionTask :=
  mkTask 1 3 "a.data" "in/a.data" "out/./a.png".

Definition bad_task : ConversionTask :=
  mkTask 2 3 "bad.data" "in/bad.data" "out/./bad.png".

Definition c_task : ConversionTask :=
  mkTask 3 3 "c.data" "in/c.data" "out/./c.png".



(** The walk of a source directory that is not there: [filepath.Walk] calls
    the function once, with the error of [os.Lstat]. *)
Definition missing_visits : list (Scan.visit SampleBatch.sample_os) :=
  [@Scan.mkVisit SampleBatch.sample_os "in" false (Some tt)].

Definition scan_error : Batch.convert_error SampleBatch.sample_os :=
  @Batch.ErrScanning SampleBatch.sample_os tt.



End SampleScan.

(* ------------------------------------------------------------------ *)
(** ** Proof steps that recur *)

(** Splits the stream into the shapes [read_run] tells apart. *)
Ltac split_stream input :=
  destruct input as [|?b [|?b [|?b [|?b [|?b ?rest]]]]].

(** Settles a stream that ends inside the header by running the decoder. *)
Ltac header_cut H :=
  let E := fresh "E" in
  match type of H with
  | DataToPng ?l = _ =>
      first
        [ assert (E : DataToPng l = Some (Failed EOF, [])) by reflexivity
        | assert (E : DataToPng l = Some (Failed ErrUnexpectedEOF, []))
            by reflexivity ];
      rewrite E in H; injection H as <- <-
  end.

(* ================================================================== *)
(** * Properties *)

(* ------------------------------------------------------------------ *)
(** ** Bytes and the header integers *)

Lemma byte_to_Z_range (b : byte) : 0 <= byte_to_Z b < 256.
Proof.
  unfold byte_to_Z. pose proof (Byte.to_N_bounded b). lia.
Qed.

Lemma byte_to_Z_uint8 (z : Z) : byte_to_Z (uint8 z) = z mod 256.
Proof.
  unfold byte_to_Z, uint8.
  assert (Hr : 0 <= z mod 256 < 256) by (apply Z.mod_pos_bound; lia).
  destruct (Byte.of_N (Z.to_N (z mod 256))) as [b|] eqn:E.
  - apply Byte.to_of_N in E. rewrite E. lia.
  - apply Byte.of_N_None_iff in E. lia.
Qed.

Lemma uint8_byte_to_Z (b : byte) : uint8 (byte_to_Z b) = b.
Proof.
  unfold uint8, byte_to_Z.
  pose proof (Byte.to_N_bounded b).
  rewrite Z.mod_small by lia.
  rewrite N2Z.id, Byte.of_to_N. reflexivity.
Qed.

Lemma byte_to_Z_inj (a b : byte) : byte_to_Z a = byte_to_Z b -> a = b.
Proof.
  intros H. rewrite <- (uint8_byte_to_Z a), <- (uint8_byte_to_Z b), H. reflexivity.
Qed.

Lemma byte_eqb_refl (b : byte) : Byte.eqb b b = true.
Proof. apply Byte.byte_dec_lb. reflexivity. Qed.

Lemma byte_eqb_eq (a b : byte) : Byte.eqb a b = true <-> a = b.
Proof.
  split; [apply Byte.byte_dec_bl | apply Byte.byte_dec_lb].
Qed.

Lemma RGBA_eqb_eq (p q : RGBA) : RGBA_eqb p q = true <-> p = q.
Proof.
  unfold RGBA_eqb. rewrite !andb_true_iff, !byte_eqb_eq.
  destruct p, q; simpl. split.
  - intros [[[-> ->] ->] ->]. reflexivity.
  - intros H. injection H as -> -> -> ->. auto.
Qed.

(** A low part below [2^k] and a part shifted by [k] share no bit. *)
Lemma lor_shiftl_add (a b k : Z) :
  0 <= k -> 0 <= a < 2 ^ k -> Z.lor a (Z.shiftl b k) = a + b * 2 ^ k.
Proof.
  intros Hk Ha.
  rewrite <- Z.lxor_lor, <- Z.add_nocarry_lxor, Z.shiftl_mul_pow2; auto.
  - apply Z.bits_inj'. intros n Hn.
    rewrite Z.land_spec, Z.bits_0.
    destruct (Z.lt_ge_cases n k) as [Hlt|Hge].
    + rewrite Z.shiftl_spec_low by assumption. apply andb_false_r.
    + rewrite <- (Z.mod_small a (2 ^ k)) by assumption.
      rewrite Z.mod_pow2_bits_high by lia. reflexivity.
  - apply Z.bits_inj'. intros n Hn.
    rewrite Z.land_spec, Z.bits_0.
    destruct (Z.lt_ge_cases n k) as [Hlt|Hge].
    + rewrite Z.shiftl_spec_low by assumption. apply andb_false_r.
    + rewrite <- (Z.mod_small a (2 ^ k)) by assumption.
      rewrite Z.mod_pow2_bits_high by lia. reflexivity.
Qed.

Lemma le_uint32_sum (b0 b1 b2 b3 : byte) :
  le_uint32 [b0; b1; b2; b3]
  = byte_to_Z b0 + 256 * byte_to_Z b1 + 65536 * byte_to_Z b2
    + 16777216 * byte_to_Z b3.
Proof.
  pose proof (byte_to_Z_range b0). pose proof (byte_to_Z_range b1).
  pose proof (byte_to_Z_range b2). pose proof (byte_to_Z_range b3).
  unfold le_uint32.
  replace (Z.shiftl (byte_to_Z b3) 24)
    with (Z.shiftl (Z.shiftl (byte_to_Z b3) 8) 16)
    by (rewrite Z.shiftl_shiftl by lia; reflexivity).
  rewrite <- (Z.shiftl_lor _ _ 16).
  replace (Z.shiftl (Z.lor (byte_to_Z b2) (Z.shiftl (byte_to_Z b3) 8)) 16)
    with (Z.shiftl (Z.shiftl (Z.lor (byte_to_Z b2) (Z.shiftl (byte_to_Z b3) 8)) 8) 8)
    by (rewrite Z.shiftl_shiftl by lia; reflexivity).
  rewrite <- (Z.shiftl_lor _ _ 8).
  rewrite !lor_shiftl_add by (change (2 ^ 8) with 256; lia).
  change (2 ^ 8) with 256. lia.
Qed.

Lemma le_uint32_range (b0 b1 b2 b3 : byte) :
  0 <= le_uint32 [b0; b1; b2; b3] < 2 ^ 32.
Proof.
  rewrite le_uint32_sum.
  pose proof (byte_to_Z_range b0). pose proof (byte_to_Z_range b1).
  pose proof (byte_to_Z_range b2). pose proof (byte_to_Z_range b3).
  change (2 ^ 32) with 4294967296. lia.
Qed.

Lemma int32_small (z : Z) : - 2 ^ 31 <= z < 2 ^ 31 -> int32 z = z.
Proof.
  intros H. unfold int32. rewrite Z.mod_small; lia.
Qed.

Lemma int32_range (z : Z) : - 2 ^ 31 <= int32 z < 2 ^ 31.
Proof.
  unfold int32.
  pose proof (Z.mod_pos_bound (z + 2 ^ 31) (2 ^ 32) ltac:(lia)). lia.
Qed.

(** Reading back what [binary.Write] wrote. *)
Lemma int32_le_uint32_put (v : Z) :
  - 2 ^ 31 <= v < 2 ^ 31 -> int32 (le_uint32 (put_int32 v)) = v.
Proof.
  intros Hv. unfold put_int32. rewrite le_uint32_sum, !byte_to_Z_uint8.
  rewrite !Z.shiftr_div_pow2 by lia.
  change (2 ^ 8) with 256. change (2 ^ 16) with 65536.
  change (2 ^ 24) with 16777216.
  assert (E : v mod 256 + 256 * ((v / 256) mod 256)
              + 65536 * ((v / 65536) mod 256)
              + 16777216 * ((v / 16777216) mod 256) = v mod 2 ^ 32).
  { change (2 ^ 32) with 4294967296. change (2 ^ 31) with 2147483648 in Hv.
    Z.to_euclidean_division_equations. lia. }
  rewrite E. unfold int32.
  rewrite Zplus_mod_idemp_l.
  rewrite Z.mod_small; lia.
Qed.

Lemma binary_Read_int32_cons4 (b0 b1 b2 b3 : byte) (rest : Reader) :
  binary_Read_int32 (b0 :: b1 :: b2 :: b3 :: rest)
  = (inr (int32 (le_uint32 [b0; b1; b2; b3])), rest).
Proof. reflexivity. Qed.

Lemma binary_Read_int32_put (v : Z) (rest : Reader) :
  - 2 ^ 31 <= v < 2 ^ 31 ->
  binary_Read_int32 (put_int32 v ++ rest) = (inr v, rest).
Proof.
  intros Hv. unfold put_int32. simpl app.
  rewrite binary_Read_int32_cons4.
  change [uint8 v; uint8 (Z.shiftr v 8); uint8 (Z.shiftr v 16); uint8 (Z.shiftr v 24)]
    with (put_int32 v).
  rewrite int32_le_uint32_put by assumption. reflexivity.
Qed.

Lemma valid_dims_int32 (width height : Z) :
  valid_dims width height -> int32 (width * height) = width * height.
Proof.
  intros [Hw Hh]. apply int32_small.
  change (2 ^ 31) with 2147483648. nia.
Qed.

Lemma valid_dims_check (width height : Z) :
  valid_dims width height ->
  (width <=? 0) || (height <=? 0) || (width >? 8192) || (height >? 8192) = false.
Proof.
  intros [Hw Hh].
  destruct (Z.leb_spec width 0); [lia|].
  destruct (Z.leb_spec height 0); [lia|].
  destruct (Z.gtb_spec width 8192); [lia|].
  destruct (Z.gtb_spec height 8192); [lia|]. reflexivity.
Qed.

(* ------------------------------------------------------------------ *)
(** ** The canvas *)

Lemma SetRGBA_Dx img x y c : Rect_Dx (SetRGBA img x y c) = Rect_Dx img.
Proof. unfold SetRGBA. destruct (in_rect img x y); reflexivity. Qed.

Lemma SetRGBA_Dy img x y c : Rect_Dy (SetRGBA img x y c) = Rect_Dy img.
Proof. unfold SetRGBA. destruct (in_rect img x y); reflexivity. Qed.

Lemma in_rect_SetRGBA img x y c x' y' :
  in_rect (SetRGBA img x y c) x' y' = in_rect img x' y'.
Proof. unfold in_rect. rewrite SetRGBA_Dx, SetRGBA_Dy. reflexivity. Qed.

Lemma RGBAAt_SetRGBA img x y c x' y' :
  RGBAAt (SetRGBA img x y c) x' y'
  = if in_rect img x' y' && (x' =? x) && (y' =? y) then c else RGBAAt img x' y'.
Proof.
  unfold RGBAAt. rewrite in_rect_SetRGBA.
  destruct (in_rect img x' y') eqn:E'; simpl; [|reflexivity].
  unfold SetRGBA.
  destruct (in_rect img x y) eqn:E; simpl.
  - reflexivity.
  - destruct (x' =? x) eqn:Ex; simpl; [|reflexivity].
    destruct (y' =? y) eqn:Ey; simpl; [|reflexivity].
    apply Z.eqb_eq in Ex, Ey. subst. congruence.
Qed.

(** The rule for counted loops: an invariant indexed by the counter. *)
Lemma for_loop_inv {S : Type} (P : Z -> S -> Prop) (body : Z -> S -> S) :
  forall (n : nat) (lo : Z) (s : S),
  P lo s ->
  (forall j t, lo <= j < lo + Z.of_nat n -> P j t -> P (j + 1) (body j t)) ->
  P (lo + Z.of_nat n) (for_loop n lo body s).
Proof.
  induction n as [|n IH]; intros lo s H0 Hstep.
  - simpl. replace (lo + 0) with lo by lia. exact H0.
  - simpl for_loop.
    replace (lo + Z.of_nat (Datatypes.S n)) with ((lo + 1) + Z.of_nat n) by lia.
    apply IH.
    + apply Hstep; [lia | exact H0].
    + intros j t Hj. apply Hstep. lia.
Qed.

Lemma for_range_inv {S : Type} (P : Z -> S -> Prop) (body : Z -> S -> S)
    (lo hi : Z) (s : S) :
  lo <= hi ->
  P lo s ->
  (forall j t, lo <= j < hi -> P j t -> P (j + 1) (body j t)) ->
  P hi (for_range lo hi body s).
Proof.
  intros Hle H0 Hstep. unfold for_range.
  replace hi with (lo + Z.of_nat (Z.to_nat (hi - lo))) at 1 by lia.
  apply for_loop_inv; [exact H0|].
  intros j t Hj. apply Hstep. lia.
Qed.

Lemma for_range_empty {S : Type} (body : Z -> S -> S) (lo hi : Z) (s : S) :
  hi <= lo -> for_range lo hi body s = s.
Proof.
  intros H. unfold for_range.
  replace (Z.to_nat (hi - lo)) with O by lia. reflexivity.
Qed.

Lemma fold_left_map_list {A B C : Type} (f : A -> C -> A) (g : B -> C) :
  forall (l : list B) (a : A),
  fold_left f (map g l) a = fold_left (fun t x => f t (g x)) l a.
Proof.
  induction l as [|x l IH]; intros a; simpl; [reflexivity | apply IH].
Qed.

(** A counted loop is a fold over the values of its counter. *)
Lemma for_loop_fold {S : Type} (body : Z -> S -> S) :
  forall (n : nat) (lo : Z) (s : S),
  for_loop n lo body s
  = fold_left (fun t k => body (lo + Z.of_nat k) t) (seq 0 n) s.
Proof.
  induction n as [|n IH]; intros lo s; [reflexivity|].
  simpl for_loop. rewrite IH. simpl seq. simpl fold_left.
  change (Z.of_nat 0) with 0. rewrite Z.add_0_r.
  rewrite <- seq_shift, fold_left_map_list.
  assert (E : forall l t,
            fold_left (fun t k => body (lo + 1 + Z.of_nat k) t) l t
            = fold_left (fun t k => body (lo + Z.of_nat (Datatypes.S k)) t) l t).
  { induction l as [|k l IHl]; intros t; simpl; [reflexivity|].
    replace (lo + 1 + Z.of_nat k) with (lo + Z.pos (Pos.of_succ_nat k)) by lia.
    apply IHl. }
  apply E.
Qed.

(** The writes of [paint_run]: one [SetRGBA] for each of [run_coords], in
    order. *)
Lemma paint_run_writes (width i count : Z) (c : RGBA) (img : RGBAImage) :
  paint_run width i count c img
  = fold_left (fun t p => SetRGBA t (fst p) (snd p) c)
      (run_coords width i count) img.
Proof.
  unfold paint_run, for_range, run_coords.
  rewrite for_loop_fold, fold_left_map_list, Z.sub_0_r. reflexivity.
Qed.

Lemma quot_rem_index (width k x y : Z) :
  0 < width -> 0 <= k -> 0 <= x < width ->
  (Z.rem k width = x /\ Z.quot k width = y) <-> k = pixel_index width x y.
Proof.
  intros Hw Hk Hx. unfold pixel_index.
  rewrite Z.rem_mod_nonneg, Z.quot_div_nonneg by lia.
  split.
  - intros [<- <-]. pose proof (Z.div_mod k width ltac:(lia)). lia.
  - intros ->. split.
    + rewrite Z.add_comm, Z.mod_add by lia. apply Z.mod_small. lia.
    + rewrite Z.add_comm, Z.div_add by lia. rewrite Z.div_small by lia. lia.
Qed.

Lemma pixel_index_coords (width k : Z) :
  0 < width -> 0 <= k ->
  pixel_index width (Z.rem k width) (Z.quot k width) = k.
Proof.
  intros Hw Hk. unfold pixel_index.
  rewrite Z.rem_mod_nonneg, Z.quot_div_nonneg by lia.
  pose proof (Z.div_mod k width ltac:(lia)). lia.
Qed.

Lemma coords_in_rect (img : RGBAImage) (k : Z) :
  0 < Rect_Dx img -> 0 <= k < Rect_Dx img * Rect_Dy img ->
  in_rect img (Z.rem k (Rect_Dx img)) (Z.quot k (Rect_Dx img)) = true.
Proof.
  intros Hw Hk. unfold in_rect.
  rewrite Z.rem_mod_nonneg, Z.quot_div_nonneg by lia.
  pose proof (Z.mod_pos_bound k (Rect_Dx img) Hw).
  assert (0 <= k / Rect_Dx img) by (apply Z.div_pos; lia).
  assert (k / Rect_Dx img < Rect_Dy img) by (apply Z.div_lt_upper_bound; nia).
  destruct (Z.leb_spec 0 (k mod Rect_Dx img)); [|lia].
  destruct (Z.ltb_spec (k mod Rect_Dx img) (Rect_Dx img)); [|lia].
  destruct (Z.leb_spec 0 (k / Rect_Dx img)); [|lia].
  destruct (Z.ltb_spec (k / Rect_Dx img) (Rect_Dy img)); [|lia].
  reflexivity.
Qed.

Lemma paint_run_spec (width i count : Z) (c : RGBA) (img : RGBAImage) :
  0 < width -> 0 <= i -> Rect_Dx img = width ->
  let img' := paint_run width i count c img in
  Rect_Dx img' = Rect_Dx img /\ Rect_Dy img' = Rect_Dy img /\
  forall x y,
    RGBAAt img' x y
    = if in_rect img x y && (i <=? pixel_index width x y)
         && (pixel_index width x y <? i + count)
      then c else RGBAAt img x y.
Proof.
  intros Hw Hi Hdx. simpl.
  destruct (Z.le_gt_cases count 0) as [Hc|Hc].
  { unfold paint_run. rewrite for_range_empty by lia.
    repeat split. intros x y.
    destruct (Z.leb_spec i (pixel_index width x y));
      destruct (Z.ltb_spec (pixel_index width x y) (i + count));
      rewrite ?andb_false_r; try reflexivity. lia. }
  unfold paint_run.
  apply (for_range_inv
    (fun j t => Rect_Dx t = Rect_Dx img /\ Rect_Dy t = Rect_Dy img /\
       forall x y, RGBAAt t x y
         = if in_rect img x y && (i <=? pixel_index width x y)
              && (pixel_index width x y <? i + j)
           then c else RGBAAt img x y)).
  - lia.
  - repeat split. intros x y.
    destruct (Z.leb_spec i (pixel_index width x y));
      destruct (Z.ltb_spec (pixel_index width x y) (i + 0));
      rewrite ?andb_false_r; try reflexivity. lia.
  - intros j t Hj (Hx & Hy & Hat).
    rewrite SetRGBA_Dx, SetRGBA_Dy. repeat split; try assumption.
    intros x y. rewrite RGBAAt_SetRGBA, Hat.
    assert (Hrect : in_rect t x y = in_rect img x y)
      by (unfold in_rect; rewrite Hx, Hy; reflexivity).
    rewrite Hrect.
    destruct (in_rect img x y) eqn:Er; simpl; [|reflexivity].
    unfold in_rect in Er. rewrite !andb_true_iff in Er.
    destruct Er as [[[Ex0 Ex1] Ey0] Ey1].
    apply Z.leb_le in Ex0, Ey0. apply Z.ltb_lt in Ex1, Ey1.
    pose proof (quot_rem_index width (i + j) x y Hw ltac:(lia) ltac:(lia)) as Hq.
    destruct ((x =? Z.rem (i + j) width) && (y =? Z.quot (i + j) width)) eqn:Eq.
    + apply andb_true_iff in Eq. destruct Eq as [Ea Eb].
      apply Z.eqb_eq in Ea, Eb.
      assert (Hk : i + j = pixel_index width x y) by (apply Hq; split; congruence).
      destruct (Z.leb_spec i (pixel_index width x y));
        destruct (Z.ltb_spec (pixel_index width x y) (i + (j + 1)));
        try reflexivity; lia.
    + assert (Hk : i + j <> pixel_index width x y).
      { intros Hk. apply Hq in Hk. destruct Hk as [Hk1 Hk2].
        rewrite Hk1, Hk2, !Z.eqb_refl in Eq. discriminate. }
      destruct (Z.leb_spec i (pixel_index width x y)); simpl; [|reflexivity].
      destruct (Z.ltb_spec (pixel_index width x y) (i + j));
        destruct (Z.ltb_spec (pixel_index width x y) (i + (j + 1)));
        try reflexivity; lia.
Qed.

Lemma init_canvas_spec (width height : Z) (hasAlpha : bool) (img : RGBAImage) :
  let img' := init_canvas width height hasAlpha img in
  Rect_Dx img' = Rect_Dx img /\ Rect_Dy img' = Rect_Dy img /\
  forall x y,
    0 <= x < width -> 0 <= y < height -> in_rect img x y = true ->
    RGBAAt img' x y = default_pixel hasAlpha.
Proof.
  simpl. unfold init_canvas.
  destruct (Z.le_gt_cases height 0) as [Hh|Hh].
  { rewrite for_range_empty by lia. repeat split. intros; lia. }
  apply (for_range_inv
    (fun j t => Rect_Dx t = Rect_Dx img /\ Rect_Dy t = Rect_Dy img /\
       forall x y, 0 <= x < width -> 0 <= y < j -> in_rect img x y = true ->
         RGBAAt t x y = default_pixel hasAlpha)).
  - lia.
  - repeat split. intros; lia.
  - intros j t Hj (Hx & Hy & Hat).
    destruct (Z.le_gt_cases width 0) as [Hw|Hw].
    { rewrite for_range_empty by lia. repeat split; try assumption. intros; lia. }
    pose (Q := fun (k : Z) (u : RGBAImage) =>
      Rect_Dx u = Rect_Dx img /\ Rect_Dy u = Rect_Dy img /\
      forall x y, 0 <= x < width -> in_rect img x y = true ->
        (0 <= y < j \/ (y = j /\ x < k)) ->
        RGBAAt u x y = default_pixel hasAlpha).
    assert (Hinner : Q width
      (for_range 0 width (fun x u => SetRGBA u x j (default_pixel hasAlpha)) t)).
    { apply (for_range_inv Q); unfold Q.
      - lia.
      - repeat split; try assumption.
        intros x y Hxr Hin [Hy0|[_ Hk]]; [auto | lia].
      - intros k u Hk (Hux & Huy & Huat).
        rewrite SetRGBA_Dx, SetRGBA_Dy. repeat split; try assumption.
        intros x y Hxr Hin Hcase. rewrite RGBAAt_SetRGBA.
        assert (Hrect : in_rect u x y = in_rect img x y)
          by (unfold in_rect; rewrite Hux, Huy; reflexivity).
        rewrite Hrect, Hin. simpl.
        destruct (Z.eqb_spec x k); destruct (Z.eqb_spec y j); simpl;
          try reflexivity; apply Huat; auto; lia. }
    destruct Hinner as (Hux & Huy & Huat). repeat split; try assumption.
    intros x y Hxr Hyr Hin. apply Huat; auto. lia.
Qed.

(* ------------------------------------------------------------------ *)
(** ** Reading one run *)

Lemma run_count_of_range (b : byte) : 1 <= run_count_of b <= 256.
Proof.
  unfold run_count_of. pose proof (byte_to_Z_range b).
  destruct (Z.eqb_spec (byte_to_Z b) 0); lia.
Qed.

Lemma read_run_nil (hasAlpha : bool) : read_run hasAlpha [] = RunBreak [].
Proof. reflexivity. Qed.

Lemma read_run_rgb (b cb cg cr : byte) (rest : Reader) :
  read_run false (b :: cb :: cg :: cr :: rest)
  = RunOk (run_count_of b) (mkRGBA cr cg cb xff) rest.
Proof. reflexivity. Qed.

Lemma read_run_alpha_zero (b : byte) (rest : Reader) :
  read_run true (b :: x00 :: rest)
  = RunOk (run_count_of b) (mkRGBA x00 x00 x00 x00) rest.
Proof. reflexivity. Qed.

Lemma read_run_alpha_rgb (b a cb cg cr : byte) (rest : Reader) :
  a <> x00 ->
  read_run true (b :: a :: cb :: cg :: cr :: rest)
  = RunOk (run_count_of b) (mkRGBA cr cg cb a) rest.
Proof.
  intros Ha. unfold read_run. simpl.
  destruct (Byte.eqb a x00) eqn:E; [apply byte_eqb_eq in E; contradiction|].
  reflexivity.
Qed.

Lemma read_run_count_range (hasAlpha : bool) (input : Reader) count c rest :
  read_run hasAlpha input = RunOk count c rest -> 1 <= count <= 256.
Proof.
  intros H. unfold read_run in H.
  split_stream input; destruct hasAlpha; simpl in H;
    repeat match type of H with
           | context [Byte.eqb ?a ?b] => destruct (Byte.eqb a b); simpl in H
           end;
    try discriminate; injection H as <- _ _; apply run_count_of_range.
Qed.

(** The only error a read of the body produces on such a reader is the
    unexpected end of the stream inside a colour triple. *)
Lemma read_run_error (hasAlpha : bool) (input : Reader) e rest :
  read_run hasAlpha input = RunError e rest -> e = ErrUnexpectedEOF.
Proof.
  intros H. unfold read_run in H.
  split_stream input; destruct hasAlpha; simpl in H;
    repeat match type of H with
           | context [Byte.eqb ?a ?b] => destruct (Byte.eqb a b); simpl in H
           end;
    try discriminate; injection H as <- _; reflexivity.
Qed.

(** Where the stream may end inside a run. After the count byte, before the
    alpha byte or before the first colour byte: the loop is left as at the
    end of the stream. After one or two of the three colour bytes: the
    error [io.ErrUnexpectedEOF]. *)
Lemma read_run_truncated (b a c1 c2 : byte) :
  a <> x00 ->
  read_run false [b] = RunBreak []
  /\ read_run false [b; c1] = RunError ErrUnexpectedEOF []
  /\ read_run false [b; c1; c2] = RunError ErrUnexpectedEOF []
  /\ read_run true [b] = RunBreak []
  /\ read_run true [b; a] = RunBreak []
  /\ read_run true [b; a; c1] = RunError ErrUnexpectedEOF []
  /\ read_run true [b; a; c1; c2] = RunError ErrUnexpectedEOF [].
Proof.
  intros Ha.
  assert (E : Byte.eqb a x00 = false).
  { destruct (Byte.eqb a x00) eqn:E; [|reflexivity].
    apply byte_eqb_eq in E. contradiction. }
  unfold read_run. simpl. rewrite E. simpl. repeat split.
Qed.

Lemma clamp_count_range (width height i count : Z) :
  i < int32 (width * height) -> 1 <= count ->
  1 <= clamp_count width height i count <= int32 (width * height) - i
  /\ clamp_count width height i count <= count.
Proof.
  intros Hi Hc. unfold clamp_count.
  destruct (Z.gtb_spec count (int32 (width * height) - i)); lia.
Qed.

(* ------------------------------------------------------------------ *)
(** ** The decoding loop *)

(** Fuel: the pixels still to cover bound the iterations still to run. *)
Lemma DataToPng_loop_total (width height : Z) (hasAlpha : bool) :
  forall (fuel : nat) (i : Z) (img : RGBAImage) (input : Reader),
  int32 (width * height) - i <= Z.of_nat fuel ->
  exists r, DataToPng_loop fuel width height hasAlpha i img input = Some r.
Proof.
  induction fuel as [|fuel IH]; intros i img input Hfuel.
  - simpl. destruct (Z.ltb_spec i (int32 (width * height))); [lia|]. eauto.
  - simpl. destruct (Z.ltb_spec i (int32 (width * height))) as [Hlt|]; [|eauto].
    destruct (read_run hasAlpha input) as [r|e r|count c r] eqn:E; eauto.
    apply read_run_count_range in E.
    pose proof (clamp_count_range width height i count Hlt ltac:(lia)).
    apply IH. lia.
Qed.

(** More fuel does not change a result. *)
Lemma DataToPng_loop_fuel (width height : Z) (hasAlpha : bool) :
  forall (fuel : nat) (i : Z) (img : RGBAImage) (input : Reader) r,
  DataToPng_loop fuel width height hasAlpha i img input = Some r ->
  forall fuel', (fuel <= fuel')%nat ->
  DataToPng_loop fuel' width height hasAlpha i img input = Some r.
Proof.
  induction fuel as [|fuel IH]; intros i img input r H fuel' Hle.
  - simpl in H. destruct (i <? int32 (width * height)) eqn:E; [discriminate|].
    destruct fuel'; simpl; rewrite E; exact H.
  - destruct fuel' as [|fuel']; [lia|].
    simpl in H |- *. destruct (i <? int32 (width * height)); [|exact H].
    destruct (read_run hasAlpha input); try exact H.
    apply IH with (fuel' := fuel') in H; [exact H | lia].
Qed.

Lemma DataToPng_loop_step (width height : Z) (hasAlpha : bool) (fuel : nat)
    (i : Z) (img : RGBAImage) (input input' : Reader) (count : Z) (c : RGBA) :
  i < int32 (width * height) ->
  read_run hasAlpha input = RunOk count c input' ->
  DataToPng_loop (S fuel) width height hasAlpha i img input
  = DataToPng_loop fuel width height hasAlpha
      (i + clamp_count width height i count)
      (paint_run width i (clamp_count width height i count) c img) input'.
Proof.
  intros Hlt Hrd. simpl.
  destruct (Z.ltb_spec i (int32 (width * height))); [|lia].
  rewrite Hrd. reflexivity.
Qed.

Lemma DataToPng_loop_done (width height : Z) (hasAlpha : bool) (fuel : nat)
    (i : Z) (img : RGBAImage) (input : Reader) :
  int32 (width * height) <= i ->
  DataToPng_loop fuel width height hasAlpha i img input
  = Some (LoopDone i img input).
Proof.
  intros Hge. destruct fuel; simpl;
    destruct (Z.ltb_spec i (int32 (width * height))); try lia; reflexivity.
Qed.

(** What a run of the loop leaves alone: the cursor only grows, the
    rectangle stays, and a pixel below the first cursor or from the last
    cursor on keeps its colour. *)
Lemma DataToPng_loop_frame (width height : Z) (hasAlpha : bool) :
  0 < width ->
  forall (fuel : nat) (i : Z) (img : RGBAImage) (input : Reader) i' img' rest,
  0 <= i -> Rect_Dx img = width ->
  DataToPng_loop fuel width height hasAlpha i img input
    = Some (LoopDone i' img' rest) ->
  i <= i' /\ Rect_Dx img' = width /\ Rect_Dy img' = Rect_Dy img /\
  forall x y,
    pixel_index width x y < i \/ i' <= pixel_index width x y ->
    RGBAAt img' x y = RGBAAt img x y.
Proof.
  intros Hw. induction fuel as [|fuel IH]; intros i img input i' img' rest Hi Hdx H.
  - simpl in H. destruct (i <? int32 (width * height)); [discriminate|].
    injection H as <- <- _. repeat split; auto; lia.
  - simpl in H. destruct (Z.ltb_spec i (int32 (width * height))) as [Hlt|].
    2:{ injection H as <- <- _. repeat split; auto; lia. }
    destruct (read_run hasAlpha input) as [r|e r|count c r] eqn:E.
    + injection H as <- <- _. repeat split; auto; lia.
    + discriminate.
    + apply read_run_count_range in E.
      pose proof (clamp_count_range width height i count Hlt ltac:(lia)) as Hcl.
      destruct (paint_run_spec width i (clamp_count width height i count) c img
                  Hw Hi Hdx) as (Px & Py & Pat).
      apply IH in H; [|lia|congruence].
      destruct H as (Hle & Hx' & Hy' & Hat').
      repeat split; try congruence; try lia.
      intros x y Hxy. rewrite Hat' by lia. rewrite Pat.
      destruct (in_rect img x y); simpl; [|reflexivity].
      destruct (Z.leb_spec i (pixel_index width x y)); simpl; [|reflexivity].
      destruct (Z.ltb_spec (pixel_index width x y)
                  (i + clamp_count width height i count)); [lia|reflexivity].
Qed.

Lemma DataToPng_loop_error (width height : Z) (hasAlpha : bool) :
  forall (fuel : nat) (i : Z) (img : RGBAImage) (input : Reader) e rest,
  DataToPng_loop fuel width height hasAlpha i img input = Some (LoopReturn e rest) ->
  e = ErrUnexpectedEOF.
Proof.
  induction fuel as [|fuel IH]; intros i img input e rest H; simpl in H;
    destruct (i <? int32 (width * height)); try discriminate.
  destruct (read_run hasAlpha input) as [r|e' r|count c r] eqn:E.
  - discriminate.
  - injection H as <- _. eapply read_run_error; eauto.
  - eapply IH; eauto.
Qed.

Lemma DataToPng_loop_cursor_bound (width height : Z) (hasAlpha : bool) :
  forall (fuel : nat) (i : Z) (img : RGBAImage) (input : Reader) i' img' rest,
  i <= int32 (width * height) ->
  DataToPng_loop fuel width height hasAlpha i img input
    = Some (LoopDone i' img' rest) ->
  i' <= int32 (width * height).
Proof.
  induction fuel as [|fuel IH]; intros i img input i' img' rest Hi H; simpl in H;
    destruct (Z.ltb_spec i (int32 (width * height))) as [Hlt|];
    try discriminate; try (injection H as <- _ _; lia).
  destruct (read_run hasAlpha input) as [r|e r|count c r] eqn:E.
  - injection H as <- _ _. lia.
  - discriminate.
  - apply read_run_count_range in E.
    pose proof (clamp_count_range width height i count Hlt ltac:(lia)).
    eapply IH; [|exact H]. lia.
Qed.

(** One iteration on a stream that holds a whole run, followed to the end
    of the loop: the span of the run has the colour of the run. *)
Lemma DataToPng_loop_run_painted (width height : Z) (hasAlpha : bool)
    (fuel : nat) (i : Z) (img : RGBAImage) (input input1 : Reader)
    (count : Z) (c : RGBA) i' img' rest :
  valid_dims width height -> 0 <= i < width * height ->
  Rect_Dx img = width -> Rect_Dy img = height ->
  read_run hasAlpha input = RunOk count c input1 ->
  DataToPng_loop fuel width height hasAlpha i img input
    = Some (LoopDone i' img' rest) ->
  forall k, i <= k < i + clamp_count width height i count ->
    RGBAAt img' (Z.rem k width) (Z.quot k width) = c.
Proof.
  intros Hv Hi Hx Hy Hrd H k Hk.
  pose proof (valid_dims_int32 _ _ Hv) as H32. destruct Hv as [Hw Hh].
  destruct fuel as [|fuel]; simpl in H;
    destruct (Z.ltb_spec i (int32 (width * height))); try discriminate; try lia.
  rewrite Hrd in H.
  pose proof (read_run_count_range _ _ _ _ _ Hrd) as Hc.
  pose proof (clamp_count_range width height i count ltac:(lia) ltac:(lia)) as Hcl.
  destruct (paint_run_spec width i (clamp_count width height i count) c img)
    as (Px & Py & Pat); [lia|lia|assumption|].
  apply DataToPng_loop_frame in H; [|lia|lia|congruence].
  destruct H as (_ & _ & _ & Hat).
  rewrite Hat by (rewrite pixel_index_coords by lia; lia).
  rewrite Pat, pixel_index_coords by lia.
  rewrite <- Hx at 1 2. rewrite coords_in_rect by (rewrite ?Hx, ?Hy; lia).
  destruct (Z.leb_spec i k); [|lia].
  destruct (Z.ltb_spec k (i + clamp_count width height i count)); [|lia].
  reflexivity.
Qed.

(** After a header with accepted dimensions the result is that of the loop
    over the body, started on the default canvas. *)
Lemma DataToPng_valid_header (w0 w1 w2 w3 h0 h1 h2 h3 f0 f1 f2 f3 : byte)
    (body : Reader) :
  let width := header_int w0 w1 w2 w3 in
  let height := header_int h0 h1 h2 h3 in
  let hasAlpha := negb (header_int f0 f1 f2 f3 =? 0) in
  valid_dims width height ->
  DataToPng ([w0; w1; w2; w3; h0; h1; h2; h3; f0; f1; f2; f3] ++ body)
  = match DataToPng_loop (Z.to_nat (int32 (width * height))) width height hasAlpha 0
            (init_canvas width height hasAlpha (NewRGBA width height)) body with
    | None => None
    | Some (LoopReturn e input) => Some (Failed e, input)
    | Some (LoopDone _ img input) => Some (Encoded img, input)
    end.
Proof.
  intros width height hasAlpha Hv.
  unfold DataToPng. simpl app.
  rewrite !binary_Read_int32_cons4.
  fold (header_int w0 w1 w2 w3). fold (header_int h0 h1 h2 h3).
  fold (header_int f0 f1 f2 f3). fold width. fold height.
  rewrite (valid_dims_check width height Hv). reflexivity.
Qed.

(** The same for the header as the encoder writes it. *)
Lemma DataToPng_header_bytes (width height : Z) (hasAlpha : bool) (body : Reader) :
  valid_dims width height ->
  DataToPng (header_bytes width height hasAlpha ++ body)
  = match DataToPng_loop (Z.to_nat (width * height)) width height hasAlpha 0
            (init_canvas width height hasAlpha (NewRGBA width height)) body with
    | None => None
    | Some (LoopReturn e input) => Some (Failed e, input)
    | Some (LoopDone _ img input) => Some (Encoded img, input)
    end.
Proof.
  intros Hv. pose proof (valid_dims_int32 _ _ Hv) as H32.
  pose proof (valid_dims_check _ _ Hv) as Hchk. destruct Hv as [Hw Hh].
  unfold DataToPng, header_bytes. rewrite <- !app_assoc.
  rewrite !int32_small by (change (2 ^ 31) with 2147483648; lia).
  rewrite binary_Read_int32_put by (change (2 ^ 31) with 2147483648; lia).
  rewrite binary_Read_int32_put by (change (2 ^ 31) with 2147483648; lia).
  rewrite binary_Read_int32_put
    by (change (2 ^ 31) with 2147483648; destruct hasAlpha; lia).
  rewrite Hchk, H32.
  replace (negb ((if hasAlpha then 1 else 0) =? 0)) with hasAlpha
    by (destruct hasAlpha; reflexivity).
  reflexivity.
Qed.

(** When the loop is left with the cursor at [i'], the canvas has its full
    size and every pixel from [i'] on still has the default colour. *)
Lemma DataToPng_loop_unreached (width height : Z) (hasAlpha : bool)
    (fuel : nat) (body : Reader) i' img' rest :
  valid_dims width height ->
  DataToPng_loop fuel width height hasAlpha 0
    (init_canvas width height hasAlpha (NewRGBA width height)) body
    = Some (LoopDone i' img' rest) ->
  Rect_Dx img' = width /\ Rect_Dy img' = height /\ 0 <= i' <= width * height /\
  forall x y, 0 <= x < width -> 0 <= y < height ->
    i' <= pixel_index width x y -> RGBAAt img' x y = default_pixel hasAlpha.
Proof.
  intros Hv H.
  destruct (init_canvas_spec width height hasAlpha (NewRGBA width height))
    as (Ix & Iy & Iat).
  simpl in Ix, Iy.
  assert (H0 : 0 <= int32 (width * height))
    by (rewrite valid_dims_int32 by assumption; destruct Hv; nia).
  pose proof (DataToPng_loop_cursor_bound _ _ _ _ _ _ _ _ _ _ H0 H) as Hb.
  rewrite valid_dims_int32 in Hb by assumption.
  destruct Hv as [Hw Hh].
  apply DataToPng_loop_frame in H; [|lia|lia|exact Ix].
  destruct H as (Hle & Hx & Hy & Hat).
  repeat split; try congruence; try lia.
  intros x y Hxr Hyr Hidx. rewrite Hat by lia.
  apply Iat; try assumption.
  unfold in_rect. simpl.
  destruct (Z.leb_spec 0 x); [|lia]. destruct (Z.ltb_spec x width); [|lia].
  destruct (Z.leb_spec 0 y); [|lia]. destruct (Z.ltb_spec y height); [|lia].
  reflexivity.
Qed.

(** After a header with accepted dimensions there are two outcomes: the
    unexpected end of the stream inside a colour triple, or a canvas of the
    full size on which every pixel from the last cursor on has the default
    colour. *)
Lemma DataToPng_body_outcome (w0 w1 w2 w3 h0 h1 h2 h3 f0 f1 f2 f3 : byte)
    (body : Reader) :
  let width := header_int w0 w1 w2 w3 in
  let height := header_int h0 h1 h2 h3 in
  let hasAlpha := negb (header_int f0 f1 f2 f3 =? 0) in
  let input := [w0; w1; w2; w3; h0; h1; h2; h3; f0; f1; f2; f3] ++ body in
  valid_dims width height ->
  (exists rest, DataToPng input = Some (Failed ErrUnexpectedEOF, rest))
  \/
  (exists i' img rest,
     DataToPng_loop (Z.to_nat (int32 (width * height))) width height hasAlpha 0
       (init_canvas width height hasAlpha (NewRGBA width height)) body
       = Some (LoopDone i' img rest)
     /\ DataToPng input = Some (Encoded img, rest)
     /\ Rect_Dx img = width /\ Rect_Dy img = height
     /\ 0 <= i' <= width * height
     /\ forall x y, 0 <= x < width -> 0 <= y < height ->
          i' <= pixel_index width x y ->
          RGBAAt img x y = default_pixel hasAlpha).
Proof.
  intros width height hasAlpha input Hv. unfold input.
  rewrite (DataToPng_valid_header w0 w1 w2 w3 h0 h1 h2 h3 f0 f1 f2 f3 body Hv).
  fold width. fold height. fold hasAlpha.
  destruct (DataToPng_loop_total width height hasAlpha
              (Z.to_nat (int32 (width * height))) 0
              (init_canvas width height hasAlpha (NewRGBA width height)) body)
    as [r Hr].
  { pose proof (int32_range (width * height)). lia. }
  rewrite Hr. destruct r as [e rest|i' img rest].
  - left. exists rest. apply DataToPng_loop_error in Hr. subst e. reflexivity.
  - right. exists i', img, rest.
    destruct (DataToPng_loop_unreached _ _ _ _ _ _ _ _ Hv Hr) as (Hx & Hy & Hi & Hat).
    repeat split; try assumption; lia.
Qed.

(* ------------------------------------------------------------------ *)
(** ** The check of the dimensions *)

(** C4. A header whose width or height is at most 0 or above 8192 makes the
    decoder fail with the invalid-dimensions error, the reader standing at
    the first byte of the body (no byte of it was read); a header with both
    dimensions in 1..8192 never produces that error. *)
Theorem DataToPng_dimension_check (w0 w1 w2 w3 h0 h1 h2 h3 f0 f1 f2 f3 : byte)
    (body : Reader) :
  let width := header_int w0 w1 w2 w3 in
  let height := header_int h0 h1 h2 h3 in
  let input := [w0; w1; w2; w3; h0; h1; h2; h3; f0; f1; f2; f3] ++ body in
  ((width <= 0 \/ height <= 0 \/ 8192 < width \/ 8192 < height) ->
     DataToPng input = Some (Failed ErrInvalidDimensions, body))
  /\
  ((1 <= width <= 8192 /\ 1 <= height <= 8192) ->
     exists res rest, DataToPng input = Some (res, rest)
                      /\ res <> Failed ErrInvalidDimensions).
Proof.
  intros width height input. split.
  - intros Hbad. unfold input, DataToPng. simpl app.
    rewrite !binary_Read_int32_cons4.
    fold (header_int w0 w1 w2 w3). fold (header_int h0 h1 h2 h3).
    fold width. fold height.
    assert (E : (width <=? 0) || (height <=? 0) || (width >? 8192) || (height >? 8192) = true).
    { destruct (Z.leb_spec width 0); [reflexivity|].
      destruct (Z.leb_spec height 0); [reflexivity|].
      destruct (Z.gtb_spec width 8192); [reflexivity|].
      destruct (Z.gtb_spec height 8192); [reflexivity|]. lia. }
    rewrite E. reflexivity.
  - intros Hv. unfold input.
    rewrite (DataToPng_valid_header w0 w1 w2 w3 h0 h1 h2 h3 f0 f1 f2 f3 body Hv).
    fold width. fold height.
    set (hasAlpha := negb (header_int f0 f1 f2 f3 =? 0)).
    destruct (DataToPng_loop_total width height hasAlpha
                (Z.to_nat (int32 (width * height))) 0
                (init_canvas width height hasAlpha (NewRGBA width height)) body)
      as [r Hr].
    { pose proof (int32_range (width * height)). lia. }
    rewrite Hr. destruct r as [e rest|i img rest].
    + exists (Failed e), rest. split; [reflexivity|].
      apply DataToPng_loop_error in Hr. subst e. discriminate.
    + exists (Encoded img), rest. split; [reflexivity|discriminate].
Qed.

(** The dimension values the specification singles out: 0, -1, 8193 and
    100000 as the width, each time before a body that is left unread. *)
Lemma DataToPng_dimension_check_witness :
  DataToPng ([x00; x00; x00; x00; x01; x00; x00; x00; x00; x00; x00; x00] ++ [x05; x06])
    = Some (Failed ErrInvalidDimensions, [x05; x06])
  /\ DataToPng ([xff; xff; xff; xff; x01; x00; x00; x00; x00; x00; x00; x00] ++ [x05; x06])
    = Some (Failed ErrInvalidDimensions, [x05; x06])
  /\ DataToPng ([x01; x20; x00; x00; x01; x00; x00; x00; x00; x00; x00; x00] ++ [x05; x06])
    = Some (Failed ErrInvalidDimensions, [x05; x06])
  /\ DataToPng ([xa0; x86; x01; x00; x01; x00; x00; x00; x00; x00; x00; x00] ++ [x05; x06])
    = Some (Failed ErrInvalidDimensions, [x05; x06])
  /\ exists res rest,
       DataToPng ([x02; x00; x00; x00; x01; x00; x00; x00; x00; x00; x00; x00] ++ [x05; x06])
         = Some (res, rest)
       /\ res <> Failed ErrInvalidDimensions.
Proof.
  split; [|split; [|split; [|split]]].
  - apply (proj1 (DataToPng_dimension_check x00 x00 x00 x00 x01 x00 x00 x00
                    x00 x00 x00 x00 [x05; x06])).
    left. vm_compute. discriminate.
  - apply (proj1 (DataToPng_dimension_check xff xff xff xff x01 x00 x00 x00
                    x00 x00 x00 x00 [x05; x06])).
    left. vm_compute. discriminate.
  - apply (proj1 (DataToPng_dimension_check x01 x20 x00 x00 x01 x00 x00 x00
                    x00 x00 x00 x00 [x05; x06])).
    right; right; left. vm_compute. reflexivity.
  - apply (proj1 (DataToPng_dimension_check xa0 x86 x01 x00 x01 x00 x00 x00
                    x00 x00 x00 x00 [x05; x06])).
    right; right; left. vm_compute. reflexivity.
  - apply (proj2 (DataToPng_dimension_check x02 x00 x00 x00 x01 x00 x00 x00
                    x00 x00 x00 x00 [x05; x06])).
    vm_compute. repeat split; discriminate.
Defined.

(* ------------------------------------------------------------------ *)
(** ** The end of the stream inside a run *)

(** C1. The stream of a 1x1 image without alpha whose only run stops after
    one colour byte, or after two; and that of a 1x1 image with alpha whose
    run stops after the alpha byte and one colour byte. In each the count
    byte was read, the colour bytes are cut short by the end of the stream,
    and the decoder returns [io.ErrUnexpectedEOF] instead of the partial
    image: [io.ReadFull] reports [io.EOF] only when it read nothing, and the
    loop lets only [io.EOF] through. *)
Theorem DataToPng_partial_colour_fails :
  DataToPng (header_bytes 1 1 false ++ [x01; xaa])
    = Some (Failed ErrUnexpectedEOF, [])
  /\ DataToPng (header_bytes 1 1 false ++ [x01; xaa; xbb])
    = Some (Failed ErrUnexpectedEOF, [])
  /\ DataToPng (header_bytes 1 1 true ++ [x01; xff; xaa])
    = Some (Failed ErrUnexpectedEOF, []).
Proof. repeat split; vm_compute; reflexivity. Qed.

(** C7. A valid header of a 2x2 image without alpha, one whole run that
    covers the first pixel, then a run cut after its first colour byte: the
    body ends with three pixels not covered, and the decoder returns
    [io.ErrUnexpectedEOF], no image at all. *)
Theorem DataToPng_truncated_body_fails :
  DataToPng (header_bytes 2 2 false ++ [x01; x0a; x0b; x0c] ++ [x03; xaa])
    = Some (Failed ErrUnexpectedEOF, []).
Proof. vm_compute. reflexivity. Qed.

Lemma DataToPng_loop_break (width height : Z) (hasAlpha : bool) (fuel : nat)
    (i : Z) (img : RGBAImage) (input rest : Reader) :
  i < int32 (width * height) ->
  read_run hasAlpha input = RunBreak rest ->
  DataToPng_loop (S fuel) width height hasAlpha i img input
  = Some (LoopDone i img rest).
Proof.
  intros Hlt Hrd. simpl.
  destruct (Z.ltb_spec i (int32 (width * height))); [|lia].
  rewrite Hrd. reflexivity.
Qed.

Lemma DataToPng_loop_return (width height : Z) (hasAlpha : bool) (fuel : nat)
    (i : Z) (img : RGBAImage) (input rest : Reader) (e : error) :
  i < int32 (width * height) ->
  read_run hasAlpha input = RunError e rest ->
  DataToPng_loop (S fuel) width height hasAlpha i img input
  = Some (LoopReturn e rest).
Proof.
  intros Hlt Hrd. simpl.
  destruct (Z.ltb_spec i (int32 (width * height))); [|lia].
  rewrite Hrd. reflexivity.
Qed.

(** A body that is one run cut short, after any accepted header. When it
    stops after the count byte, or after the alpha byte, the default canvas
    is returned without error; when it stops after one or two of the three
    colour bytes, the decoder returns [io.ErrUnexpectedEOF]. *)
Lemma DataToPng_first_run_truncated (width height : Z) (hasAlpha : bool)
    (b a c1 c2 : byte) :
  valid_dims width height -> a <> x00 ->
  let canvas := init_canvas width height hasAlpha (NewRGBA width height) in
  DataToPng (header_bytes width height hasAlpha ++ [b])
    = Some (Encoded canvas, [])
  /\ DataToPng (header_bytes width height true ++ [b; a])
     = Some (Encoded (init_canvas width height true (NewRGBA width height)), [])
  /\ DataToPng (header_bytes width height false ++ [b; c1])
     = Some (Failed ErrUnexpectedEOF, [])
  /\ DataToPng (header_bytes width height false ++ [b; c1; c2])
     = Some (Failed ErrUnexpectedEOF, [])
  /\ DataToPng (header_bytes width height true ++ [b; a; c1])
     = Some (Failed ErrUnexpectedEOF, [])
  /\ DataToPng (header_bytes width height true ++ [b; a; c1; c2])
     = Some (Failed ErrUnexpectedEOF, []).
Proof.
  intros Hv Ha canvas.
  pose proof (valid_dims_int32 _ _ Hv) as H32.
  destruct (read_run_truncated b a c1 c2 Ha)
    as (R1 & R2 & R3 & R4 & R5 & R6 & R7).
  assert (Hfuel : exists fuel, Z.to_nat (width * height) = S fuel).
  { destruct Hv as [Hw Hh]. exists (Z.to_nat (width * height - 1)). nia. }
  destruct Hfuel as [fuel Hfuel].
  assert (Hlt : 0 < int32 (width * height))
    by (rewrite H32; destruct Hv; nia).
  rewrite !DataToPng_header_bytes by assumption. rewrite Hfuel.
  repeat split.
  - destruct hasAlpha.
    + rewrite (DataToPng_loop_break _ _ _ _ _ _ _ [] Hlt R4). reflexivity.
    + rewrite (DataToPng_loop_break _ _ _ _ _ _ _ [] Hlt R1). reflexivity.
  - rewrite (DataToPng_loop_break _ _ _ _ _ _ _ [] Hlt R5). reflexivity.
  - rewrite (DataToPng_loop_return _ _ _ _ _ _ _ [] _ Hlt R2). reflexivity.
  - rewrite (DataToPng_loop_return _ _ _ _ _ _ _ [] _ Hlt R3). reflexivity.
  - rewrite (DataToPng_loop_return _ _ _ _ _ _ _ [] _ Hlt R6). reflexivity.
  - rewrite (DataToPng_loop_return _ _ _ _ _ _ _ [] _ Hlt R7). reflexivity.
Qed.

(* ------------------------------------------------------------------ *)
(** ** Writes stay on the canvas *)

Lemma loop_state_inv (width height : Z) (hasAlpha : bool) (body : Reader)
    i img input :
  valid_dims width height ->
  loop_state width height hasAlpha body i img input ->
  0 <= i <= width * height /\ Rect_Dx img = width /\ Rect_Dy img = height.
Proof.
  intros Hv Hs. pose proof (valid_dims_int32 width height Hv) as H32.
  induction Hs as [|i img input count c input' Hs IH Hlt Hrd].
  - destruct (init_canvas_spec width height hasAlpha (NewRGBA width height))
      as (Ix & Iy & _).
    simpl in Ix, Iy. destruct Hv. repeat split; try assumption; nia.
  - destruct IH as (Hi & Hx & Hy).
    apply read_run_count_range in Hrd.
    pose proof (clamp_count_range width height i count Hlt ltac:(lia)) as Hcl.
    destruct (paint_run_spec width i (clamp_count width height i count) c img)
      as (Px & Py & _); [destruct Hv; lia | lia | assumption |].
    repeat split; try congruence; lia.
Qed.

(** The loop, run from one of these states, ends in one of them. *)
Lemma DataToPng_loop_state (width height : Z) (hasAlpha : bool) (body : Reader) :
  forall (fuel : nat) i img input i' img' rest,
  loop_state width height hasAlpha body i img input ->
  DataToPng_loop fuel width height hasAlpha i img input
    = Some (LoopDone i' img' rest) ->
  exists input', loop_state width height hasAlpha body i' img' input'.
Proof.
  induction fuel as [|fuel IH]; intros i img input i' img' rest Hs H; simpl in H;
    destruct (Z.ltb_spec i (int32 (width * height))) as [Hlt|];
    try discriminate; try (injection H as <- <- _; eauto).
  destruct (read_run hasAlpha input) as [r|e r|count c r] eqn:E.
  - injection H as <- <- _. eauto.
  - discriminate.
  - eapply IH; [|exact H]. eapply loop_next; eauto.
Qed.

(** C9. In every state the decoding loop reaches, the cursor lies within
    [0, width*height]; and for the run an iteration reads there, cut to the
    pixels left, the cursor after the run does not pass [width*height],
    every painted index [i + j] has coordinates inside the canvas,
    [0 <= x < width] and [0 <= y < height], and so has every point the
    painting loop passes to [SetRGBA]: no write is dropped as out of
    bounds. *)
Theorem DataToPng_writes_in_bounds (width height : Z) (hasAlpha : bool)
    (body : Reader) (i : Z) (img : RGBAImage) (input : Reader) :
  valid_dims width height ->
  loop_state width height hasAlpha body i img input ->
  0 <= i <= width * height /\
  forall count c input',
    i < int32 (width * height) ->
    read_run hasAlpha input = RunOk count c input' ->
    let n := clamp_count width height i count in
    i + n <= width * height /\
    (forall j, 0 <= j < n ->
       0 <= Z.rem (i + j) width < width /\ 0 <= Z.quot (i + j) width < height) /\
    (forall x y, In (x, y) (run_coords width i n) ->
       0 <= x < width /\ 0 <= y < height /\ in_rect img x y = true).
Proof.
  intros Hv Hs.
  destruct (loop_state_inv _ _ _ _ _ _ _ Hv Hs) as (Hi & Hx & Hy).
  split; [exact Hi|].
  intros count c input' Hlt Hrd n.
  apply read_run_count_range in Hrd.
  pose proof (clamp_count_range width height i count Hlt ltac:(lia)) as Hcl.
  fold n in Hcl. rewrite (valid_dims_int32 _ _ Hv) in Hcl.
  destruct Hv as [Hw Hh].
  assert (Hcoord : forall j, 0 <= j < n ->
            0 <= Z.rem (i + j) width < width /\ 0 <= Z.quot (i + j) width < height).
  { intros j Hj.
    rewrite Z.rem_mod_nonneg, Z.quot_div_nonneg by lia. split.
    - apply Z.mod_pos_bound. lia.
    - split; [apply Z.div_pos; lia | apply Z.div_lt_upper_bound; nia]. }
  split; [lia|]. split; [exact Hcoord|].
  intros x y Hin. unfold run_coords in Hin. apply in_map_iff in Hin.
  destruct Hin as (k & Hk & Hseq). apply in_seq in Hseq.
  injection Hk as <- <-.
  destruct (Hcoord (Z.of_nat k) ltac:(lia)) as [Hxr Hyr].
  repeat split; try lia.
  unfold in_rect. rewrite Hx, Hy.
  destruct (Z.leb_spec 0 (Z.rem (i + Z.of_nat k) width)); [|lia].
  destruct (Z.ltb_spec (Z.rem (i + Z.of_nat k) width) width); [|lia].
  destruct (Z.leb_spec 0 (Z.quot (i + Z.of_nat k) width)); [|lia].
  destruct (Z.ltb_spec (Z.quot (i + Z.of_nat k) width) height); [|lia].
  reflexivity.
Qed.

Lemma DataToPng_writes_in_bounds_witness :
  0 <= 0 <= 2 * 1 /\
  forall count c input',
    0 < int32 (2 * 1) ->
    read_run false [x03; x0a; x0b; x0c] = RunOk count c input' ->
    let n := clamp_count 2 1 0 count in
    0 + n <= 2 * 1 /\
    (forall j, 0 <= j < n ->
       0 <= Z.rem (0 + j) 2 < 2 /\ 0 <= Z.quot (0 + j) 2 < 1) /\
    (forall x y, In (x, y) (run_coords 2 0 n) ->
       0 <= x < 2 /\ 0 <= y < 1
       /\ in_rect (init_canvas 2 1 false (NewRGBA 2 1)) x y = true).
Proof.
  apply (DataToPng_writes_in_bounds 2 1 false [x03; x0a; x0b; x0c]).
  - unfold valid_dims. lia.
  - apply loop_start.
Defined.

(* ------------------------------------------------------------------ *)
(** ** Runs of transparent pixels *)

(** C6. In alpha mode a run whose alpha byte is 0 is written as two bytes,
    the count byte and the alpha byte, with no colour bytes; and the decoder,
    meeting a count byte followed by an alpha byte 0, takes exactly these two
    bytes for the run and leaves every pixel of its span (the count, cut to
    the pixels left) with the colour (0,0,0,0) in the canvas it ends with. *)
Theorem alpha_zero_run_two_bytes (r : Run) (b : byte) (input : Reader)
    (width height i : Z) (img : RGBAImage) (fuel : nat) i' img' rest :
  cA (run_px r) = x00 ->
  valid_dims width height -> 0 <= i < width * height ->
  Rect_Dx img = width -> Rect_Dy img = height ->
  DataToPng_loop fuel width height true i img (b :: x00 :: input)
    = Some (LoopDone i' img' rest) ->
  run_bytes true r = [count_byte (run_count r); x00]
  /\ read_run true (b :: x00 :: input)
     = RunOk (run_count_of b) (mkRGBA x00 x00 x00 x00) input
  /\ forall k, i <= k < i + clamp_count width height i (run_count_of b) ->
       RGBAAt img' (Z.rem k width) (Z.quot k width) = mkRGBA x00 x00 x00 x00.
Proof.
  intros Ha Hv Hi Hx Hy H. split; [|split].
  - unfold run_bytes, pixel_bytes. rewrite Ha. reflexivity.
  - apply read_run_alpha_zero.
  - eapply DataToPng_loop_run_painted; eauto. apply read_run_alpha_zero.
Qed.

Lemma alpha_zero_run_two_bytes_witness :
  run_bytes true (mkRun 0 3 (mkRGBA x07 x08 x09 x00)) = [count_byte 3; x00]
  /\ read_run true (x03 :: x00 :: [x01; xff; x0a; x0b; x0c])
     = RunOk (run_count_of x03) (mkRGBA x00 x00 x00 x00) [x01; xff; x0a; x0b; x0c]
  /\ forall k, 0 <= k < 0 + clamp_count 2 2 0 (run_count_of x03) ->
       RGBAAt
         (paint_run 2 3 1 (mkRGBA x0c x0b x0a xff)
            (paint_run 2 0 3 (mkRGBA x00 x00 x00 x00) (NewRGBA 2 2)))
         (Z.rem k 2) (Z.quot k 2)
       = mkRGBA x00 x00 x00 x00.
Proof.
  apply (alpha_zero_run_two_bytes (mkRun 0 3 (mkRGBA x07 x08 x09 x00)) x03
           [x01; xff; x0a; x0b; x0c] 2 2 0 (NewRGBA 2 2) 4%nat 4 _ []).
  - reflexivity.
  - unfold valid_dims. lia.
  - lia.
  - reflexivity.
  - reflexivity.
  - reflexivity.
Defined.

(* ------------------------------------------------------------------ *)
(** ** The encoding loop *)

Lemma run_length_total (img : Image) (width height i : Z) (px : RGBA) :
  forall (fuel : nat) (count : Z),
  1 <= count <= 255 -> 256 - count <= Z.of_nat fuel ->
  exists c, run_length fuel img width height i px count = Some c.
Proof.
  induction fuel as [|fuel IH]; intros count Hc Hfuel; [lia|].
  simpl. destruct (i + count >=? width * height); [eauto|].
  destruct (negb (RGBA_eqb px _)); [eauto|].
  destruct (Z.geb_spec (count + 1) 256); [eauto|].
  apply IH; lia.
Qed.

(** What the look-ahead returns: a length of 1 to 256 that stays on the
    image, over pixels all equal to the first, and that cannot be
    extended. *)
Lemma run_length_spec (img : Image) (width height i : Z) (px : RGBA) :
  forall (fuel : nat) (count c : Z),
  1 <= count <= 255 -> i + count <= width * height ->
  run_length fuel img width height i px count = Some c ->
  count <= c <= 256 /\ i + c <= width * height /\
  (forall k, count <= k < c -> pixel_at img width (i + k) = px) /\
  (c = 256 \/ i + c = width * height \/ pixel_at img width (i + c) <> px).
Proof.
  induction fuel as [|fuel IH]; intros count c Hc Hfit H; [discriminate|].
  simpl in H.
  destruct (Z.geb_spec (i + count) (width * height)) as [Hge|Hlt].
  { injection H as <-. repeat split; intros; lia. }
  fold (pixel_at img width (i + count)) in H.
  destruct (RGBA_eqb px (pixel_at img width (i + count))) eqn:E; simpl in H.
  2:{ injection H as <-. repeat split; intros; try lia.
      right; right. intros Heq. rewrite Heq in E.
      assert (RGBA_eqb px px = true) by (apply RGBA_eqb_eq; reflexivity).
      congruence. }
  apply RGBA_eqb_eq in E.
  destruct (Z.geb_spec (count + 1) 256) as [H256|H256].
  { injection H as <-. repeat split; try lia.
    intros k Hk. replace k with count by lia. auto. }
  apply IH in H; [|lia|lia].
  destruct H as (Hr & Hf & Hall & Hmax). repeat split; try lia; [|exact Hmax].
  intros k Hk. destruct (Z.eq_dec k count) as [->|Hne]; [auto|].
  apply Hall. lia.
Qed.

Lemma PngToData_runs_total (img : Image) (width height : Z) :
  forall (fuel : nat) (i : Z),
  width * height - i <= Z.of_nat fuel ->
  exists runs, PngToData_runs fuel img width height i = Some runs.
Proof.
  induction fuel as [|fuel IH]; intros i Hfuel.
  - simpl. destruct (Z.ltb_spec i (width * height)); [lia|eauto].
  - cbn [PngToData_runs]. destruct (Z.ltb_spec i (width * height)) as [Hlt|]; [|eauto].
    destruct (run_length_total img width height i
                (getRGBA img (Z.rem i width) (Z.quot i width)) 256 1
                ltac:(lia) ltac:(lia)) as [c Hc].
    rewrite Hc.
    apply run_length_spec in Hc; [|lia|lia].
    destruct (IH (i + c) ltac:(lia)) as [rest Hrest].
    rewrite Hrest. eauto.
Qed.

Lemma PngToData_runs_step (img : Image) (width height : Z) (fuel : nat) (i : Z) :
  PngToData_runs (S fuel) img width height i
  = if i <? width * height then
      match run_length 256 img width height i (pixel_at img width i) 1 with
      | None => None
      | Some count =>
          match PngToData_runs fuel img width height (i + count) with
          | None => None
          | Some rest => Some (mkRun i count (pixel_at img width i) :: rest)
          end
      end
    else Some [].
Proof. reflexivity. Qed.

(** Taking the loop one run further. *)
Lemma PngToData_runs_inv (img : Image) (width height : Z) (fuel : nat)
    (i : Z) (runs : list Run) :
  i < width * height ->
  PngToData_runs fuel img width height i = Some runs ->
  exists fuel' count rest,
    fuel = S fuel'
    /\ run_length 256 img width height i (pixel_at img width i) 1 = Some count
    /\ PngToData_runs fuel' img width height (i + count) = Some rest
    /\ runs = mkRun i count (pixel_at img width i) :: rest.
Proof.
  intros Hlt H. destruct fuel as [|fuel].
  - simpl in H. destruct (Z.ltb_spec i (width * height)); [discriminate|lia].
  - rewrite PngToData_runs_step in H.
    destruct (Z.ltb_spec i (width * height)); [|lia].
    destruct (run_length 256 img width height i (pixel_at img width i) 1)
      as [count|] eqn:Hlen; [|discriminate].
    destruct (PngToData_runs fuel img width height (i + count)) as [rest|]
      eqn:Hrest; [|discriminate].
    injection H as <-. exists fuel, count, rest. repeat split; assumption.
Qed.


(** The stream is the header followed by the runs of the loop. *)
Lemma PngToData_shape (img : Image) :
  let width := MaxX (Bounds img) - MinX (Bounds img) in
  let height := MaxY (Bounds img) - MinY (Bounds img) in
  exists runs,
    PngToData_runs (Z.to_nat (width * height)) img width height 0 = Some runs
    /\ PngToData img
       = Some (header_bytes width height (hasAlphaChannel img)
               ++ flat_map (run_bytes (hasAlphaChannel img)) runs).
Proof.
  intros width height.
  destruct (PngToData_runs_total img width height
              (Z.to_nat (width * height)) 0 ltac:(lia)) as [runs Hr].
  exists runs. split; [exact Hr|].
  unfold PngToData. fold width. fold height. rewrite Hr. reflexivity.
Qed.

(* ------------------------------------------------------------------ *)
(** ** Termination *)

Lemma DataToPng_total (input : Reader) : exists res, DataToPng input = Some res.
Proof.
  unfold DataToPng.
  destruct (binary_Read_int32 input) as [[e|width] r1]; [eauto|].
  destruct (binary_Read_int32 r1) as [[e|height] r2]; [eauto|].
  destruct (binary_Read_int32 r2) as [[e|alphaFlag] r3]; [eauto|].
  destruct (_ || _); [eauto|].
  set (hasAlpha := negb (alphaFlag =? 0)).
  destruct (DataToPng_loop_total width height hasAlpha
              (Z.to_nat (int32 (width * height))) 0
              (init_canvas width height hasAlpha (NewRGBA width height)) r3
              ltac:(lia)) as [r Hr].
  rewrite Hr. destruct r; eauto.
Qed.

Lemma PngToData_total (img : Image) : exists bytes, PngToData img = Some bytes.
Proof.
  unfold PngToData.
  destruct (PngToData_runs_total img
              (MaxX (Bounds img) - MinX (Bounds img))
              (MaxY (Bounds img) - MinY (Bounds img))
              (Z.to_nat ((MaxX (Bounds img) - MinX (Bounds img))
                         * (MaxY (Bounds img) - MinY (Bounds img)))) 0
              ltac:(lia)) as [runs Hr].
  rewrite Hr. eauto.
Qed.

(** C10. Both loops terminate on every input. In the decoder an iteration
    that paints a run moves the cursor forward by at least one pixel and
    not past [width*height]: the count read is between 1 and 256 (a count
    byte 0 stands for 256), and cutting it to the pixels left keeps it at
    least 1 while pixels remain. In the encoder every run covers at least
    one pixel and stays on the image. So the fuel each function starts its
    loop with, the number of pixels, is never used up: both return a
    result. *)
Theorem codec_loops_terminate :
  (forall input, exists res, DataToPng input = Some res)
  /\ (forall img, exists bytes, PngToData img = Some bytes)
  /\ (forall width height hasAlpha i input count c input',
        i < int32 (width * height) ->
        read_run hasAlpha input = RunOk count c input' ->
        1 <= count <= 256
        /\ i < i + clamp_count width height i count <= int32 (width * height))
  /\ (forall img width height i count,
        i < width * height ->
        run_length 256 img width height i (pixel_at img width i) 1 = Some count ->
        i < i + count <= width * height).
Proof.
  split; [exact DataToPng_total|].
  split; [exact PngToData_total|].
  split.
  - intros width height hasAlpha i input count c input' Hlt Hrd.
    apply read_run_count_range in Hrd.
    pose proof (clamp_count_range width height i count Hlt ltac:(lia)). lia.
  - intros img width height i count Hlt H.
    apply run_length_spec in H; lia.
Qed.

(* ------------------------------------------------------------------ *)
(** ** The alpha flag *)

Lemma any_loop_true (p : Z -> bool) :
  forall (n : nat) (lo : Z),
  any_loop n lo p = true <-> exists z, lo <= z < lo + Z.of_nat n /\ p z = true.
Proof.
  induction n as [|n IH]; intros lo; simpl any_loop.
  - split; [discriminate|]. intros (z & Hz & _). lia.
  - destruct (p lo) eqn:E.
    + split; [|reflexivity]. intros _. exists lo. split; [lia|exact E].
    + rewrite IH. split; intros (z & Hz & Hp).
      * exists z. split; [lia|exact Hp].
      * exists z. split; [|exact Hp].
        destruct (Z.eq_dec z lo) as [->|]; [congruence|lia].
Qed.

Lemma any_range_true (lo hi : Z) (p : Z -> bool) :
  any_range lo hi p = true <-> exists z, lo <= z < hi /\ p z = true.
Proof.
  unfold any_range. rewrite any_loop_true.
  split; intros (z & Hz & Hp); exists z; (split; [lia|exact Hp]).
Qed.

Lemma hasAlphaChannel_true (img : Image) :
  hasAlphaChannel img = true <-> exposes_alpha img /\ some_pixel_not_opaque img.
Proof.
  unfold hasAlphaChannel, exposes_alpha, some_pixel_not_opaque.
  assert (Hscan :
    any_range (MinY (Bounds img)) (MaxY (Bounds img)) (fun y =>
      any_range (MinX (Bounds img)) (MaxX (Bounds img)) (fun x =>
        a16 (At img x y) <? 65535)) = true
    <-> exists x y,
      MinX (Bounds img) <= x < MaxX (Bounds img) /\
      MinY (Bounds img) <= y < MaxY (Bounds img) /\
      a16 (At img x y) < 65535).
  { rewrite any_range_true. split.
    - intros (y & Hy & Hrow). apply any_range_true in Hrow.
      destruct Hrow as (x & Hx & Hp). apply Z.ltb_lt in Hp. eauto.
    - intros (x & y & Hx & Hy & Hp). exists y. split; [exact Hy|].
      apply any_range_true. exists x. split; [exact Hx|].
      apply Z.ltb_lt. exact Hp. }
  destruct (img_type img);
    try (rewrite Hscan; tauto);
    (split; [discriminate|]; intros [[H|H] _]; discriminate).
Qed.

Lemma alpha_flag_of_header (width height : Z) (hasAlpha : bool) (body : list byte) :
  alpha_flag_of (header_bytes width height hasAlpha ++ body)
  = if hasAlpha then 1 else 0.
Proof.
  unfold alpha_flag_of, header_bytes, header_int.
  unfold put_int32 at 1 2. cbn [app nth].
  destruct hasAlpha; reflexivity.
Qed.

(** C8 (as amended). The encoder writes a nonzero alpha flag exactly when
    the image is of one of the two types of the type switch, [*image.RGBA]
    or [*image.NRGBA], and some pixel within its bounds has an alpha below
    fully opaque (0xffff); so an image of such a type whose pixels are all
    opaque gets the flag 0, the mode without alpha. *)
Theorem PngToData_alpha_flag (img : Image) :
  exists data,
    PngToData img = Some data
    /\ (alpha_flag_of data <> 0
        <-> exposes_alpha img /\ some_pixel_not_opaque img)
    /\ ((exposes_alpha img /\
         forall x y,
           MinX (Bounds img) <= x < MaxX (Bounds img) ->
           MinY (Bounds img) <= y < MaxY (Bounds img) ->
           a16 (At img x y) >= 65535)
        -> alpha_flag_of data = 0).
Proof.
  destruct (PngToData_shape img) as (runs & _ & Hdata).
  eexists. split; [exact Hdata|].
  rewrite alpha_flag_of_header.
  pose proof (hasAlphaChannel_true img) as Hiff.
  destruct (hasAlphaChannel img).
  - split.
    + split; [intros _; apply Hiff; reflexivity | intros _; discriminate].
    + intros [_ Hall]. destruct Hiff as [Hiff _].
      destruct (Hiff eq_refl) as (_ & x & y & Hx & Hy & Ha).
      specialize (Hall x y Hx Hy). lia.
  - split; [|reflexivity].
    split; [intros H; exfalso; apply H; reflexivity|].
    intros H. apply Hiff in H. discriminate.
Qed.

(** C8, as stated, fails: [sample_nrgba64] is of a type that stores an alpha
    value for each pixel, its pixel is fully transparent, and the encoder
    writes the alpha flag 0. *)
Lemma alpha_flag_misses_nrgba64 :
  stores_alpha (img_type sample_nrgba64) = true
  /\ a16 (At sample_nrgba64 0 0) = 0
  /\ hasAlphaChannel sample_nrgba64 = false
  /\ exists data,
       PngToData sample_nrgba64 = Some data /\ alpha_flag_of data = 0.
Proof.
  split; [reflexivity|]. split; [reflexivity|]. split; [reflexivity|].
  eexists. split; [vm_compute; reflexivity|]. reflexivity.
Qed.

(* ------------------------------------------------------------------ *)
(** ** Where the encoder cuts its runs *)




(* ------------------------------------------------------------------ *)
(** ** Round trip *)

Lemma run_count_of_count_byte (c : Z) :
  1 <= c <= 256 -> run_count_of (count_byte c) = c.
Proof.
  intros Hc. unfold run_count_of, count_byte.
  destruct (Z.eqb_spec c 256) as [->|Hne]; [reflexivity|].
  rewrite byte_to_Z_uint8, Z.mod_small by lia.
  destruct (Z.eqb_spec c 0); [lia|reflexivity].
Qed.

(** The decoder reads back a run the encoder wrote. *)
Lemma read_run_run_bytes (hasAlpha : bool) (r : Run) (rest : Reader) :
  1 <= run_count r <= 256 ->
  read_run hasAlpha (run_bytes hasAlpha r ++ rest)
  = RunOk (run_count r) (wire_pixel hasAlpha (run_px r)) rest.
Proof.
  intros Hc. unfold run_bytes, pixel_bytes, wire_pixel.
  destruct r as [s c [pr pg pb pa]]. simpl run_count in *. simpl run_px.
  simpl cA. simpl cR. simpl cG. simpl cB.
  destruct hasAlpha.
  - destruct (Byte.eqb pa x00) eqn:E; simpl negb; cbv iota; simpl app.
    + apply byte_eqb_eq in E. subst pa.
      rewrite read_run_alpha_zero, run_count_of_count_byte by assumption.
      reflexivity.
    + rewrite read_run_alpha_rgb, run_count_of_count_byte; auto.
      intros ->. rewrite byte_eqb_refl in E. discriminate.
  - simpl app. rewrite read_run_rgb, run_count_of_count_byte by assumption.
    reflexivity.
Qed.

(** The decoding loop over the runs the encoding loop wrote from the same
    cursor: it consumes exactly these runs, ends with the cursor at
    [width*height], and has given every pixel from the cursor on the wire
    colour of the source pixel. *)
Lemma roundtrip_loop (img : Image) (width height : Z) (hasAlpha : bool) :
  valid_dims width height ->
  forall (fuel : nat) (i : Z) (runs : list Run),
  0 <= i <= width * height ->
  PngToData_runs fuel img width height i = Some runs ->
  forall (fuel' : nat) (canvas : RGBAImage) (tail : Reader),
  Rect_Dx canvas = width -> Rect_Dy canvas = height ->
  width * height - i <= Z.of_nat fuel' ->
  exists canvas',
    DataToPng_loop fuel' width height hasAlpha i canvas
      (flat_map (run_bytes hasAlpha) runs ++ tail)
      = Some (LoopDone (width * height) canvas' tail)
    /\ Rect_Dx canvas' = width /\ Rect_Dy canvas' = height
    /\ forall x y, 0 <= x < width -> 0 <= y < height ->
         RGBAAt canvas' x y
         = if i <=? pixel_index width x y
           then wire_pixel hasAlpha (getRGBA img x y)
           else RGBAAt canvas x y.
Proof.
  intros Hv. pose proof (valid_dims_int32 _ _ Hv) as H32.
  destruct Hv as [Hw Hh].
  induction fuel as [|fuel IH]; intros i runs Hi H fuel' canvas tail Hx Hy Hfuel.
  - simpl in H. destruct (Z.ltb_spec i (width * height)); [discriminate|].
    injection H as <-. simpl flat_map. simpl app.
    exists canvas. rewrite DataToPng_loop_done by lia.
    replace i with (width * height) by lia.
    repeat split; auto.
    intros x y Hxr Hyr. unfold pixel_index.
    destruct (Z.leb_spec (width * height) (y * width + x)); [nia|reflexivity].
  - destruct (Z.eq_dec i (width * height)) as [->|Hne].
    { rewrite PngToData_runs_step in H.
      destruct (Z.ltb_spec (width * height) (width * height)); [lia|].
      injection H as <-. simpl flat_map. simpl app.
      exists canvas. rewrite DataToPng_loop_done by lia.
      repeat split; auto.
      intros x y Hxr Hyr. unfold pixel_index.
      destruct (Z.leb_spec (width * height) (y * width + x)); [nia|reflexivity]. }
    apply PngToData_runs_inv in H; [|lia].
    destruct H as (f & count & rest & Hf & Hlen & Hrest & ->).
    injection Hf as <-.
    apply run_length_spec in Hlen; [|lia|lia].
    destruct Hlen as (Hc & Hfit & Hsame & _).
    destruct fuel' as [|fuel']; [lia|].
    cbn [flat_map]. rewrite <- app_assoc.
    rewrite (DataToPng_loop_step width height hasAlpha fuel' i canvas _
               (flat_map (run_bytes hasAlpha) rest ++ tail) count
               (wire_pixel hasAlpha (pixel_at img width i)))
      by (try lia; apply (read_run_run_bytes hasAlpha
                            (mkRun i count (pixel_at img width i))); simpl; lia).
    assert (Hcl : clamp_count width height i count = count).
    { unfold clamp_count. rewrite H32.
      destruct (Z.gtb_spec count (width * height - i)); lia. }
    rewrite Hcl.
    destruct (paint_run_spec width i count
                (wire_pixel hasAlpha (pixel_at img width i)) canvas)
      as (Px & Py & Pat); [lia|lia|assumption|].
    destruct (IH (i + count) rest ltac:(lia) Hrest fuel'
                (paint_run width i count
                   (wire_pixel hasAlpha (pixel_at img width i)) canvas)
                tail ltac:(congruence) ltac:(congruence) ltac:(lia))
      as (canvas' & Hloop & Hx' & Hy' & Hat').
    exists canvas'. repeat split; auto.
    intros x y Hxr Hyr. rewrite Hat' by assumption. rewrite Pat.
    assert (Hin : in_rect canvas x y = true).
    { unfold in_rect. rewrite Hx, Hy.
      destruct (Z.leb_spec 0 x); [|lia]. destruct (Z.ltb_spec x width); [|lia].
      destruct (Z.leb_spec 0 y); [|lia]. destruct (Z.ltb_spec y height); [|lia].
      reflexivity. }
    rewrite Hin. simpl andb.
    destruct (Z.leb_spec (i + count) (pixel_index width x y)) as [Hhi|Hlo].
    + destruct (Z.leb_spec i (pixel_index width x y)); [reflexivity|lia].
    + destruct (Z.leb_spec i (pixel_index width x y)) as [Hge|]; simpl;
        destruct (Z.ltb_spec (pixel_index width x y) (i + count));
        try lia; try reflexivity.
      f_equal.
      assert (Hpx : pixel_at img width (pixel_index width x y) = getRGBA img x y).
      { unfold pixel_at.
        destruct (proj2 (quot_rem_index width (pixel_index width x y) x y
                           ltac:(lia) ltac:(unfold pixel_index; nia) Hxr)
                    eq_refl) as [-> ->].
        reflexivity. }
      rewrite <- Hpx.
      replace (pixel_index width x y) with (i + (pixel_index width x y - i)) by lia.
      destruct (Z.eq_dec (pixel_index width x y - i) 0) as [->|];
        [f_equal; lia | symmetry; apply Hsame; lia].
Qed.

(** Decoding what the encoder wrote for a bitmap: the whole stream is
    consumed, the canvas has the dimensions of the source, and every pixel
    is the wire colour of the source pixel. *)
Lemma roundtrip_wire (img : Image) :
  bitmap img ->
  exists data canvas,
    PngToData img = Some data
    /\ DataToPng data = Some (Encoded canvas, [])
    /\ Rect_Dx canvas = MaxX (Bounds img)
    /\ Rect_Dy canvas = MaxY (Bounds img)
    /\ forall x y,
         0 <= x < MaxX (Bounds img) -> 0 <= y < MaxY (Bounds img) ->
         RGBAAt canvas x y = wire_pixel (hasAlphaChannel img) (getRGBA img x y).
Proof.
  intros (Hx0 & Hy0 & Hv).
  destruct (PngToData_shape img) as (runs & Hruns & Hdata).
  rewrite Hx0, Hy0, !Z.sub_0_r in Hruns, Hdata.
  set (width := MaxX (Bounds img)) in *.
  set (height := MaxY (Bounds img)) in *.
  set (hasAlpha := hasAlphaChannel img) in *.
  destruct (init_canvas_spec width height hasAlpha (NewRGBA width height))
    as (Ix & Iy & _).
  simpl in Ix, Iy.
  assert (Hpos : 0 <= 0 <= width * height) by (destruct Hv; nia).
  destruct (roundtrip_loop img width height hasAlpha Hv _ 0 runs Hpos Hruns
              (Z.to_nat (width * height))
              (init_canvas width height hasAlpha (NewRGBA width height)) []
              Ix Iy ltac:(lia))
    as (canvas & Hloop & Hcx & Hcy & Hat).
  rewrite app_nil_r in Hloop.
  eexists. exists canvas. split; [exact Hdata|].
  split.
  { rewrite DataToPng_header_bytes by assumption. rewrite Hloop. reflexivity. }
  repeat split; auto.
  intros x y Hxr Hyr. rewrite Hat by assumption.
  unfold pixel_index.
  destruct (Z.leb_spec 0 (y * width + x)); [reflexivity|nia].
Qed.

(** The two cases in which the wire carries the pixel unchanged. *)
Lemma wire_pixel_exact (img : Image) (x y : Z) :
  premultiplied (At img x y) ->
  (if hasAlphaChannel img then True else a16 (At img x y) = 65535) ->
  wire_pixel (hasAlphaChannel img) (getRGBA img x y) = getRGBA img x y.
Proof.
  intros (Hr & Hg & Hb & Ha) Hmode. unfold wire_pixel, getRGBA.
  destruct (hasAlphaChannel img); simpl cA; simpl cR; simpl cG; simpl cB.
  - destruct (Byte.eqb (uint8 (Z.shiftr (a16 (At img x y)) 8)) x00) eqn:E;
      [|reflexivity].
    apply byte_eqb_eq in E.
    apply (f_equal byte_to_Z) in E. rewrite byte_to_Z_uint8 in E.
    change (byte_to_Z x00) with 0 in E.
    rewrite Z.shiftr_div_pow2 in E by lia. change (2 ^ 8) with 256 in E.
    assert (Hsmall : a16 (At img x y) < 256).
    { assert (0 <= a16 (At img x y) / 256 < 256)
        by (split; [apply Z.div_pos; lia | apply Z.div_lt_upper_bound; lia]).
      rewrite Z.mod_small in E by assumption.
      pose proof (Z.div_mod (a16 (At img x y)) 256 ltac:(lia)).
      pose proof (Z.mod_pos_bound (a16 (At img x y)) 256 ltac:(lia)). lia. }
    assert (Hz : forall v, 0 <= v <= a16 (At img x y) -> uint8 (Z.shiftr v 8) = x00).
    { intros v Hv. rewrite Z.shiftr_div_pow2 by lia. change (2 ^ 8) with 256.
      rewrite Z.div_small by lia. reflexivity. }
    rewrite !Hz by lia. reflexivity.
  - rewrite Hmode. reflexivity.
Qed.

Lemma channel_within_refl (tolerance : Z) (a : byte) :
  0 <= tolerance -> channel_within tolerance a a.
Proof. intros H. unfold channel_within. rewrite Z.sub_diag. simpl. exact H. Qed.

Lemma colour_within_refl (tolerance : Z) (c : RGBA) :
  0 <= tolerance -> colour_within tolerance c c.
Proof. intros H. repeat split; apply channel_within_refl; exact H. Qed.

(** C3 (as amended). For every Bitmap whose pixel type is one the encoder
    takes to carry alpha ([*image.RGBA], [*image.NRGBA]) or whose pixels
    are all fully opaque, decoding the stream the encoder wrote for it
    consumes the stream and yields a canvas of exactly the width and height
    of the Bitmap in which every pixel is within the tolerance of the
    Bitmap's pixel in each of the four channels, however small the
    tolerance. For a Bitmap of any other pixel type the width and height
    are exact and the three colour channels are within the tolerance, but
    the alpha that comes back is 255 in every pixel, whatever the alpha of
    the Bitmap. *)
Theorem roundtrip_within_tolerance (img : Image) (tolerance : Z) :
  decoded_bitmap img ->
  0 <= tolerance ->
  exists data canvas,
    PngToData img = Some data
    /\ DataToPng data = Some (Encoded canvas, [])
    /\ Rect_Dx canvas = MaxX (Bounds img)
    /\ Rect_Dy canvas = MaxY (Bounds img)
    /\ ((exposes_alpha img
         \/ forall x y,
              0 <= x < MaxX (Bounds img) -> 0 <= y < MaxY (Bounds img) ->
              a16 (At img x y) = 65535) ->
        forall x y,
          0 <= x < MaxX (Bounds img) -> 0 <= y < MaxY (Bounds img) ->
          within_tolerance tolerance (RGBAAt canvas x y) (getRGBA img x y))
    /\ (~ exposes_alpha img ->
        forall x y,
          0 <= x < MaxX (Bounds img) -> 0 <= y < MaxY (Bounds img) ->
          cA (RGBAAt canvas x y) = xff
          /\ colour_within tolerance (RGBAAt canvas x y) (getRGBA img x y)).
Proof.
  intros [Hbm Hpre] Htol.
  destruct (roundtrip_wire img Hbm) as (data & canvas & Hd & He & Hx & Hy & Hat).
  exists data, canvas.
  split; [exact Hd|]. split; [exact He|]. split; [exact Hx|]. split; [exact Hy|].
  split.
  - intros Hrep x y Hxr Hyr. rewrite Hat by assumption.
    rewrite wire_pixel_exact.
    + split; [apply colour_within_refl|apply channel_within_refl]; exact Htol.
    + auto.
    + destruct (hasAlphaChannel img) eqn:Ealpha; [exact I|].
      destruct Hrep as [Hexp|Hopaque]; [|auto].
      destruct Hbm as (Hx0 & Hy0 & _).
      destruct (Hpre x y Hxr Hyr) as (_ & _ & _ & Hle).
      destruct (Z.eq_dec (a16 (At img x y)) 65535) as [|Hne]; [assumption|exfalso].
      assert (Htrue : hasAlphaChannel img = true).
      { apply hasAlphaChannel_true. split; [exact Hexp|].
        exists x, y. rewrite Hx0, Hy0. repeat split; try lia. }
      congruence.
  - intros Hno x y Hxr Hyr. rewrite Hat by assumption.
    assert (Hmode : hasAlphaChannel img = false).
    { destruct (hasAlphaChannel img) eqn:Ealpha; [|reflexivity].
      apply hasAlphaChannel_true in Ealpha. destruct Ealpha as [Hexp _].
      contradiction. }
    rewrite Hmode. unfold wire_pixel.
    split; [reflexivity|].
    repeat split; apply channel_within_refl; exact Htol.
Qed.

Lemma roundtrip_within_tolerance_witness :
  exists data canvas,
    PngToData sample_nrgba = Some data
    /\ DataToPng data = Some (Encoded canvas, [])
    /\ Rect_Dx canvas = MaxX (Bounds sample_nrgba)
    /\ Rect_Dy canvas = MaxY (Bounds sample_nrgba)
    /\ ((exposes_alpha sample_nrgba
         \/ forall x y,
              0 <= x < MaxX (Bounds sample_nrgba) ->
              0 <= y < MaxY (Bounds sample_nrgba) ->
              a16 (At sample_nrgba x y) = 65535) ->
        forall x y,
          0 <= x < MaxX (Bounds sample_nrgba) ->
          0 <= y < MaxY (Bounds sample_nrgba) ->
          within_tolerance 1 (RGBAAt canvas x y) (getRGBA sample_nrgba x y))
    /\ (~ exposes_alpha sample_nrgba ->
        forall x y,
          0 <= x < MaxX (Bounds sample_nrgba) ->
          0 <= y < MaxY (Bounds sample_nrgba) ->
          cA (RGBAAt canvas x y) = xff
          /\ colour_within 1 (RGBAAt canvas x y) (getRGBA sample_nrgba x y)).
Proof.
  apply (roundtrip_within_tolerance sample_nrgba 1).
  - split.
    + unfold bitmap, valid_dims. simpl. lia.
    + intros x y Hx Hy. unfold premultiplied, sample_nrgba. simpl.
      destruct (x =? 0); simpl; lia.
  - lia.
Defined.

(** C3, as stated, fails: the transparent pixel of [sample_paletted] comes
    back fully opaque, its alpha 255 away from the original; the encoder
    wrote the image without alpha because its type is not one of the type
    switch. *)
Lemma roundtrip_loses_alpha :
  bitmap sample_paletted
  /\ premultiplied (At sample_paletted 0 0)
  /\ exists data canvas,
       PngToData sample_paletted = Some data
       /\ DataToPng data = Some (Encoded canvas, [])
       /\ getRGBA sample_paletted 0 0 = mkRGBA x00 x00 x00 x00
       /\ RGBAAt canvas 0 0 = mkRGBA x00 x00 x00 xff
       /\ byte_to_Z (cA (RGBAAt canvas 0 0))
          - byte_to_Z (cA (getRGBA sample_paletted 0 0)) = 255.
Proof.
  split; [unfold bitmap, valid_dims; simpl; lia|].
  split; [unfold premultiplied; simpl; lia|].
  eexists. eexists.
  split; [vm_compute; reflexivity|].
  split; [vm_compute; reflexivity|].
  repeat split.
Qed.

(* ------------------------------------------------------------------ *)
(** ** The worker pool *)

Import FilesConverter.

Lemma weight_workers (ws1 ws2 : list worker) (w : worker) :
  list_sum (map worker_weight (ws1 ++ w :: ws2))
  = (list_sum (map worker_weight ws1) + worker_weight w
     + list_sum (map worker_weight ws2))%nat.
Proof.
  rewrite map_app, list_sum_app. simpl. lia.
Qed.

(** Every step lowers the weight: no run of the pool goes on for ever. *)
Lemma step_weight (os : OS) (s s' : pool os) :
  step os s s' -> (weight s' < weight s)%nat.
Proof.
  intros H. destruct H; unfold weight; simpl taskQueue; simpl workers;
    rewrite !weight_workers; simpl; lia.
Qed.

Lemma all_exited_dec (os : OS) (s : pool os) : {all_exited s} + {~ all_exited s}.
Proof.
  unfold all_exited. apply Forall_dec.
  intros w. destruct w; [right; discriminate | right; discriminate | left; reflexivity].
Qed.

(** While a worker has not returned the pool can take a step. *)
Lemma step_progress (os : OS) (s : pool os) :
  ~ all_exited s -> exists s', step os s s'.
Proof.
  intros Hlive. unfold all_exited in Hlive.
  apply neg_Forall_Exists_neg in Hlive.
  2:{ intros w. destruct w; [right; discriminate | right; discriminate | left; reflexivity]. }
  apply Exists_exists in Hlive. destruct Hlive as (w & Hin & Hw).
  apply in_split in Hin. destruct Hin as (ws1 & ws2 & Hws).
  destruct s as [queue errs ws done]. simpl in Hws. subst ws.
  destruct w as [|task|]; [| |contradiction].
  - destruct queue as [|task queue].
    + eexists. apply step_drained.
    + eexists. apply step_receive.
  - destruct (run_task os task) as [e| |] eqn:E.
    + eexists. apply step_failed. exact E.
    + eexists. apply step_returns. exact E.
    + eexists. apply step_done. exact E.
Qed.


Lemma busy_tasks_app (ws1 ws2 : list worker) (w : worker) :
  busy_tasks (ws1 ++ w :: ws2)
  = busy_tasks ws1 ++ busy_tasks [w] ++ busy_tasks ws2.
Proof.
  unfold busy_tasks. rewrite flat_map_app. simpl. rewrite app_nil_r. reflexivity.
Qed.

Lemma busy_tasks_exited (ws : list worker) :
  Forall (fun w => w = Exited) ws -> busy_tasks ws = [].
Proof.
  induction 1 as [|w ws Hw _ IH]; [reflexivity|].
  subst w. simpl. exact IH.
Qed.

Lemma perm_take (A B1 B2 Q : list ConversionTask) (t : ConversionTask) :
  Permutation (A ++ (B1 ++ B2) ++ t :: Q) (A ++ (B1 ++ t :: B2) ++ Q).
Proof.
  apply Permutation_app_head. rewrite <- !app_assoc.
  apply Permutation_app_head. simpl.
  symmetry. apply Permutation_middle.
Qed.

Lemma perm_finish (A B1 B2 Q : list ConversionTask) (t : ConversionTask) :
  Permutation (A ++ (B1 ++ t :: B2) ++ Q) ((t :: A) ++ (B1 ++ B2) ++ Q).
Proof.
  rewrite <- !app_assoc. simpl.
  rewrite (app_assoc A B1 (t :: B2 ++ Q)), (app_assoc A B1 (B2 ++ Q)).
  symmetry. apply Permutation_middle.
Qed.

Lemma step_inv (os : OS) (tasks : list ConversionTask) (s s' : pool os) :
  step os s s' -> pool_inv os tasks s -> pool_inv os tasks s'.
Proof.
  intros Hstep (processed & Htasks & Herrs & Hdone).
  destruct Hstep; simpl in *; rewrite busy_tasks_app in Htasks; simpl in Htasks.
  - exists processed. simpl. rewrite busy_tasks_app. simpl.
    repeat split; try assumption.
    rewrite Htasks. apply perm_take.
  - exists processed. simpl. rewrite busy_tasks_app. simpl.
    repeat split; assumption.
  - exists (task :: processed). simpl. rewrite busy_tasks_app. simpl.
    unfold failures, successes in *. simpl. rewrite H. simpl.
    repeat split; try assumption.
    + rewrite Htasks. apply (perm_finish processed).
    + rewrite Herrs. symmetry. apply Permutation_cons_append.
  - exists (task :: processed). simpl. rewrite busy_tasks_app. simpl.
    unfold failures, successes in *. simpl. rewrite H. simpl.
    repeat split; try assumption.
    + rewrite Htasks. apply (perm_finish processed).
    + apply Permutation_cons; auto.
  - exists (task :: processed). simpl. rewrite busy_tasks_app. simpl.
    unfold failures, successes in *. simpl. rewrite H. simpl.
    repeat split; try assumption.
    + rewrite Htasks. apply (perm_finish processed).
    + apply Permutation_cons; auto.
Qed.

Lemma step_alive (os : OS) (tasks : list ConversionTask) (s s' : pool os) :
  (forall t, In t tasks -> run_task os t <> WorkerReturns) ->
  step os s s' -> pool_inv os tasks s -> pool_alive os s -> pool_alive os s'.
Proof.
  intros Hclose Hstep (processed & Htasks & _ & _) Halive.
  destruct Hstep; unfold pool_alive; simpl in *.
  - right. exists (Busy task). split; [apply in_elt | discriminate].
  - left. reflexivity.
  - right. exists Idle. split; [apply in_elt | discriminate].
  - exfalso. apply (Hclose task); [|assumption].
    eapply Permutation_in; [symmetry; exact Htasks|].
    rewrite busy_tasks_app. simpl.
    apply in_or_app. right. apply in_or_app. left.
    apply in_or_app. right. left. reflexivity.
  - right. exists Idle. split; [apply in_elt | discriminate].
Qed.

Lemma steps_inv (os : OS) (tasks : list ConversionTask) (s s' : pool os) :
  (forall t, In t tasks -> run_task os t <> WorkerReturns) ->
  steps os s s' ->
  pool_inv os tasks s -> pool_alive os s ->
  pool_inv os tasks s' /\ pool_alive os s'.
Proof.
  intros Hclose Hrun. induction Hrun as [s|s1 s2 s3 Hstep _ IH]; intros Hinv Halive.
  - split; assumption.
  - apply IH.
    + eapply step_inv; eauto.
    + eapply step_alive; eauto.
Qed.

Lemma failures_successes_length (os : OS) (tasks : list ConversionTask) :
  (length (failures os tasks) + length (successes os tasks))%nat = length tasks.
Proof.
  unfold failures, successes. induction tasks as [|t tasks IH]; [reflexivity|].
  simpl. rewrite !length_app. destruct (run_task os t); simpl; lia.
Qed.

Lemma make_tasks_length (os : OS) (job : Job) (total : Z) :
  forall (files : list String.string) (i : Z),
  length (make_tasks os job i total files) = length files.
Proof.
  induction files as [|f files IH]; intros i; simpl; [reflexivity|].
  rewrite IH. reflexivity.
Qed.

(** When [wg.Wait] returns, with at least one worker and no failing
    [Close]: every task went through the body of some worker. *)
Lemma pool_final (os : OS) (tasks : list ConversionTask) (maxWorkers : Z)
    (s : pool os) :
  1 <= maxWorkers ->
  (forall t, In t tasks -> run_task os t <> WorkerReturns) ->
  steps os (init_pool os tasks maxWorkers) s -> all_exited s ->
  Permutation (errChan s) (failures os tasks)
  /\ Permutation (converted s) (successes os tasks).
Proof.
  intros Hw Hclose Hrun Hex.
  destruct (steps_inv os tasks _ _ Hclose Hrun) as [(processed & Ht & He & Hd) Halive].
  - exists []. simpl. repeat split; try apply Permutation_refl.
    replace (busy_tasks (repeat Idle (Z.to_nat maxWorkers))) with (@nil ConversionTask).
    + apply Permutation_refl.
    + induction (Z.to_nat maxWorkers); [reflexivity|assumption].
  - right. exists Idle. split; [|discriminate].
    unfold init_pool. simpl workers.
    destruct (Z.to_nat maxWorkers) eqn:E; [lia|]. simpl. left. reflexivity.
  - assert (Hq : taskQueue s = []).
    { destruct Halive as [|(w & Hin & Hne)]; [assumption|].
      unfold all_exited in Hex. rewrite Forall_forall in Hex.
      apply Hex in Hin. contradiction. }
    rewrite Hq, (busy_tasks_exited _ Hex), !app_nil_r in Ht.
    split.
    + rewrite He. unfold failures. rewrite Ht. reflexivity.
    + rewrite Hd. unfold successes. rewrite Ht. reflexivity.
Qed.


(** The sample batch: whatever the schedule, the call returns the error of
    the corrupted file and the two other files are converted. *)
Lemma sample_batch_result (result : option (batch_error SampleBatch.sample_os))
    (done : list ConversionTask) :
  convert_returns SampleBatch.sample_os SampleBatch.sample_job
    SampleBatch.sample_files 2 result done ->
  result = Some SampleBatch.sample_error /\ length done = 2%nat.
Proof.
  intros Hret.
  destruct Hret as [Hnil|e Hne Hfail|s Hne _ Hrun Hex]; try discriminate.
  apply pool_final in Hrun; try assumption; try lia.
  - destruct Hrun as [He Hd].
    change (failures SampleBatch.sample_os _) with [SampleBatch.sample_error] in He.
    apply Permutation_sym, Permutation_length_1_inv in He. rewrite He.
    split; [reflexivity|]. rewrite (Permutation_length Hd). reflexivity.
  - intros t Hin. simpl in Hin.
    destruct Hin as [<-|[<-|[<-|[]]]]; vm_compute; discriminate.
Qed.

(** The number of workers a converter is built with, or set to, is at
    least one when the machine has a CPU. *)
Lemma maxWorkers_positive (numCPU workers : Z) :
  1 <= numCPU ->
  1 <= NewFilesConverter numCPU
  /\ 1 <= SetMaxWorkers (NewFilesConverter numCPU) workers.
Proof.
  intros H. unfold NewFilesConverter, SetMaxWorkers.
  destruct (Z.gtb_spec numCPU 8); destruct (Z.gtb_spec workers 0); lia.
Qed.

(** Which error is the first in the channel depends on the schedule. With
    two corrupted files and two workers: one worker alone takes both tasks
    in order and the call returns the error of the first file; or each
    worker takes one and the second is sent first, and the call returns the
    error of the second file. *)
Lemma first_error_depends_on_schedule :
  convert_returns SampleBatch.sample_os SampleBatch.sample_job
    SampleBatch.two_bad_files 2 (Some SampleBatch.bad1_error) []
  /\ convert_returns SampleBatch.sample_os SampleBatch.sample_job
       SampleBatch.two_bad_files 2 (Some SampleBatch.bad2_error) [].
Proof.
  pose (os := SampleBatch.sample_os).
  pose (t1 := SampleBatch.bad1_task). pose (t2 := SampleBatch.bad2_task).
  pose (e1 := SampleBatch.bad1_error). pose (e2 := SampleBatch.bad2_error).
  split.
  - apply (convert_pool os SampleBatch.sample_job SampleBatch.two_bad_files 2
             (mkPool [] [e1; e2] [Exited; Exited] []));
      [discriminate | reflexivity | | repeat constructor].
    eapply steps_cons; [apply (step_receive os [] [Idle] t1 [t2] [] [])|].
    eapply steps_cons; [apply (step_failed os [] [Idle] t1 e1 [t2] [] []); reflexivity|].
    eapply steps_cons; [apply (step_receive os [] [Idle] t2 [] [e1] [])|].
    eapply steps_cons; [apply (step_failed os [] [Idle] t2 e2 [] [e1] []); reflexivity|].
    eapply steps_cons; [apply (step_drained os [] [Idle] [e1; e2] [])|].
    eapply steps_cons; [apply (step_drained os [Exited] [] [e1; e2] [])|].
    apply steps_refl.
  - apply (convert_pool os SampleBatch.sample_job SampleBatch.two_bad_files 2
             (mkPool [] [e2; e1] [Exited; Exited] []));
      [discriminate | reflexivity | | repeat constructor].
    eapply steps_cons; [apply (step_receive os [] [Idle] t1 [t2] [] [])|].
    eapply steps_cons; [apply (step_receive os [Busy t1] [] t2 [] [] [])|].
    eapply steps_cons; [apply (step_failed os [Busy t1] [] t2 e2 [] [] []); reflexivity|].
    eapply steps_cons; [apply (step_failed os [] [Idle] t1 e1 [] [e2] []); reflexivity|].
    eapply steps_cons; [apply (step_drained os [] [Idle] [e2; e1] [])|].
    eapply steps_cons; [apply (step_drained os [Exited] [] [e2; e1] [])|].
    apply steps_refl.
Qed.

(* ------------------------------------------------------------------ *)
(** ** The decoder on any stream *)

(** X1. A stream that ends inside the twelve header bytes is refused: with
    [io.EOF] when it ends on the boundary of a header integer (0, 4 or 8
    bytes), with [io.ErrUnexpectedEOF] when it ends inside one. The stream
    is read to its end. *)
Theorem DataToPng_truncated_header (input : Reader) :
  (length input < 12)%nat ->
  DataToPng input
  = Some (Failed (if (length input mod 4 =? 0)%nat then EOF
                  else ErrUnexpectedEOF), []).
Proof.
  intros H.
  do 12 (destruct input as [|? input]; [reflexivity|]).
  simpl in H. lia.
Qed.

Lemma DataToPng_truncated_header_witness :
  DataToPng [x02; x00; x00; x00; x01; x00] = Some (Failed ErrUnexpectedEOF, []).
Proof.
  exact (DataToPng_truncated_header [x02; x00; x00; x00; x01; x00]
           ltac:(simpl; lia)).
Defined.

Lemma in_rect_dims (canvas : RGBAImage) (width height x y : Z) :
  Rect_Dx canvas = width -> Rect_Dy canvas = height ->
  0 <= x < width -> 0 <= y < height -> in_rect canvas x y = true.
Proof.
  intros Hx Hy Hxr Hyr. unfold in_rect. rewrite Hx, Hy.
  destruct (Z.leb_spec 0 x); [|lia]. destruct (Z.ltb_spec x width); [|lia].
  destruct (Z.leb_spec 0 y); [|lia]. destruct (Z.ltb_spec y height); [|lia].
  reflexivity.
Qed.

Lemma pixel_index_range (width height x y : Z) :
  0 <= x < width -> 0 <= y < height ->
  0 <= pixel_index width x y < width * height.
Proof. intros Hx Hy. unfold pixel_index. nia. Qed.

Lemma run_covering_from (rs : list Run) :
  Forall (fun r => 1 <= run_count r <= 256) rs ->
  forall i k, k < i -> run_covering rs i k = match rs with
                                             | [] => None
                                             | r :: _ => Some (run_px r)
                                             end.
Proof.
  intros H i k Hk. destruct rs as [|r rs]; [reflexivity|].
  inversion H; subst. simpl.
  destruct (Z.ltb_spec k (i + run_count r)); [reflexivity|lia].
Qed.

Lemma DataToPng_loop_runs (width height : Z) (hasAlpha : bool) :
  valid_dims width height ->
  forall (rs : list Run) (fuel : nat) (i : Z) (canvas : RGBAImage),
  Forall (fun r => 1 <= run_count r <= 256) rs ->
  0 <= i <= width * height ->
  Rect_Dx canvas = width -> Rect_Dy canvas = height ->
  width * height - i <= Z.of_nat fuel ->
  exists i' canvas' rest,
    DataToPng_loop fuel width height hasAlpha i canvas
      (flat_map (run_bytes hasAlpha) rs)
      = Some (LoopDone i' canvas' rest)
    /\ Rect_Dx canvas' = width /\ Rect_Dy canvas' = height
    /\ forall x y, 0 <= x < width -> 0 <= y < height ->
         RGBAAt canvas' x y
         = if i <=? pixel_index width x y then
             match run_covering rs i (pixel_index width x y) with
             | Some px => wire_pixel hasAlpha px
             | None => RGBAAt canvas x y
             end
           else RGBAAt canvas x y.
Proof.
  intros Hv. pose proof (valid_dims_int32 _ _ Hv) as H32.
  destruct Hv as [Hw Hh].
  induction rs as [|r rs IH]; intros fuel i canvas Hrs Hi Hx Hy Hfuel.
  - exists i, canvas, []. simpl flat_map.
    split.
    { destruct (Z.eq_dec i (width * height)) as [->|Hne].
      - apply DataToPng_loop_done. lia.
      - destruct fuel as [|fuel]; [lia|]. simpl.
        destruct (Z.ltb_spec i (int32 (width * height))); [|lia].
        reflexivity. }
    repeat split; auto.
    intros x y _ _. simpl. destruct (i <=? pixel_index width x y); reflexivity.
  - inversion Hrs as [|r' rs' Hr Hrs']; subst r' rs'.
    destruct (Z.eq_dec i (width * height)) as [->|Hne].
    { exists (width * height), canvas, (flat_map (run_bytes hasAlpha) (r :: rs)).
      rewrite DataToPng_loop_done by lia.
      repeat split; auto.
      intros x y Hxr Hyr.
      pose proof (pixel_index_range width height x y Hxr Hyr).
      destruct (Z.leb_spec (width * height) (pixel_index width x y)); [lia|reflexivity]. }
    destruct fuel as [|fuel]; [lia|].
    cbn [flat_map].
    rewrite (DataToPng_loop_step width height hasAlpha fuel i canvas _
               (flat_map (run_bytes hasAlpha) rs) (run_count r)
               (wire_pixel hasAlpha (run_px r)))
      by (try lia; apply read_run_run_bytes; assumption).
    set (n := clamp_count width height i (run_count r)).
    assert (Hn : 1 <= n <= width * height - i /\ n <= run_count r
                 /\ (n = run_count r \/ i + n = width * height)).
    { unfold n, clamp_count. rewrite H32.
      destruct (Z.gtb_spec (run_count r) (width * height - i)); lia. }
    destruct (paint_run_spec width i n (wire_pixel hasAlpha (run_px r)) canvas)
      as (Px & Py & Pat); [lia|lia|assumption|].
    destruct (IH fuel (i + n)
                (paint_run width i n (wire_pixel hasAlpha (run_px r)) canvas)
                Hrs' ltac:(lia) ltac:(congruence) ltac:(congruence) ltac:(lia))
      as (i' & canvas' & rest & Hloop & Hx' & Hy' & Hat').
    exists i', canvas', rest. repeat split; auto.
    intros x y Hxr Hyr. rewrite Hat' by assumption. rewrite Pat.
    rewrite (in_rect_dims canvas width height x y) by assumption.
    pose proof (pixel_index_range width height x y Hxr Hyr) as Hk.
    simpl andb. cbn [run_covering].
    destruct (Z.leb_spec i (pixel_index width x y)) as [Hge|Hlt];
      destruct (Z.leb_spec (i + n) (pixel_index width x y)) as [Hge'|Hlt'];
      destruct (Z.ltb_spec (pixel_index width x y) (i + n)) as [Hlt2|Hge2];
      destruct (Z.ltb_spec (pixel_index width x y) (i + run_count r)) as [Hlt3|Hge3];
      try lia; try reflexivity.
    replace (i + run_count r) with (i + n) by lia.
    destruct (run_covering rs (i + n) (pixel_index width x y)); reflexivity.
Qed.

(** X2. The decoder on a well-formed body. For a valid header and a body
    made of complete runs (each a count byte standing for 1 to 256 pixels,
    followed by the colour bytes of the mode), decoding yields a canvas of
    the header's dimensions whose pixel at row-major position [k] has the
    colour of the run covering [k], the runs being laid end to end from
    position 0; a pixel no run reaches keeps the default colour of the mode.
    A run reaching past the last pixel is cut there. *)
Theorem DataToPng_decodes_runs (width height : Z) (hasAlpha : bool)
    (rs : list Run) :
  valid_dims width height ->
  Forall (fun r => 1 <= run_count r <= 256) rs ->
  exists canvas rest,
    DataToPng (header_bytes width height hasAlpha
               ++ flat_map (run_bytes hasAlpha) rs)
      = Some (Encoded canvas, rest)
    /\ Rect_Dx canvas = width /\ Rect_Dy canvas = height
    /\ forall x y, 0 <= x < width -> 0 <= y < height ->
         RGBAAt canvas x y = decoded_pixel hasAlpha rs (pixel_index width x y).
Proof.
  intros Hv Hrs.
  destruct (init_canvas_spec width height hasAlpha (NewRGBA width height))
    as (Ix & Iy & Iat).
  simpl in Ix, Iy.
  assert (Hpos : 0 <= 0 <= width * height) by (destruct Hv; nia).
  destruct (DataToPng_loop_runs width height hasAlpha Hv rs
              (Z.to_nat (width * height)) 0
              (init_canvas width height hasAlpha (NewRGBA width height))
              Hrs Hpos Ix Iy ltac:(lia))
    as (i' & canvas & rest & Hloop & Hcx & Hcy & Hat).
  exists canvas, rest. split.
  { rewrite DataToPng_header_bytes by assumption. rewrite Hloop. reflexivity. }
  repeat split; auto.
  intros x y Hxr Hyr. rewrite Hat by assumption.
  pose proof (pixel_index_range width height x y Hxr Hyr).
  destruct (Z.leb_spec 0 (pixel_index width x y)); [|lia].
  unfold decoded_pixel.
  destruct (run_covering rs 0 (pixel_index width x y)); [reflexivity|].
  apply Iat; try assumption.
  apply (in_rect_dims _ width height); auto.
Qed.

Lemma DataToPng_decodes_runs_witness :
  exists canvas rest,
    DataToPng (header_bytes 2 2 true
               ++ flat_map (run_bytes true)
                    [mkRun 0 3 (mkRGBA x10 x20 x30 x80)])
      = Some (Encoded canvas, rest)
    /\ Rect_Dx canvas = 2 /\ Rect_Dy canvas = 2
    /\ forall x y, 0 <= x < 2 -> 0 <= y < 2 ->
         RGBAAt canvas x y
         = decoded_pixel true [mkRun 0 3 (mkRGBA x10 x20 x30 x80)]
             (pixel_index 2 x y).
Proof.
  apply (DataToPng_decodes_runs 2 2 true [mkRun 0 3 (mkRGBA x10 x20 x30 x80)]).
  - unfold valid_dims. lia.
  - repeat constructor; simpl; lia.
Defined.

Lemma read_run_pixel_in_mode (hasAlpha : bool) (input : Reader) count c rest :
  read_run hasAlpha input = RunOk count c rest -> pixel_in_mode hasAlpha c.
Proof.
  unfold read_run, pixel_in_mode.
  destruct hasAlpha; split_stream input; simpl;
    try discriminate;
    repeat match goal with
           | |- context [Byte.eqb ?a ?b] => destruct (Byte.eqb a b) eqn:?; simpl
           end;
    try discriminate;
    intros H; injection H as _ <- _; simpl; try reflexivity;
    intros Ha; subst;
    try (rewrite byte_eqb_refl in *; discriminate); try reflexivity.
Qed.

Lemma DataToPng_loop_in_mode (width height : Z) (hasAlpha : bool) :
  0 < width ->
  forall (fuel : nat) (i : Z) (img : RGBAImage) (input : Reader) i' img' rest,
  0 <= i -> Rect_Dx img = width ->
  (forall x y, in_rect img x y = true -> pixel_in_mode hasAlpha (RGBAAt img x y)) ->
  DataToPng_loop fuel width height hasAlpha i img input
    = Some (LoopDone i' img' rest) ->
  forall x y, in_rect img x y = true -> pixel_in_mode hasAlpha (RGBAAt img' x y).
Proof.
  intros Hw. induction fuel as [|fuel IH];
    intros i img input i' img' rest Hi Hdx Hinv H.
  - simpl in H. destruct (i <? int32 (width * height)); [discriminate|].
    injection H as _ <- _. exact Hinv.
  - simpl in H. destruct (Z.ltb_spec i (int32 (width * height))) as [Hlt|].
    2:{ injection H as _ <- _. exact Hinv. }
    destruct (read_run hasAlpha input) as [r|e r|count c r] eqn:E.
    + injection H as _ <- _. exact Hinv.
    + discriminate.
    + pose proof (read_run_pixel_in_mode _ _ _ _ _ E) as Hc.
      apply read_run_count_range in E.
      pose proof (clamp_count_range width height i count Hlt ltac:(lia)) as Hcl.
      destruct (paint_run_spec width i (clamp_count width height i count) c img
                  Hw Hi Hdx) as (Px & Py & Pat).
      assert (Hrect : forall x y,
                 in_rect (paint_run width i (clamp_count width height i count) c img) x y
                 = in_rect img x y).
      { intros x y. unfold in_rect. rewrite Px, Py. reflexivity. }
      intros x y Hin.
      eapply (IH (i + clamp_count width height i count)
                (paint_run width i (clamp_count width height i count) c img)
                r i' img' rest);
        [lia | congruence | | exact H | rewrite Hrect; exact Hin].
      intros x' y' Hin'. rewrite Hrect in Hin'. rewrite Pat.
      destruct (in_rect img x' y' && (i <=? pixel_index width x' y')
                && (pixel_index width x' y' <? i + clamp_count width height i count));
        [exact Hc | apply Hinv; exact Hin'].
Qed.

(** X3. Whatever bytes follow a valid header, a canvas the decoder hands to
    the PNG encoder has the header's dimensions and holds only colours of
    its mode: without alpha every pixel is opaque (alpha 255), with alpha a
    pixel of alpha 0 is (0,0,0,0). *)
Theorem DataToPng_canvas_in_mode (w0 w1 w2 w3 h0 h1 h2 h3 f0 f1 f2 f3 : byte)
    (body : Reader) (canvas : RGBAImage) (rest : Reader) :
  let width := header_int w0 w1 w2 w3 in
  let height := header_int h0 h1 h2 h3 in
  let hasAlpha := negb (header_int f0 f1 f2 f3 =? 0) in
  DataToPng ([w0; w1; w2; w3; h0; h1; h2; h3; f0; f1; f2; f3] ++ body)
    = Some (Encoded canvas, rest) ->
  valid_dims width height
  /\ Rect_Dx canvas = width /\ Rect_Dy canvas = height
  /\ forall x y, 0 <= x < width -> 0 <= y < height ->
       pixel_in_mode hasAlpha (RGBAAt canvas x y).
Proof.
  intros width height hasAlpha H.
  assert (Hv : valid_dims width height).
  { unfold DataToPng in H. simpl app in H.
    rewrite !binary_Read_int32_cons4 in H.
    fold (header_int w0 w1 w2 w3) in H. fold (header_int h0 h1 h2 h3) in H.
    fold width in H. fold height in H.
    unfold valid_dims.
    destruct (Z.leb_spec width 0); simpl in H; [discriminate|].
    destruct (Z.leb_spec height 0); simpl in H; [discriminate|].
    destruct (Z.gtb_spec width 8192); simpl in H; [discriminate|].
    destruct (Z.gtb_spec height 8192); simpl in H; [discriminate|].
    lia. }
  split; [exact Hv|].
  rewrite (DataToPng_valid_header w0 w1 w2 w3 h0 h1 h2 h3 f0 f1 f2 f3 body Hv) in H.
  fold width height hasAlpha in H.
  destruct (DataToPng_loop _ width height hasAlpha 0 _ body)
    as [[e r|i' img' r]|] eqn:Hloop; try discriminate.
  injection H as -> ->.
  destruct (init_canvas_spec width height hasAlpha (NewRGBA width height))
    as (Ix & Iy & Iat).
  simpl in Ix, Iy.
  destruct (DataToPng_loop_frame width height hasAlpha ltac:(destruct Hv; lia)
              _ _ _ _ _ _ _ (Z.le_refl 0) Ix Hloop) as (_ & Hx & Hy & _).
  rewrite Iy in Hy.
  repeat split; auto.
  intros x y Hxr Hyr.
  apply (DataToPng_loop_in_mode width height hasAlpha ltac:(destruct Hv; lia)
           _ _ _ _ _ _ _ (Z.le_refl 0) Ix) with (x := x) (y := y) in Hloop.
  - exact Hloop.
  - intros x' y' Hin.
    assert (Hin0 : in_rect (NewRGBA width height) x' y' = true).
    { unfold in_rect in *. rewrite Ix, Iy in Hin. exact Hin. }
    rewrite Iat.
    + unfold pixel_in_mode, default_pixel. destruct hasAlpha; auto.
    + unfold in_rect in Hin0. simpl in Hin0. lia.
    + unfold in_rect in Hin0. simpl in Hin0. lia.
    + exact Hin0.
  - apply (in_rect_dims _ width height); auto.
Qed.

Lemma DataToPng_canvas_in_mode_witness :
  exists canvas rest,
    DataToPng ([x01; x00; x00; x00; x01; x00; x00; x00; x00; x00; x00; x00]
               ++ [x05; x10; x20; x30; x07])
      = Some (Encoded canvas, rest)
    /\ forall x y, 0 <= x < 1 -> 0 <= y < 1 ->
         pixel_in_mode false (RGBAAt canvas x y).
Proof.
  eexists. eexists. split; [reflexivity|].
  refine (proj2 (proj2 (proj2
            (DataToPng_canvas_in_mode x01 x00 x00 x00 x01 x00 x00 x00
               x00 x00 x00 x00 [x05; x10; x20; x30; x07] _ _ _)))).
  reflexivity.
Defined.

(** X4. The decoder reads what the encoder wrote and nothing more: when the
    bytes written for a bitmap are followed by any other bytes, decoding
    gives the same pixels and leaves those bytes unread on the stream. *)
Theorem DataToPng_leaves_trailing_bytes (img : Image) (tail : Reader) :
  bitmap img ->
  exists data canvas,
    PngToData img = Some data
    /\ DataToPng (data ++ tail) = Some (Encoded canvas, tail)
    /\ Rect_Dx canvas = MaxX (Bounds img)
    /\ Rect_Dy canvas = MaxY (Bounds img)
    /\ forall x y,
         0 <= x < MaxX (Bounds img) -> 0 <= y < MaxY (Bounds img) ->
         RGBAAt canvas x y = wire_pixel (hasAlphaChannel img) (getRGBA img x y).
Proof.
  intros (Hx0 & Hy0 & Hv).
  destruct (PngToData_shape img) as (runs & Hruns & Hdata).
  rewrite Hx0, Hy0, !Z.sub_0_r in Hruns, Hdata.
  set (width := MaxX (Bounds img)) in *.
  set (height := MaxY (Bounds img)) in *.
  set (hasAlpha := hasAlphaChannel img) in *.
  destruct (init_canvas_spec width height hasAlpha (NewRGBA width height))
    as (Ix & Iy & _).
  simpl in Ix, Iy.
  assert (Hpos : 0 <= 0 <= width * height) by (destruct Hv; nia).
  destruct (roundtrip_loop img width height hasAlpha Hv _ 0 runs Hpos Hruns
              (Z.to_nat (width * height))
              (init_canvas width height hasAlpha (NewRGBA width height)) tail
              Ix Iy ltac:(lia))
    as (canvas & Hloop & Hcx & Hcy & Hat).
  eexists. exists canvas. split; [exact Hdata|].
  split.
  { rewrite <- app_assoc.
    rewrite DataToPng_header_bytes by assumption. rewrite Hloop. reflexivity. }
  repeat split; auto.
  intros x y Hxr Hyr. rewrite Hat by assumption.
  unfold pixel_index.
  destruct (Z.leb_spec 0 (y * width + x)); [reflexivity|nia].
Qed.

Lemma DataToPng_leaves_trailing_bytes_witness :
  exists data canvas,
    PngToData sample_nrgba = Some data
    /\ DataToPng (data ++ [xde; xad]) = Some (Encoded canvas, [xde; xad])
    /\ Rect_Dx canvas = 2
    /\ Rect_Dy canvas = 1
    /\ forall x y,
         0 <= x < 2 -> 0 <= y < 1 ->
         RGBAAt canvas x y
         = wire_pixel (hasAlphaChannel sample_nrgba) (getRGBA sample_nrgba x y).
Proof.
  apply (DataToPng_leaves_trailing_bytes sample_nrgba [xde; xad]).
  unfold bitmap, valid_dims. simpl. lia.
Defined.

(** X5. The errors of the decoder on a stream that fails only by ending,
    up to the call of [png.Encode]. A stream is a list of bytes here: a
    read gives the bytes asked for, or [io.EOF] at the end, or
    [io.ErrUnexpectedEOF] from [io.ReadFull] when the end comes after some
    of them; and the decoder ends at the canvas it hands to [png.Encode],
    whose error it would return as it is (line 153). Within these bounds
    the decoder fails in three ways only: with [io.EOF], when the stream
    ends before the header is complete and between two of its integers;
    with [io.ErrUnexpectedEOF]; and with "invalid image dimensions", once
    the twelve header bytes have been read. The errors "failed to read
    count byte", "failed to read alpha byte" and "failed to read RGB bytes"
    are not among them: a read that returns no error has filled its
    buffer. A reader that fails in another way, or returns no byte and no
    error, and a writer that refuses the PNG are not covered. *)
Theorem DataToPng_failures (input : Reader) (e : error) (rest : Reader) :
  DataToPng input = Some (Failed e, rest) ->
  (e = EOF /\ (length input < 12)%nat /\ (length input mod 4 = 0)%nat)
  \/ e = ErrUnexpectedEOF
  \/ (e = ErrInvalidDimensions /\ (12 <= length input)%nat).
Proof.
  intros H.
  do 12 (destruct input as [|? input];
         [header_cut H;
          first [ left; repeat split; simpl; lia
                | right; left; reflexivity ] |]).
  change (DataToPng ([b; b0; b1; b2; b3; b4; b5; b6; b7; b8; b9; b10] ++ input)
          = Some (Failed e, rest)) in H.
  unfold DataToPng in H. simpl app in H.
  rewrite !binary_Read_int32_cons4 in H.
  set (width := int32 (le_uint32 [b; b0; b1; b2])) in *.
  set (height := int32 (le_uint32 [b3; b4; b5; b6])) in *.
  set (hasAlpha := negb (int32 (le_uint32 [b7; b8; b9; b10]) =? 0)) in *.
  cbv zeta in H.
  destruct ((width <=? 0) || (height <=? 0) || (width >? 8192) || (height >? 8192)).
  - injection H as <- _. right. right. split; [reflexivity|simpl; lia].
  - destruct (DataToPng_loop _ width height hasAlpha 0 _ input)
      as [[e' r|i' img' r]|] eqn:Hloop; try discriminate.
    injection H as <- _. right. left.
    exact (DataToPng_loop_error _ _ _ _ _ _ _ _ _ Hloop).
Qed.

Lemma DataToPng_failures_witness :
  (EOF = EOF /\ (length [x01; x00; x00; x00] < 12)%nat
   /\ (length [x01; x00; x00; x00] mod 4 = 0)%nat)
  \/ EOF = ErrUnexpectedEOF
  \/ (EOF = ErrInvalidDimensions /\ (12 <= length [x01; x00; x00; x00])%nat).
Proof.
  apply (DataToPng_failures [x01; x00; x00; x00] EOF []). reflexivity.
Defined.

(* ------------------------------------------------------------------ *)
(** ** The runs the encoder writes *)

Lemma PngToData_runs_tile_loop (img : Image) (width height : Z) :
  forall (fuel : nat) (i : Z) (runs : list Run),
  PngToData_runs fuel img width height i = Some runs ->
  runs_tile runs i (Z.max i (width * height))
  /\ forall r k, In r runs ->
       run_start r <= k < run_start r + run_count r ->
       pixel_at img width k = run_px r.
Proof.
  induction fuel as [|fuel IH]; intros i runs H.
  - simpl in H. destruct (Z.ltb_spec i (width * height)); [discriminate|].
    injection H as <-. simpl. split; [lia|contradiction].
  - destruct (Z.lt_ge_cases i (width * height)) as [Hlt|Hge].
    2:{ rewrite PngToData_runs_step in H.
        destruct (Z.ltb_spec i (width * height)); [lia|].
        injection H as <-. simpl. split; [lia|contradiction]. }
    apply PngToData_runs_inv in H; [|lia].
    destruct H as (f & count & rest & Hf & Hlen & Hrest & ->).
    injection Hf as <-.
    apply run_length_spec in Hlen; [|lia|lia].
    destruct Hlen as (Hc & Hfit & Hsame & _).
    destruct (IH _ _ Hrest) as (Htile & Hpx).
    split.
    + simpl. repeat split; try lia.
      replace (Z.max i (width * height)) with (Z.max (i + count) (width * height))
        by lia.
      exact Htile.
    + intros r k [<-|Hin] Hk.
      * simpl in *.
        destruct (Z.eq_dec k i) as [->|Hne]; [reflexivity|].
        replace k with (i + (k - i)) by lia. apply Hsame. lia.
      * apply Hpx; assumption.
Qed.

(** X6. The runs the encoder writes cover the image exactly once: they lie
    end to end from the first pixel to the last in row-major order, each
    stands for 1 to 256 pixels, and every pixel a run covers has the run's
    colour. *)
Theorem PngToData_runs_cover (img : Image) :
  let width := MaxX (Bounds img) - MinX (Bounds img) in
  let height := MaxY (Bounds img) - MinY (Bounds img) in
  exists runs,
    PngToData img
    = Some (header_bytes width height (hasAlphaChannel img)
            ++ flat_map (run_bytes (hasAlphaChannel img)) runs)
    /\ runs_tile runs 0 (Z.max 0 (width * height))
    /\ forall r k, In r runs ->
         run_start r <= k < run_start r + run_count r ->
         pixel_at img width k = run_px r.
Proof.
  intros width height.
  destruct (PngToData_shape img) as (runs & Hruns & Hdata).
  fold width height in Hruns, Hdata.
  exists runs. split; [exact Hdata|].
  exact (PngToData_runs_tile_loop img width height _ 0 runs Hruns).
Qed.

Lemma PngToData_runs_greedy_loop (img : Image) (width height : Z) :
  forall (fuel : nat) (i : Z) (runs : list Run),
  PngToData_runs fuel img width height i = Some runs ->
  forall pre r1 r2 post,
    runs = pre ++ r1 :: r2 :: post ->
    run_count r1 < 256 -> run_px r1 <> run_px r2.
Proof.
  induction fuel as [|fuel IH]; intros i runs H pre r1 r2 post Heq Hshort.
  - simpl in H. destruct (Z.ltb_spec i (width * height)); [discriminate|].
    injection H as <-. destruct pre; discriminate.
  - destruct (Z.lt_ge_cases i (width * height)) as [Hlt|Hge].
    2:{ rewrite PngToData_runs_step in H.
        destruct (Z.ltb_spec i (width * height)); [lia|].
        injection H as <-. destruct pre; discriminate. }
    apply PngToData_runs_inv in H; [|lia].
    destruct H as (f & count & rest & Hf & Hlen & Hrest & ->).
    injection Hf as <-.
    destruct pre as [|p pre].
    + simpl in Heq. injection Heq as <- ->.
      cbn [run_count run_px] in *.
      apply run_length_spec in Hlen; [|lia|lia].
      destruct Hlen as (Hc & Hfit & _ & [H256|[Hend|Hdiff]]); [lia| |].
      * destruct fuel as [|fuel'].
        { simpl in Hrest.
          destruct (Z.ltb_spec (i + count) (width * height)); [discriminate|].
          discriminate. }
        rewrite PngToData_runs_step in Hrest.
        destruct (Z.ltb_spec (i + count) (width * height)); [lia|discriminate].
      * destruct (Z.lt_ge_cases (i + count) (width * height)) as [Hlt2|Hge2].
        -- apply PngToData_runs_inv in Hrest; [|lia].
           destruct Hrest as (f2 & c2 & rest2 & _ & _ & _ & Hr2).
           injection Hr2 as -> _. simpl. congruence.
        -- destruct fuel as [|fuel'].
           { simpl in Hrest.
             destruct (Z.ltb_spec (i + count) (width * height)); discriminate. }
           rewrite PngToData_runs_step in Hrest.
           destruct (Z.ltb_spec (i + count) (width * height)); [lia|discriminate].
    + simpl in Heq. injection Heq as _ ->.
      exact (IH _ _ Hrest pre r1 r2 post eq_refl Hshort).
Qed.

Lemma PngToData_runs_lookahead_loop (img : Image) (width height : Z) :
  forall (fuel : nat) (i : Z) (runs : list Run),
  PngToData_runs fuel img width height i = Some runs ->
  forall r, In r runs ->
    run_count r < 256 -> run_start r + run_count r < width * height ->
    pixel_at img width (run_start r + run_count r) <> run_px r.
Proof.
  induction fuel as [|fuel IH]; intros i runs H r Hin Hshort Hmore.
  - simpl in H. destruct (Z.ltb_spec i (width * height)); [discriminate|].
    injection H as <-. contradiction.
  - destruct (Z.lt_ge_cases i (width * height)) as [Hlt|Hge].
    2:{ rewrite PngToData_runs_step in H.
        destruct (Z.ltb_spec i (width * height)); [lia|].
        injection H as <-. contradiction. }
    apply PngToData_runs_inv in H; [|lia].
    destruct H as (f & count & rest & Hf & Hlen & Hrest & ->).
    injection Hf as <-.
    destruct Hin as [<-|Hin].
    + cbn [run_count run_px run_start] in *.
      apply run_length_spec in Hlen; [|lia|lia].
      destruct Hlen as (_ & _ & _ & [H256|[Hend|Hdiff]]); [lia|lia|exact Hdiff].
    + exact (IH _ _ Hrest r Hin Hshort Hmore).
Qed.

(** X7. The runs the encoder's loop writes are as long as they can be.
    A run shorter than 256 pixels that does not reach the last pixel is
    followed in the image by a pixel of another colour: the look-ahead
    stopped at that pixel. So a run that is followed by another one and is
    shorter than 256 pixels has a colour different from that of the run
    after it, and two neighbouring runs of the same colour exist only where
    the first is a full run of 256. *)
Theorem PngToData_runs_greedy (img : Image) :
  let width := MaxX (Bounds img) - MinX (Bounds img) in
  let height := MaxY (Bounds img) - MinY (Bounds img) in
  exists runs,
    PngToData_runs (Z.to_nat (width * height)) img width height 0 = Some runs
    /\ PngToData img
       = Some (header_bytes width height (hasAlphaChannel img)
               ++ flat_map (run_bytes (hasAlphaChannel img)) runs)
    /\ (forall r, In r runs ->
          run_count r < 256 -> run_start r + run_count r < width * height ->
          pixel_at img width (run_start r + run_count r) <> run_px r)
    /\ forall pre r1 r2 post,
         runs = pre ++ r1 :: r2 :: post ->
         run_count r1 < 256 -> run_px r1 <> run_px r2.
Proof.
  intros width height.
  destruct (PngToData_shape img) as (runs & Hruns & Hdata).
  fold width height in Hruns, Hdata.
  exists runs. split; [exact Hruns|]. split; [exact Hdata|]. split.
  - exact (PngToData_runs_lookahead_loop img width height _ 0 runs Hruns).
  - exact (PngToData_runs_greedy_loop img width height _ 0 runs Hruns).
Qed.

Lemma runs_tile_length (rs : list Run) :
  forall i stop, runs_tile rs i stop ->
  i + Z.of_nat (length rs) <= stop <= i + 256 * Z.of_nat (length rs).
Proof.
  induction rs as [|r rs IH]; intros i stop H.
  - simpl in *. lia.
  - destruct H as (_ & Hc & H). apply IH in H.
    change (length (r :: rs)) with (S (length rs)). lia.
Qed.

Lemma length_header_bytes (width height : Z) (hasAlpha : bool) :
  length (header_bytes width height hasAlpha) = 12%nat.
Proof. reflexivity. Qed.

Lemma length_run_bytes_exact (hasAlpha : bool) (r : Run) :
  length (run_bytes hasAlpha r) = run_size hasAlpha r.
Proof.
  unfold run_bytes, pixel_bytes, run_size, transparent_run.
  destruct hasAlpha; [|reflexivity].
  destruct (Byte.eqb (cA (run_px r)) x00); reflexivity.
Qed.

Lemma length_runs_bytes_exact (hasAlpha : bool) (rs : list Run) :
  (hasAlpha = false ->
   Z.of_nat (length (flat_map (run_bytes hasAlpha) rs))
   = 4 * Z.of_nat (length rs))
  /\ (hasAlpha = true ->
      Z.of_nat (length (flat_map (run_bytes hasAlpha) rs))
      = 2 * Z.of_nat (length (filter transparent_run rs))
        + 5 * Z.of_nat (length (filter (fun r => negb (transparent_run r)) rs))).
Proof.
  induction rs as [|r rs [IH1 IH2]]; [simpl; lia|].
  cbn [flat_map filter]. rewrite length_app, length_run_bytes_exact.
  change (length (r :: rs)) with (S (length rs)).
  split; intros ->; unfold run_size.
  - specialize (IH1 eq_refl). lia.
  - specialize (IH2 eq_refl).
    destruct (transparent_run r); cbn [negb length]; lia.
Qed.

(** X8. The size of the DATA stream the encoder writes. It is the twelve
    header bytes followed by the bytes of the runs of the loop, one run
    after the other; a run takes exactly 4 bytes without alpha, and with
    alpha exactly 2 bytes when its alpha is 0 and exactly 5 bytes when it
    is not. So the stream has 12 + 4n bytes for n runs without alpha, and
    12 + 2t + 5c bytes with alpha for t runs of alpha 0 and c other runs.
    The number of runs is at most the number of pixels and at least a 256th
    of it. *)
Theorem PngToData_size (img : Image) :
  let width := MaxX (Bounds img) - MinX (Bounds img) in
  let height := MaxY (Bounds img) - MinY (Bounds img) in
  let hasAlpha := hasAlphaChannel img in
  exists data runs,
    PngToData img = Some data
    /\ PngToData_runs (Z.to_nat (width * height)) img width height 0 = Some runs
    /\ data = header_bytes width height hasAlpha
              ++ flat_map (run_bytes hasAlpha) runs
    /\ length (header_bytes width height hasAlpha) = 12%nat
    /\ (forall r, In r runs ->
          length (run_bytes hasAlpha r)
          = if hasAlpha
            then if Byte.eqb (cA (run_px r)) x00 then 2%nat else 5%nat
            else 4%nat)
    /\ (hasAlpha = false ->
        Z.of_nat (length data) = 12 + 4 * Z.of_nat (length runs))
    /\ (hasAlpha = true ->
        Z.of_nat (length data)
        = 12 + 2 * Z.of_nat (length (filter transparent_run runs))
          + 5 * Z.of_nat (length (filter (fun r => negb (transparent_run r)) runs)))
    /\ Z.of_nat (length runs) <= Z.max 0 (width * height)
       <= 256 * Z.of_nat (length runs).
Proof.
  intros width height hasAlpha.
  destruct (PngToData_shape img) as (runs & Hruns & Hdata).
  fold width height hasAlpha in Hruns, Hdata.
  eexists. exists runs. split; [exact Hdata|]. split; [exact Hruns|].
  split; [reflexivity|]. split; [reflexivity|].
  split; [intros r _; apply length_run_bytes_exact|].
  rewrite length_app, length_header_bytes.
  destruct (length_runs_bytes_exact hasAlpha runs) as [L1 L2].
  split; [|split].
  - intros Hf. specialize (L1 Hf). lia.
  - intros Ht. specialize (L2 Ht). lia.
  - pose proof (proj1 (PngToData_runs_tile_loop img width height _ 0 runs Hruns)) as Ht.
    apply runs_tile_length in Ht. lia.
Qed.

Lemma DataToPng_header_refused (width height : Z) (hasAlpha : bool)
    (body : Reader) :
  - 2 ^ 31 <= width < 2 ^ 31 -> - 2 ^ 31 <= height < 2 ^ 31 ->
  width <= 0 \/ height <= 0 \/ 8192 < width \/ 8192 < height ->
  DataToPng (header_bytes width height hasAlpha ++ body)
  = Some (Failed ErrInvalidDimensions, body).
Proof.
  intros Hw Hh Hbad. unfold DataToPng, header_bytes.
  rewrite !int32_small by assumption.
  rewrite <- !app_assoc.
  rewrite binary_Read_int32_put by assumption.
  rewrite binary_Read_int32_put by assumption.
  rewrite binary_Read_int32_put by (destruct hasAlpha; lia).
  destruct (Z.leb_spec width 0); [reflexivity|].
  destruct (Z.leb_spec height 0); [reflexivity|].
  destruct (Z.gtb_spec width 8192); [reflexivity|].
  destruct (Z.gtb_spec height 8192); [reflexivity|].
  lia.
Qed.

(** X9. The encoder does not check the upper bound the decoder puts on
    the dimensions: an image with a side above 8192 (its sides positive, as
    those of every image [png.Decode] returns) is encoded without error,
    and the stream written for it is refused by the decoder with "invalid
    image dimensions". *)
Theorem PngToData_output_refused (img : Image) :
  let width := MaxX (Bounds img) - MinX (Bounds img) in
  let height := MaxY (Bounds img) - MinY (Bounds img) in
  0 < width < 2 ^ 31 -> 0 < height < 2 ^ 31 ->
  8192 < width \/ 8192 < height ->
  exists data rest,
    PngToData img = Some data
    /\ DataToPng data = Some (Failed ErrInvalidDimensions, rest).
Proof.
  intros width height Hw Hh Hbad.
  destruct (PngToData_shape img) as (runs & _ & Hdata).
  fold width height in Hdata.
  eexists. eexists. split; [exact Hdata|].
  apply DataToPng_header_refused; lia.
Qed.

Lemma PngToData_output_refused_witness :
  exists data rest,
    PngToData sample_wide = Some data
    /\ DataToPng data = Some (Failed ErrInvalidDimensions, rest).
Proof.
  apply (PngToData_output_refused sample_wide); simpl; lia.
Defined.

Lemma wide_shiftr (v : byte) :
  uint8 (Z.shiftr (Z.lor (byte_to_Z v) (Z.shiftl (byte_to_Z v) 8)) 8) = v.
Proof.
  pose proof (byte_to_Z_range v) as Hr.
  rewrite Z.shiftr_lor, Z.shiftr_shiftl_l by lia.
  rewrite Z.sub_diag, Z.shiftl_0_r.
  rewrite Z.shiftr_div_pow2 by lia.
  rewrite Z.div_small by (change (2 ^ 8) with 256; lia).
  rewrite Z.lor_0_l. apply uint8_byte_to_Z.
Qed.

(** X10. [getRGBA] gives back the 8-bit channels of an 8-bit colour
    unchanged: where the image holds a [color.RGBA], whose [RGBA()] widens
    each channel [v] to [v | v << 8], the four bytes read are the colour's
    own. *)
Theorem getRGBA_of_8bit_colour (img : Image) (x y : Z) (c : RGBA) :
  At img x y = Color16_of_RGBA c -> getRGBA img x y = c.
Proof.
  intros H. unfold getRGBA. rewrite H. unfold Color16_of_RGBA. simpl.
  rewrite !wide_shiftr. destruct c; reflexivity.
Qed.

Lemma getRGBA_of_8bit_colour_witness :
  getRGBA (mkSource TypeRGBA (mkRect 0 0 1 1)
             (fun _ _ => Color16_of_RGBA (mkRGBA x12 x34 x56 x78))) 0 0
  = mkRGBA x12 x34 x56 x78.
Proof.
  apply getRGBA_of_8bit_colour. reflexivity.
Defined.

(** X11. The DATA stream tells the images apart as far as the wire keeps
    them: two bitmaps that are encoded to the same bytes have the same
    dimensions and, pixel for pixel, the same colour after what the wire
    drops. *)
Theorem PngToData_injective (img1 img2 : Image) (data : list byte) :
  bitmap img1 -> bitmap img2 ->
  PngToData img1 = Some data -> PngToData img2 = Some data ->
  MaxX (Bounds img1) = MaxX (Bounds img2)
  /\ MaxY (Bounds img1) = MaxY (Bounds img2)
  /\ forall x y,
       0 <= x < MaxX (Bounds img1) -> 0 <= y < MaxY (Bounds img1) ->
       wire_pixel (hasAlphaChannel img1) (getRGBA img1 x y)
       = wire_pixel (hasAlphaChannel img2) (getRGBA img2 x y).
Proof.
  intros Hb1 Hb2 H1 H2.
  destruct (roundtrip_wire img1 Hb1) as (d1 & c1 & Hd1 & Hc1 & Hx1 & Hy1 & Hat1).
  destruct (roundtrip_wire img2 Hb2) as (d2 & c2 & Hd2 & Hc2 & Hx2 & Hy2 & Hat2).
  rewrite H1 in Hd1. injection Hd1 as <-.
  rewrite H2 in Hd2. injection Hd2 as <-.
  rewrite Hc1 in Hc2. injection Hc2 as <-.
  assert (Hx : MaxX (Bounds img1) = MaxX (Bounds img2)) by congruence.
  assert (Hy : MaxY (Bounds img1) = MaxY (Bounds img2)) by congruence.
  split; [exact Hx|]. split; [exact Hy|].
  intros x y Hxr Hyr.
  rewrite <- Hat1 by assumption.
  apply Hat2; rewrite <- ?Hx, <- ?Hy; assumption.
Qed.

Lemma PngToData_injective_witness :
  MaxX (Bounds sample_nrgba) = MaxX (Bounds sample_nrgba_tinted)
  /\ MaxY (Bounds sample_nrgba) = MaxY (Bounds sample_nrgba_tinted)
  /\ forall x y,
       0 <= x < MaxX (Bounds sample_nrgba) -> 0 <= y < MaxY (Bounds sample_nrgba) ->
       wire_pixel (hasAlphaChannel sample_nrgba) (getRGBA sample_nrgba x y)
       = wire_pixel (hasAlphaChannel sample_nrgba_tinted)
           (getRGBA sample_nrgba_tinted x y).
Proof.
  eapply (PngToData_injective sample_nrgba sample_nrgba_tinted).
  - unfold bitmap, valid_dims. simpl. lia.
  - unfold bitmap, valid_dims. simpl. lia.
  - reflexivity.
  - vm_compute. reflexivity.
Defined.

(* ------------------------------------------------------------------ *)
(** ** Runs of the worker pool *)

Import PoolRuns.

Lemma weight_init_pool (os : OS) (tasks : list ConversionTask) (maxWorkers : Z) :
  weight (init_pool os tasks maxWorkers)
  = (3 * length tasks + Z.to_nat maxWorkers)%nat.
Proof.
  unfold weight, init_pool. simpl. f_equal.
  induction (Z.to_nat maxWorkers) as [|n IH]; simpl; [reflexivity|].
  rewrite IH. reflexivity.
Qed.

Lemma steps_n_weight (os : OS) (n : nat) (s s' : pool os) :
  steps_n os n s s' -> (n + weight s' <= weight s)%nat.
Proof.
  induction 1 as [s|n s1 s2 s3 Hstep _ IH]; [lia|].
  apply step_weight in Hstep. lia.
Qed.

(** X12. The pool neither deadlocks nor runs for ever, whatever the order
    in which the goroutines are scheduled: a run over N tasks and W workers
    has at most 3*N + W steps (a worker takes a task, finishes it, or
    leaves), and in every state it reaches either all workers have
    returned, so that [wg.Wait()] returns, or some worker can take a
    step. *)
Theorem pool_run_bounded (os : OS) (tasks : list ConversionTask)
    (maxWorkers : Z) (n : nat) (s : pool os) :
  steps_n os n (init_pool os tasks maxWorkers) s ->
  (n <= 3 * length tasks + Z.to_nat maxWorkers)%nat
  /\ (all_exited s \/ exists s', step os s s').
Proof.
  intros Hrun. split.
  - apply steps_n_weight in Hrun. rewrite weight_init_pool in Hrun. lia.
  - destruct (all_exited_dec os s) as [Hex|Hlive]; [left; exact Hex|].
    right. apply step_progress. exact Hlive.
Qed.

Lemma pool_run_bounded_witness :
  (2 <= 3 * length [SampleBatch.bad1_task] + Z.to_nat 1)%nat
  /\ (all_exited
        (mkPool (os := SampleBatch.sample_os) [] [SampleBatch.bad1_error] [Idle] [])
      \/ exists s',
           step SampleBatch.sample_os
             (mkPool [] [SampleBatch.bad1_error] [Idle] []) s').
Proof.
  apply (pool_run_bounded SampleBatch.sample_os [SampleBatch.bad1_task] 1 2).
  eapply steps_n_S;
    [apply (step_receive SampleBatch.sample_os [] [] SampleBatch.bad1_task [] [] [])|].
  eapply steps_n_S;
    [apply (step_failed SampleBatch.sample_os [] [] SampleBatch.bad1_task
              SampleBatch.bad1_error [] [] []); reflexivity|].
  apply steps_n_O.
Defined.

Lemma busy_tasks_repeat_Idle (n : nat) : busy_tasks (repeat Idle n) = [].
Proof. induction n; [reflexivity|assumption]. Qed.

Lemma pool_inv_init (os : OS) (tasks : list ConversionTask) (maxWorkers : Z) :
  pool_inv os tasks (init_pool os tasks maxWorkers).
Proof.
  exists []. unfold init_pool. simpl. rewrite busy_tasks_repeat_Idle.
  repeat split; apply Permutation_refl.
Qed.

Lemma steps_pool_inv (os : OS) (tasks : list ConversionTask) (s s' : pool os) :
  steps os s s' -> pool_inv os tasks s -> pool_inv os tasks s'.
Proof.
  induction 1 as [s|s1 s2 s3 Hstep _ IH]; intros Hinv; [exact Hinv|].
  apply IH. exact (step_inv os tasks _ _ Hstep Hinv).
Qed.

Lemma In_failures (os : OS) (tasks : list ConversionTask) (e : batch_error os) :
  In e (failures os tasks)
  <-> exists t, In t tasks /\ run_task os t = TaskFailed e.
Proof.
  unfold failures. rewrite in_flat_map. split.
  - intros (t & Hin & He). exists t. split; [exact Hin|].
    destruct (run_task os t); simpl in He; try contradiction.
    destruct He as [->|[]]. reflexivity.
  - intros (t & Hin & He). exists t. split; [exact Hin|].
    rewrite He. left. reflexivity.
Qed.

Lemma In_successes (os : OS) (tasks : list ConversionTask) (t : ConversionTask) :
  In t (successes os tasks)
  <-> In t tasks /\ forall e, run_task os t <> TaskFailed e.
Proof.
  unfold successes. rewrite in_flat_map. split.
  - intros (u & Hin & Hu).
    destruct (run_task os u) eqn:E; simpl in Hu; try contradiction;
      destruct Hu as [->|[]]; (split; [exact Hin|rewrite E; discriminate]).
  - intros (Hin & Hok). exists t. split; [exact Hin|].
    destruct (run_task os t) as [e| |]; [destruct (Hok e eq_refl)| |];
      left; reflexivity.
Qed.

Lemma NoDup_successes (os : OS) (tasks : list ConversionTask) :
  NoDup tasks -> NoDup (successes os tasks).
Proof.
  induction 1 as [|t tasks Hnotin _ IH]; [constructor|].
  unfold successes. cbn [flat_map]. fold (successes os tasks).
  destruct (run_task os t); simpl; try exact IH;
    (constructor; [|exact IH]); intros Hin; apply In_successes in Hin;
    apply Hnotin; apply Hin.
Qed.

Lemma make_tasks_index (os : OS) (job : Job) (total : Z) :
  forall (files : list String.string) (i : Z),
  map index (make_tasks os job i total files)
  = map (fun k => i + Z.of_nat k) (seq 1 (length files)).
Proof.
  induction files as [|f files IH]; intros i; [reflexivity|].
  cbn [make_tasks map length seq]. f_equal.
  rewrite IH. rewrite <- (seq_shift (length files) 1), map_map.
  apply map_ext. intros k. lia.
Qed.

Lemma NoDup_make_tasks (os : OS) (job : Job) (total : Z)
    (files : list String.string) (i : Z) :
  NoDup (make_tasks os job i total files).
Proof.
  apply (NoDup_map_inv index). rewrite make_tasks_index.
  apply Finite.Injective_map_NoDup.
  - intros a b Hab. lia.
  - apply seq_NoDup.
Qed.

(** What [convert] reports from line 93 on is sound for every schedule and
    every outcome of the calls of [Close]: an error is the failure to
    create the destination root or the error of a task that did fail; a
    file counted as converted is one whose conversion returned without
    error; and no file is converted twice. *)
Lemma convert_returns_sound (os : OS) (job : Job)
    (files : list String.string) (maxWorkers : Z)
    (result : option (batch_error os)) (done : list ConversionTask) :
  convert_returns os job files maxWorkers result done ->
  (forall e, result = Some e ->
     (exists e0, MkdirAll os (toDir job) = Some e0
                 /\ e = ErrMkdir (toDir job) e0)
     \/ exists t, In t (tasks_of os job files) /\ run_task os t = TaskFailed e)
  /\ (forall t, In t done ->
        In t (tasks_of os job files) /\ forall e, run_task os t <> TaskFailed e)
  /\ NoDup done.
Proof.
  intros H. destruct H as [Hnil|e0 Hne Hroot|s Hne Hroot Hrun Hex].
  - split; [intros e He; discriminate|].
    split; [intros t []|constructor].
  - split; [|split; [intros t []|constructor]].
    intros e He. injection He as <-. left. exists e0. split; auto.
  - fold (tasks_of os job files) in Hrun.
    destruct (steps_pool_inv os (tasks_of os job files) _ _ Hrun
                (pool_inv_init os _ maxWorkers))
      as (processed & Ht & He & Hd).
    assert (Hsub : forall t, In t processed -> In t (tasks_of os job files)).
    { intros t Hin. apply (Permutation_in _ (Permutation_sym Ht)).
      apply in_or_app. left. exact Hin. }
    assert (Hnd : NoDup processed).
    { apply (NoDup_app_remove_r _ (busy_tasks (workers s) ++ taskQueue s)).
      apply (Permutation_NoDup Ht). apply NoDup_make_tasks. }
    split; [|split].
    + intros e Hres. right.
      assert (Hin : In e (errChan s)).
      { destruct (errChan s) as [|e' errs]; [discriminate|].
        injection Hres as <-. left. reflexivity. }
      apply (Permutation_in _ He) in Hin. apply In_failures in Hin.
      destruct Hin as (t & Hin & Hfail). exists t. split; auto.
    + intros t Hin. apply (Permutation_in _ Hd) in Hin.
      apply In_successes in Hin. destruct Hin as [Hin Hok]. split; auto.
    + apply (Permutation_NoDup (Permutation_sym Hd)).
      apply NoDup_successes. exact Hnd.
Qed.

Lemma app_cons_singleton {A : Type} (l1 l2 : list A) (a b : A) :
  l1 ++ a :: l2 = [b] -> l1 = [] /\ a = b /\ l2 = [].
Proof.
  destruct l1 as [|x l1]; simpl; intros H.
  - injection H as -> ->. auto.
  - injection H as _ H. destruct l1; discriminate.
Qed.

Lemma one_worker_run (os : OS) (s s' : pool os) :
  steps os s s' -> all_exited s' ->
  forall queue errs w done,
  s = mkPool queue errs [w] done ->
  errChan s' = errs ++ fst (worker_run os w queue)
  /\ converted s' = rev (snd (worker_run os w queue)) ++ done.
Proof.
  induction 1 as [s|s1 s2 s3 Hstep _ IH]; intros Hex queue errs w done ->.
  - unfold all_exited in Hex. simpl in Hex.
    inversion Hex as [|w' ws' Hw _]; subst. simpl.
    rewrite app_nil_r. auto.
  - specialize (IH Hex).
    inversion Hstep as [ws1 ws2 task q es ds Heq
                       |ws1 ws2 es ds Heq
                       |ws1 ws2 task e q es ds Hres Heq
                       |ws1 ws2 task q es ds Hres Heq
                       |ws1 ws2 task q es ds Hres Heq];
      subst;
      match goal with
      | Hws : _ ++ _ :: _ = [_] |- _ =>
          apply app_cons_singleton in Hws; destruct Hws as (-> & <- & ->)
      end;
      simpl app in *.
    + destruct (IH _ _ _ _ eq_refl) as [He Hd]. rewrite He, Hd. auto.
    + destruct (IH _ _ _ _ eq_refl) as [He Hd]. rewrite He, Hd. auto.
    + destruct (IH _ _ _ _ eq_refl) as [He Hd]. rewrite He, Hd.
      unfold worker_run. cbn [run_in_order]. rewrite Hres.
      destruct (run_in_order os queue) as [es' ds']. simpl.
      rewrite <- app_assoc. auto.
    + destruct (IH _ _ _ _ eq_refl) as [He Hd]. rewrite He, Hd.
      unfold worker_run. cbn [run_in_order]. rewrite Hres. simpl.
      rewrite app_nil_r. auto.
    + destruct (IH _ _ _ _ eq_refl) as [He Hd]. rewrite He, Hd.
      unfold worker_run. cbn [run_in_order]. rewrite Hres.
      destruct (run_in_order os queue) as [es' ds']. simpl.
      rewrite <- app_assoc. auto.
Qed.

Lemma convert_one_worker (os : OS) (job : Job) (files : list String.string)
    (result : option (batch_error os)) (done : list ConversionTask) :
  MkdirAll os (toDir job) = None ->
  convert_returns os job files 1 result done ->
  result = first_error (fst (run_in_order os (tasks_of os job files)))
  /\ done = rev (snd (run_in_order os (tasks_of os job files))).
Proof.
  intros Hroot H. destruct H as [->|e0 _ Hfail|s _ _ Hrun Hex].
  - auto.
  - congruence.
  - destruct (one_worker_run os _ _ Hrun Hex _ _ _ _ eq_refl) as [He Hd].
    simpl in He, Hd. rewrite app_nil_r in Hd. rewrite He, Hd. auto.
Qed.

Lemma run_in_order_no_close (os : OS) (tasks : list ConversionTask) :
  (forall t, In t tasks -> run_task os t <> WorkerReturns) ->
  run_in_order os tasks = (failures os tasks, successes os tasks).
Proof.
  induction tasks as [|t tasks IH]; intros Hclose; [reflexivity|].
  unfold failures, successes. cbn [run_in_order flat_map].
  fold (failures os tasks). fold (successes os tasks).
  rewrite IH by (intros u Hu; apply Hclose; right; exact Hu).
  destruct (run_task os t) eqn:E; try reflexivity.
  exfalso. apply (Hclose t); [left; reflexivity|exact E].
Qed.

Lemma run_in_order_close (os : OS) (pre post : list ConversionTask)
    (t : ConversionTask) :
  (forall u, In u pre -> run_task os u <> WorkerReturns) ->
  run_task os t = WorkerReturns ->
  run_in_order os (pre ++ t :: post) = (failures os pre, successes os pre ++ [t]).
Proof.
  intros Hpre Ht. induction pre as [|u pre IH].
  - simpl. rewrite Ht. reflexivity.
  - unfold failures, successes. cbn [app run_in_order flat_map].
    fold (failures os pre). fold (successes os pre).
    rewrite IH by (intros v Hv; apply Hpre; right; exact Hv).
    destruct (run_task os u) eqn:E; try reflexivity.
    exfalso. apply (Hpre u); [left; reflexivity|exact E].
Qed.

(** X14. One worker ([-workers 1]) makes the batch sequential: when no
    [Close] fails, the files are converted in the order of the scan and the
    error returned is that of the first file, in that order, that fails. *)
Theorem convert_one_worker_in_order (os : OS) (job : Job)
    (files : list String.string)
    (result : option (batch_error os)) (done : list ConversionTask) :
  MkdirAll os (toDir job) = None ->
  (forall t, In t (tasks_of os job files) -> run_task os t <> WorkerReturns) ->
  convert_returns os job files 1 result done ->
  result = first_error (failures os (tasks_of os job files))
  /\ rev done = successes os (tasks_of os job files).
Proof.
  intros Hroot Hclose H.
  destruct (convert_one_worker os job files result done Hroot H) as [-> ->].
  rewrite run_in_order_no_close by exact Hclose. simpl.
  rewrite rev_involutive. auto.
Qed.

Lemma convert_one_worker_in_order_witness :
  Some SampleBatch.bad1_error
  = first_error
      (failures SampleBatch.sample_os
         (tasks_of SampleBatch.sample_os SampleBatch.sample_job
            SampleBatch.two_bad_files))
  /\ rev [] = successes SampleBatch.sample_os
                (tasks_of SampleBatch.sample_os SampleBatch.sample_job
                   SampleBatch.two_bad_files).
Proof.
  pose (os := SampleBatch.sample_os).
  pose (t1 := SampleBatch.bad1_task). pose (t2 := SampleBatch.bad2_task).
  pose (e1 := SampleBatch.bad1_error). pose (e2 := SampleBatch.bad2_error).
  apply (convert_one_worker_in_order os SampleBatch.sample_job
           SampleBatch.two_bad_files).
  - reflexivity.
  - intros t Hin. simpl in Hin.
    destruct Hin as [<-|[<-|[]]]; vm_compute; discriminate.
  - apply (convert_pool os SampleBatch.sample_job SampleBatch.two_bad_files 1
             (mkPool [] [e1; e2] [Exited] []));
      [discriminate | reflexivity | | repeat constructor].
    eapply steps_cons; [apply (step_receive os [] [] t1 [t2] [] [])|].
    eapply steps_cons; [apply (step_failed os [] [] t1 e1 [t2] [] []); reflexivity|].
    eapply steps_cons; [apply (step_receive os [] [] t2 [] [e1] [])|].
    eapply steps_cons; [apply (step_failed os [] [] t2 e2 [] [e1] []); reflexivity|].
    eapply steps_cons; [apply (step_drained os [] [] [e1; e2] [])|].
    apply steps_refl.
Defined.

(** X15. A failing [Close] ends the worker without a word: with one worker,
    when the [Close] of a file fails after its conversion, none of the
    files after it in the scan is converted or reported, and the batch
    returns what the files before it gave, [nil] when none of them
    failed. *)
Theorem convert_close_failure_abandons (os : OS) (job : Job)
    (files : list String.string) (pre post : list ConversionTask)
    (t : ConversionTask)
    (result : option (batch_error os)) (done : list ConversionTask) :
  MkdirAll os (toDir job) = None ->
  tasks_of os job files = pre ++ t :: post ->
  (forall u, In u pre -> run_task os u <> WorkerReturns) ->
  run_task os t = WorkerReturns ->
  convert_returns os job files 1 result done ->
  result = first_error (failures os pre)
  /\ rev done = successes os pre ++ [t].
Proof.
  intros Hroot Htasks Hpre Ht H.
  destruct (convert_one_worker os job files result done Hroot H) as [-> ->].
  rewrite Htasks, (run_in_order_close os pre post t Hpre Ht). simpl.
  rewrite rev_involutive. auto.
Qed.

Lemma convert_close_failure_abandons_witness :
  @None (batch_error SampleClose.close_os)
  = first_error (failures SampleClose.close_os [])
  /\ rev [SampleClose.a_task]
     = successes SampleClose.close_os [] ++ [SampleClose.a_task].
Proof.
  pose (os := SampleClose.close_os).
  pose (a := SampleClose.a_task). pose (b := SampleClose.bad_task).
  apply (convert_close_failure_abandons os SampleBatch.sample_job
           SampleClose.close_files [] [b] a).
  - reflexivity.
  - reflexivity.
  - intros u [].
  - reflexivity.
  - apply (convert_pool os SampleBatch.sample_job SampleClose.close_files 1
             (mkPool [b] [] [Exited] [a]));
      [discriminate | reflexivity | | repeat constructor].
    eapply steps_cons; [apply (step_receive os [] [] a [b] [] [])|].
    eapply steps_cons; [apply (step_returns os [] [] a [b] [] []); reflexivity|].
    apply steps_refl.
Defined.

Lemma alive_app (ws1 ws2 : list worker) (w : worker) :
  alive (ws1 ++ w :: ws2) = (alive ws1 + alive [w] + alive ws2)%nat.
Proof.
  unfold alive. rewrite filter_app, length_app. simpl.
  destruct w; simpl; lia.
Qed.

Lemma alive_repeat_Idle (n : nat) : alive (repeat Idle n) = n.
Proof.
  unfold alive. induction n as [|n IH]; [reflexivity|]. simpl. rewrite IH.
  reflexivity.
Qed.

Lemma alive_exited (ws : list worker) :
  Forall (fun w => w = Exited) ws -> alive ws = 0%nat.
Proof.
  unfold alive. induction 1 as [|w ws -> _ IH]; [reflexivity|exact IH].
Qed.

Lemma step_staffed (os : OS) (maxWorkers : Z) (s s' : pool os) :
  step os s s' -> pool_staffed os maxWorkers s -> pool_staffed os maxWorkers s'.
Proof.
  unfold pool_staffed.
  intros Hstep Hs.
  destruct Hstep as [ws1 ws2 task queue errs done
                    |ws1 ws2 errs done
                    |ws1 ws2 task e queue errs done Hres
                    |ws1 ws2 task queue errs done Hres
                    |ws1 ws2 task queue errs done Hres];
    simpl in *; rewrite ?alive_app in *;
    change (alive [Idle]) with 1%nat in *;
    change (alive [Exited]) with 0%nat in *;
    try change (alive [Busy task]) with 1%nat in *;
    unfold close_failures in *; cbn [filter] in *; rewrite ?Hres in *;
    cbn [length] in *.
  - destruct Hs as [Hs|Hs]; [discriminate|]. right. lia.
  - left. reflexivity.
  - destruct Hs as [Hs|Hs]; [left; exact Hs|right; lia].
  - destruct Hs as [Hs|Hs]; [left; exact Hs|right; lia].
  - destruct Hs as [Hs|Hs]; [left; exact Hs|right; lia].
Qed.

Lemma steps_staffed (os : OS) (maxWorkers : Z) (s s' : pool os) :
  steps os s s' -> pool_staffed os maxWorkers s -> pool_staffed os maxWorkers s'.
Proof.
  induction 1 as [s|s1 s2 s3 Hstep _ IH]; intros Hs; [exact Hs|].
  apply IH. exact (step_staffed os maxWorkers _ _ Hstep Hs).
Qed.

Lemma close_failures_perm (os : OS) (l l' : list ConversionTask) :
  Permutation l l' ->
  length (close_failures os l) = length (close_failures os l').
Proof.
  unfold close_failures.
  induction 1 as [|x l l' _ IH|x y l|l l' l'' _ IH1 _ IH2]; simpl.
  - reflexivity.
  - destruct (run_task os x); simpl; rewrite IH; reflexivity.
  - destruct (run_task os x); destruct (run_task os y); reflexivity.
  - rewrite IH1. exact IH2.
Qed.

Lemma close_failures_successes (os : OS) (l : list ConversionTask) :
  close_failures os (successes os l) = close_failures os l.
Proof.
  unfold close_failures, successes.
  induction l as [|t l IH]; [reflexivity|].
  cbn [flat_map filter].
  destruct (run_task os t) eqn:E; simpl; rewrite ?E, IH; reflexivity.
Qed.

Lemma pool_final_staffed (os : OS) (tasks : list ConversionTask)
    (maxWorkers : Z) (s : pool os) :
  Z.of_nat (length (close_failures os tasks)) < maxWorkers ->
  steps os (init_pool os tasks maxWorkers) s -> all_exited s ->
  Permutation (errChan s) (failures os tasks)
  /\ Permutation (converted s) (successes os tasks).
Proof.
  intros Hfew Hrun Hex.
  destruct (steps_pool_inv os tasks _ _ Hrun (pool_inv_init os tasks maxWorkers))
    as (processed & Ht & He & Hd).
  assert (Hstaff : pool_staffed os maxWorkers s).
  { apply (steps_staffed os maxWorkers _ _ Hrun).
    right. unfold init_pool. simpl. rewrite alive_repeat_Idle. lia. }
  rewrite (busy_tasks_exited _ Hex) in Ht. simpl in Ht.
  assert (Hq : taskQueue s = []).
  { destruct Hstaff as [Hq|Hq]; [exact Hq|].
    rewrite (alive_exited _ Hex) in Hq.
    rewrite (close_failures_perm os _ _ Hd), close_failures_successes in Hq.
    rewrite (close_failures_perm os _ _ Ht) in Hfew.
    unfold close_failures in Hfew, Hq. rewrite filter_app, length_app in Hfew.
    lia. }
  rewrite Hq, app_nil_r in Ht.
  split.
  - rewrite He. unfold failures. rewrite Ht. reflexivity.
  - rewrite Hd. unfold successes. rewrite Ht. reflexivity.
Qed.

(** X16. Failing calls of [Close] lose no file as long as they are fewer
    than the workers: however the goroutines are scheduled, every file is
    then run through, the files converted are those whose conversion
    returns without error, and the batch returns an error exactly when some
    file fails, the error being that of one of the failing files. *)
Theorem convert_survives_close_failures (os : OS) (job : Job)
    (files : list String.string) (maxWorkers : Z)
    (result : option (batch_error os)) (done : list ConversionTask) :
  MkdirAll os (toDir job) = None ->
  Z.of_nat (length (close_failures os (tasks_of os job files))) < maxWorkers ->
  convert_returns os job files maxWorkers result done ->
  Permutation done (successes os (tasks_of os job files))
  /\ (result = None <-> failures os (tasks_of os job files) = [])
  /\ (forall e, result = Some e -> In e (failures os (tasks_of os job files))).
Proof.
  intros Hroot Hfew H.
  assert (Hfinal : exists errs,
            Permutation errs (failures os (tasks_of os job files))
            /\ result = first_error errs
            /\ Permutation done (successes os (tasks_of os job files))).
  { destruct H as [Hnil|e Hne Hfail|s Hne _ Hrun Hex].
    - exists []. rewrite Hnil. simpl. repeat split; apply Permutation_refl.
    - congruence.
    - destruct (pool_final_staffed os _ maxWorkers s Hfew Hrun Hex) as [He Hd].
      exists (errChan s). repeat split; assumption. }
  destruct Hfinal as (errs & Herrs & -> & Hdone).
  split; [exact Hdone|]. split; [split|].
  - intros Hnone. destruct errs as [|e errs]; [|discriminate].
    apply Permutation_nil in Herrs. exact Herrs.
  - intros Hnil. rewrite Hnil in Herrs. apply Permutation_sym in Herrs.
    apply Permutation_nil in Herrs. subst. reflexivity.
  - intros e He. apply (Permutation_in _ Herrs).
    destruct errs as [|e' errs]; [discriminate|].
    injection He as <-. left. reflexivity.
Qed.

Lemma convert_survives_close_failures_witness :
  Permutation [SampleClose.a_task]
    (successes SampleClose.close_os
       (tasks_of SampleClose.close_os SampleBatch.sample_job
          SampleClose.close_files))
  /\ (Some SampleClose.bad_error = None
      <-> failures SampleClose.close_os
            (tasks_of SampleClose.close_os SampleBatch.sample_job
               SampleClose.close_files) = [])
  /\ (forall e, Some SampleClose.bad_error = Some e ->
        In e (failures SampleClose.close_os
                (tasks_of SampleClose.close_os SampleBatch.sample_job
                   SampleClose.close_files))).
Proof.
  pose (os := SampleClose.close_os).
  pose (a := SampleClose.a_task). pose (b := SampleClose.bad_task).
  pose (e := SampleClose.bad_error).
  apply (convert_survives_close_failures os SampleBatch.sample_job
           SampleClose.close_files 2).
  - reflexivity.
  - vm_compute. reflexivity.
  - apply (convert_pool os SampleBatch.sample_job SampleClose.close_files 2
             (mkPool [] [e] [Exited; Exited] [a]));
      [discriminate | reflexivity | | repeat constructor].
    eapply steps_cons; [apply (step_receive os [] [Idle] a [b] [] [])|].
    eapply steps_cons; [apply (step_returns os [] [Idle] a [b] [] []); reflexivity|].
    eapply steps_cons; [apply (step_receive os [Exited] [] b [] [] [a])|].
    eapply steps_cons; [apply (step_failed os [Exited] [] b e [] [] [a]); reflexivity|].
    eapply steps_cons; [apply (step_drained os [Exited] [] [e] [a])|].
    apply steps_refl.
Defined.

(* ------------------------------------------------------------------ *)
(** ** The tasks, the scan and the command line *)

Lemma make_tasks_relPath (os : OS) (job : Job) (total : Z) :
  forall (files : list String.string) (i : Z),
  map relPath (make_tasks os job i total files) = files.
Proof.
  induction files as [|f files IH]; intros i; [reflexivity|].
  cbn [make_tasks map]. rewrite IH. reflexivity.
Qed.

Lemma make_tasks_paths (os : OS) (job : Job) (total : Z) :
  forall (files : list String.string) (i : Z),
  Forall (fun t =>
    totalFiles t = total
    /\ inputPath t = Join os (fromDir job) (relPath t)
    /\ outputPath t
       = Join os (Join os (toDir job) (Dir os (relPath t)))
           (String.append (TrimSuffix os (Base os (relPath t)) (fromExt job))
              (toExt job)))
    (make_tasks os job i total files).
Proof.
  induction files as [|f files IH]; intros i; constructor.
  - simpl. auto.
  - apply IH.
Qed.

(** X17. The tasks queued for the scanned files: one task per file, in the
    order of the scan, numbered 1, 2, ..., N with N the number of files in
    each of them (the "[k/N]" of the log), no two tasks alike. The input
    of a task is the file under the source directory, its output lies
    under the destination directory at the same relative directory. *)
Theorem tasks_of_numbering (os : OS) (job : Job) (files : list String.string) :
  map relPath (tasks_of os job files) = files
  /\ map index (tasks_of os job files) = map Z.of_nat (seq 1 (length files))
  /\ NoDup (tasks_of os job files)
  /\ Forall (fun t =>
        totalFiles t = Z.of_nat (length files)
        /\ inputPath t = Join os (fromDir job) (relPath t)
        /\ outputPath t
           = Join os (Join os (toDir job) (Dir os (relPath t)))
               (String.append (TrimSuffix os (Base os (relPath t)) (fromExt job))
                  (toExt job)))
       (tasks_of os job files).
Proof.
  unfold tasks_of. split; [apply make_tasks_relPath|].
  split; [rewrite make_tasks_index; reflexivity|].
  split; [apply NoDup_make_tasks|apply make_tasks_paths].
Qed.

Lemma SetMaxWorkers_fold (calls : list Z) :
  forall w, 1 <= w ->
  1 <= fold_left SetMaxWorkers calls w
  /\ (fold_left SetMaxWorkers calls w = w
      \/ In (fold_left SetMaxWorkers calls w) calls).
Proof.
  induction calls as [|c calls IH]; intros w Hw; simpl; [auto|].
  assert (Hc : 1 <= SetMaxWorkers w c
               /\ (SetMaxWorkers w c = w \/ SetMaxWorkers w c = c)).
  { unfold SetMaxWorkers. destruct (Z.gtb_spec c 0); lia. }
  destruct Hc as [Hpos Hcase].
  destruct (IH _ Hpos) as [H1 [H2|H2]]; split; auto.
  rewrite H2. destruct Hcase as [->| ->]; auto.
Qed.

(** X18. The number of workers of a files converter is always at least 1
    (on a machine with at least one CPU): it starts as the number of CPUs
    capped at 8, and after any series of calls of [SetMaxWorkers] it is
    either that value or one of the values asked for; a request for zero or
    fewer workers changes nothing. *)
Theorem configure_workers (numCPU : Z) (calls : list Z) :
  1 <= numCPU ->
  1 <= configure numCPU calls
  /\ (configure numCPU calls = Z.min numCPU 8 \/ In (configure numCPU calls) calls)
  /\ (Forall (fun w => w <= 0) calls -> configure numCPU calls = Z.min numCPU 8).
Proof.
  intros Hcpu. unfold configure.
  assert (Hnew : NewFilesConverter numCPU = Z.min numCPU 8).
  { unfold NewFilesConverter. destruct (Z.gtb_spec numCPU 8); lia. }
  rewrite Hnew.
  destruct (SetMaxWorkers_fold calls (Z.min numCPU 8) ltac:(lia)) as [H1 H2].
  split; [exact H1|]. split; [exact H2|].
  intros Hall. destruct H2 as [H2|H2]; [exact H2|].
  rewrite Forall_forall in Hall. apply Hall in H2. lia.
Qed.

Lemma configure_workers_witness :
  1 <= configure 16 [0; 4; -1]
  /\ (configure 16 [0; 4; -1] = Z.min 16 8 \/ In (configure 16 [0; 4; -1]) [0; 4; -1])
  /\ (Forall (fun w => w <= 0) [0; 4; -1] -> configure 16 [0; 4; -1] = Z.min 16 8).
Proof.
  apply (configure_workers 16 [0; 4; -1]). lia.
Defined.

(** X19. Through the command line the cap of 8 workers applies only when
    [-workers] is given a value of zero or less: without the flag its
    default, the number of CPUs, is handed to [SetMaxWorkers] and becomes
    the number of workers, however large; a positive value of the flag is
    taken as it is. *)
Theorem main_workers {E : Type} (numCPU : Z) (Abs : String.string -> E + String.string)
    (workers_flag : option Z) (args : list String.string)
    (c : Main.command) (fromPath toPath : String.string) (maxWorkers : Z) :
  1 <= numCPU ->
  Main.main numCPU Abs workers_flag args = Main.Convert c fromPath toPath maxWorkers ->
  maxWorkers
  = match workers_flag with
    | None => numCPU
    | Some n => if 0 <? n then n else Z.min numCPU 8
    end.
Proof.
  intros Hcpu H. unfold Main.main in H.
  destruct args as [|cmd [|from [|to rest]]]; try discriminate.
  destruct (Abs from) as [e|fp]; [discriminate|].
  destruct (Abs to) as [e|tp]; [discriminate|].
  assert (Hw : (let workers := match workers_flag with Some n => n | None => numCPU end in
                if workers >? 0
                then SetMaxWorkers (NewFilesConverter numCPU) workers
                else NewFilesConverter numCPU) = maxWorkers).
  { cbv zeta in *.
    destruct (String.eqb cmd _); [injection H as _ _ _ H; exact H|].
    destruct (String.eqb cmd _); [injection H as _ _ _ H; exact H|discriminate]. }
  rewrite <- Hw. cbv zeta. unfold SetMaxWorkers, NewFilesConverter.
  destruct workers_flag as [n|].
  - destruct (Z.gtb_spec n 0); destruct (Z.ltb_spec 0 n); try lia.
    destruct (Z.gtb_spec numCPU 8); lia.
  - destruct (Z.gtb_spec numCPU 0); lia.
Qed.

Lemma main_workers_witness :
  16 = match @None Z with
       | None => 16
       | Some n => if 0 <? n then n else Z.min 16 8
       end.
Proof.
  apply (main_workers (E := unit) 16 (fun s => inr s) None Main.sample_args
           Main.data2png Main.sample_from Main.sample_to 16).
  - lia.
  - reflexivity.
Defined.

Lemma Walk_selected {os : OS} (p : Scan.Paths os) (job : Job) :
  forall (visits : list (Scan.visit os)) (acc files : list String.string),
  Scan.Walk p job visits acc = inr files ->
  Forall (fun v => Scan.err v = None) visits
  /\ exists found,
       files = acc ++ found
       /\ Forall2 (fun v relPath =>
                     Scan.Rel p (fromDir job) (Scan.path v) = inr relPath)
            (filter (Scan.selected p job) visits) found.
Proof.
  induction visits as [|v visits IH]; intros acc files H.
  - simpl in H. injection H as <-. split; [constructor|].
    exists []. rewrite app_nil_r. split; [reflexivity|constructor].
  - cbn [Scan.Walk] in H. unfold Scan.walk_func in H.
    destruct (Scan.err v) as [e|] eqn:Eerr; [discriminate|].
    cbn [filter].
    destruct (Scan.selected p job v) eqn:Esel.
    + destruct (Scan.Rel p (fromDir job) (Scan.path v)) as [e|rel] eqn:Erel;
        [discriminate|].
      destruct (IH _ _ H) as (Hall & found & -> & Hfound).
      split; [constructor; assumption|].
      exists (rel :: found). rewrite <- app_assoc. split; [reflexivity|].
      constructor; assumption.
    + destruct (IH _ _ H) as (Hall & found & -> & Hfound).
      split; [constructor; assumption|].
      exists found. split; [reflexivity|exact Hfound].
Qed.

Lemma Walk_fails {os : OS} (p : Scan.Paths os) (job : Job) :
  forall (visits : list (Scan.visit os)) (acc : list String.string) (e : oserror os),
  Scan.Walk p job visits acc = inl e ->
  exists before v after,
    visits = before ++ v :: after
    /\ Forall (fun u => Scan.err u = None) before
    /\ (Scan.err v = Some e
        \/ (Scan.err v = None /\ Scan.selected p job v = true
            /\ Scan.Rel p (fromDir job) (Scan.path v) = inl e)).
Proof.
  induction visits as [|v visits IH]; intros acc e H; [discriminate|].
  cbn [Scan.Walk] in H.
  destruct (Scan.walk_func p job acc v) as [e'|files'] eqn:Ef.
  - injection H as ->. exists [], v, visits. split; [reflexivity|].
    split; [constructor|].
    unfold Scan.walk_func in Ef.
    destruct (Scan.err v) as [e0|]; [injection Ef as ->; left; reflexivity|].
    destruct (Scan.selected p job v); [|discriminate].
    destruct (Scan.Rel p (fromDir job) (Scan.path v)) as [e1|]; [|discriminate].
    injection Ef as ->. right. auto.
  - destruct (IH _ _ H) as (before & u & after & -> & Hb & Hu).
    exists (v :: before), u, after. split; [reflexivity|].
    split; [|exact Hu]. constructor; [|exact Hb].
    unfold Scan.walk_func in Ef.
    destruct (Scan.err v); [discriminate|reflexivity].
Qed.

(** X20. What the scan selects. When the walk returns without error, no
    entry carried an error, and the files to convert are the paths,
    relative to the source directory and in the order of the walk, of
    exactly the entries that are not directories and whose lower-cased path
    ends with the lower-cased source extension. When it returns an error,
    that is the error of the first entry that carried one or could not be
    made relative. *)
Theorem Walk_result {os : OS} (p : Scan.Paths os) (job : Job)
    (visits : list (Scan.visit os)) :
  match Scan.Walk p job visits [] with
  | inr files =>
      Forall (fun v => Scan.err v = None) visits
      /\ Forall2 (fun v relPath =>
                    Scan.Rel p (fromDir job) (Scan.path v) = inr relPath)
           (filter (fun v => negb (Scan.IsDir v)
                             && Scan.HasSuffix p (Scan.ToLower p (Scan.path v))
                                  (Scan.ToLower p (fromExt job)))
              visits)
           files
  | inl e =>
      exists before v after,
        visits = before ++ v :: after
        /\ Forall (fun u => Scan.err u = None) before
        /\ (Scan.err v = Some e
            \/ (Scan.err v = None /\ Scan.selected p job v = true
                /\ Scan.Rel p (fromDir job) (Scan.path v) = inl e))
  end.
Proof.
  destruct (Scan.Walk p job visits []) as [e|files] eqn:H.
  - exact (Walk_fails p job visits [] e H).
  - destruct (Walk_selected p job visits [] files H) as (Hall & found & -> & Hf).
    split; [exact Hall|exact Hf].
Qed.

Lemma string_length_append (s t : String.string) :
  String.length (String.append s t) = (String.length s + String.length t)%nat.
Proof. induction s as [|c s IH]; simpl; [reflexivity|]. rewrite IH. reflexivity. Qed.

Lemma substring_skip (s t : String.string) (m : nat) :
  String.substring (String.length s) m (String.append s t) = String.substring 0 m t.
Proof. induction s as [|c s IH]; simpl; [reflexivity|exact IH]. Qed.

Lemma substring_all (t : String.string) (m : nat) :
  (String.length t <= m)%nat -> String.substring 0 m t = t.
Proof.
  revert m. induction t as [|c t IH]; intros m Hm.
  - destruct m; reflexivity.
  - destruct m as [|m]; simpl in *; [lia|]. rewrite IH by lia. reflexivity.
Qed.

Lemma substring_take (s t : String.string) :
  String.substring 0 (String.length s) (String.append s t) = s.
Proof. induction s as [|c s IH]; simpl; [destruct t; reflexivity|]. rewrite IH. reflexivity. Qed.

Lemma substring_split (s : String.string) :
  forall n, (n <= String.length s)%nat ->
  s = String.append (String.substring 0 n s)
        (String.substring n (String.length s - n) s).
Proof.
  induction s as [|c s IH]; intros n Hn.
  - destruct n; [reflexivity|simpl in Hn; lia].
  - destruct n as [|n].
    + simpl. rewrite substring_all by lia. reflexivity.
    + simpl in *. rewrite <- IH by lia. reflexivity.
Qed.

Lemma TrimSuffix_suffix (stem suffix : String.string) :
  SampleBatch.TrimSuffix (String.append stem suffix) suffix = stem.
Proof.
  unfold SampleBatch.TrimSuffix.
  rewrite string_length_append.
  replace (String.length stem + String.length suffix - String.length suffix)%nat
    with (String.length stem) by lia.
  rewrite substring_skip, substring_all by lia.
  rewrite String.eqb_refl. apply substring_take.
Qed.

Lemma TrimSuffix_other (s suffix : String.string) :
  (forall stem, s <> String.append stem suffix) ->
  SampleBatch.TrimSuffix s suffix = s.
Proof.
  intros Hno. unfold SampleBatch.TrimSuffix.
  destruct (String.eqb_spec
              (String.substring (String.length s - String.length suffix)
                 (String.length suffix) s) suffix) as [Heq|Hne]; [|reflexivity].
  exfalso.
  destruct (Nat.le_gt_cases (String.length suffix) (String.length s)) as [Hle|Hgt].
  - apply (Hno (String.substring 0 (String.length s - String.length suffix) s)).
    pose proof (substring_split s (String.length s - String.length suffix)
                  ltac:(lia)) as Hs.
    replace (String.length s - (String.length s - String.length suffix))%nat
      with (String.length suffix) in Hs by lia.
    rewrite Heq in Hs. exact Hs.
  - replace (String.length s - String.length suffix)%nat with 0%nat in Heq by lia.
    rewrite substring_all in Heq by lia.
    apply (Hno String.EmptyString). rewrite Heq. reflexivity.
Qed.

(** X21. How the output file of a task is named. Where the base name of
    the input file ends with the source extension as [convert] was given
    it, that extension is replaced by the target extension. Where it does
    not (the scan compares lower-cased names, so a file [X.DATA] is
    selected for the extension [.data]), the target extension is appended
    to the whole name. Either way the file goes to the relative directory
    of the input under the destination directory. *)
Theorem output_naming (os : OS) (job : Job) (files : list String.string)
    (t : ConversionTask) :
  Names.trims_suffix os ->
  In t (tasks_of os job files) ->
  let outputDir := Join os (toDir job) (Dir os (relPath t)) in
  (forall stem,
     Base os (relPath t) = String.append stem (fromExt job) ->
     outputPath t = Join os outputDir (String.append stem (toExt job)))
  /\ ((forall stem, Base os (relPath t) <> String.append stem (fromExt job)) ->
      outputPath t
      = Join os outputDir (String.append (Base os (relPath t)) (toExt job))).
Proof.
  intros Htrim Hin outputDir.
  pose proof (make_tasks_paths os job (Z.of_nat (length files)) files 0) as Hall.
  rewrite Forall_forall in Hall. destruct (Hall t Hin) as (_ & _ & Hout).
  rewrite Htrim in Hout. fold outputDir in Hout.
  split.
  - intros stem Hbase. rewrite Hout, Hbase, TrimSuffix_suffix. reflexivity.
  - intros Hno. rewrite Hout, (TrimSuffix_other _ _ Hno). reflexivity.
Qed.

Lemma output_naming_witness :
  let os := SampleBatch.sample_os in
  let job := SampleBatch.sample_job in
  let t := SampleBatch.bad1_task in
  let outputDir := Join os (toDir job) (Dir os (relPath t)) in
  (forall stem,
     Base os (relPath t) = String.append stem (fromExt job) ->
     outputPath t = Join os outputDir (String.append stem (toExt job)))
  /\ ((forall stem, Base os (relPath t) <> String.append stem (fromExt job)) ->
      outputPath t
      = Join os outputDir (String.append (Base os (relPath t)) (toExt job))).
Proof.
  apply (output_naming SampleBatch.sample_os SampleBatch.sample_job
           SampleBatch.two_bad_files SampleBatch.bad1_task).
  - intros s suffix. reflexivity.
  - left. reflexivity.
Defined.

(** X22. The two commands undo each other on file names: the name a file
    with the source extension of one command is given by that command is
    given back the first name by the opposite command. *)
Theorem names_round_trip (c : Main.command) (fromDir toDir stem : String.string) :
  let there := Names.job_of c fromDir toDir in
  let back := Names.job_of (Names.opposite c) toDir fromDir in
  Names.output_name back
    (Names.output_name there (String.append stem (fromExt there)))
  = String.append stem (fromExt there).
Proof.
  intros there back. unfold Names.output_name.
  rewrite TrimSuffix_suffix.
  assert (H1 : toExt there = fromExt back) by (destruct c; reflexivity).
  assert (H2 : toExt back = fromExt there) by (destruct c; reflexivity).
  rewrite H1, TrimSuffix_suffix, H2. reflexivity.
Qed.

(* ------------------------------------------------------------------ *)
(** ** The batch from the scan to the value returned *)

Import Batch.

Lemma observed_step_step (os : OS) (s s' : pool os) (ev : event os) :
  observed_step os s ev s' -> step os s s'.
Proof. intros H. destruct H; constructor; assumption. Qed.

Lemma step_observed (os : OS) (s s' : pool os) :
  step os s s' -> exists ev, observed_step os s ev s'.
Proof.
  intros H. destruct H; eexists;
    [apply observed_receive | apply observed_drained
    | apply observed_failed | apply observed_returns | apply observed_done];
    eassumption.
Qed.

Lemma run_steps (os : OS) (s s' : pool os) (events : list (event os)) :
  run os s events s' -> steps os s s'.
Proof.
  induction 1 as [s|s1 ev s2 events s3 Hstep _ IH]; [apply steps_refl|].
  eapply steps_cons; [exact (observed_step_step os _ _ _ Hstep)|exact IH].
Qed.

Lemma steps_run (os : OS) (s s' : pool os) :
  steps os s s' -> exists events, run os s events s'.
Proof.
  induction 1 as [s|s1 s2 s3 Hstep _ [events IH]]; [exists []; apply run_nil|].
  destruct (step_observed os _ _ Hstep) as [ev Hev].
  exists (ev :: events). eapply run_cons; eassumption.
Qed.



Lemma convert_run_returns (os : OS) (job : Job) (files : list String.string)
    (maxWorkers : Z) (result : option (batch_error os))
    (done : list ConversionTask) :
  convert_returns os job files maxWorkers result done
  <-> exists events, convert_run os job files maxWorkers events result done.
Proof.
  split.
  - intros H. destruct H as [Hnil|e Hne Hroot|s Hne Hroot Hrun Hex].
    + exists []. apply convert_run_no_files. exact Hnil.
    + exists []. apply convert_run_root_failed; assumption.
    + destruct (steps_run os _ _ Hrun) as [events Hev].
      exists events. apply convert_run_pool; assumption.
  - intros [events H]. destruct H as [Hnil|e Hne Hroot|events s Hne Hroot Hrun Hex].
    + apply convert_no_files. exact Hnil.
    + apply convert_root_failed; assumption.
    + apply convert_pool; try assumption. exact (run_steps os _ _ _ Hrun).
Qed.













(** The sample batch run by one worker, from the scan to the value
    returned: the error of the corrupted file, the two other files
    converted. *)
Lemma sample_batch_run :
  convert SampleBatch.sample_os (SampleScan.plain_paths SampleBatch.sample_os)
    SampleBatch.sample_job (SampleScan.sample_visits SampleBatch.sample_os) 1
    [Received SampleScan.a_task; Finished SampleScan.a_task;
     Received SampleScan.bad_task;
     Sent SampleScan.bad_task SampleBatch.sample_error;
     Received SampleScan.c_task; Finished SampleScan.c_task; Drained]
    (Some (ErrBatch SampleBatch.sample_error))
    [SampleScan.c_task; SampleScan.a_task].
Proof.
  pose (os := SampleBatch.sample_os).
  pose (a := SampleScan.a_task). pose (b := SampleScan.bad_task).
  pose (c := SampleScan.c_task). pose (e := SampleBatch.sample_error).
  apply (convert_scanned os _ SampleBatch.sample_job _ 1
           SampleBatch.sample_files _ (Some e) [c; a]); [reflexivity|].
  apply (convert_run_pool os SampleBatch.sample_job SampleBatch.sample_files 1 _
           (mkPool [] [e] [Exited] [c; a]));
    [discriminate | reflexivity | | repeat constructor].
  eapply run_cons; [apply (observed_receive os [] [] a [b; c] [] [])|].
  eapply run_cons; [apply (observed_done os [] [] a [b; c] [] []); reflexivity|].
  eapply run_cons; [apply (observed_receive os [] [] b [c] [] [a])|].
  eapply run_cons; [apply (observed_failed os [] [] b e [c] [] [a]); reflexivity|].
  eapply run_cons; [apply (observed_receive os [] [] c [] [e] [a])|].
  eapply run_cons; [apply (observed_done os [] [] c [] [e] [a]); reflexivity|].
  eapply run_cons; [apply (observed_drained os [] [] [e] [c; a])|].
  apply run_nil.
Qed.


(** A run whose scan fails: the source directory is not there. *)
Lemma scan_failure_run :
  convert SampleBatch.sample_os (SampleScan.plain_paths SampleBatch.sample_os)
    SampleBatch.sample_job SampleScan.missing_visits 2
    [] (Some SampleScan.scan_error) [].
Proof. apply convert_scan_failed. reflexivity. Qed.



(** X13. What [convert] reports is sound for every schedule, every outcome
    of the scan and every outcome of the calls of [Close]. An error it
    returns is the error of the directory scan, or the failure to create
    the destination root, or the error of a task of the scanned files that
    did fail. A file counted as converted is a task of the scanned files
    whose conversion returned without error; and no file is converted
    twice. *)
Theorem convert_result_sound (os : OS) (p : Scan.Paths os) (job : Job)
    (visits : list (Scan.visit os)) (maxWorkers : Z)
    (events : list (event os)) (result : option (convert_error os))
    (done : list ConversionTask) :
  convert os p job visits maxWorkers events result done ->
  (forall e, result = Some e ->
     (exists e0, Scan.Walk p job visits [] = inl e0 /\ e = ErrScanning e0)
     \/ exists files,
          Scan.Walk p job visits [] = inr files
          /\ ((exists e0, MkdirAll os (toDir job) = Some e0
                          /\ e = ErrBatch (ErrMkdir (toDir job) e0))
              \/ exists t e1,
                   In t (tasks_of os job files)
                   /\ run_task os t = TaskFailed e1 /\ e = ErrBatch e1))
  /\ (forall t, In t done ->
        exists files,
          Scan.Walk p job visits [] = inr files
          /\ In t (tasks_of os job files)
          /\ forall e, run_task os t <> TaskFailed e)
  /\ NoDup done.
Proof.
  intros H. destruct H as [e0 Hscan|files events r done Hscan Hrun].
  - split; [|split; [intros t []|constructor]].
    intros e He. injection He as <-. left. exists e0. auto.
  - assert (Hret : convert_returns os job files maxWorkers r done)
      by (apply convert_run_returns; exists events; exact Hrun).
    destruct (convert_returns_sound os job files maxWorkers r done Hret)
      as (Herr & Hdone & Hnd).
    split; [|split; [|exact Hnd]].
    + intros e He. right. exists files. split; [exact Hscan|].
      destruct r as [e1|]; [|discriminate]. injection He as <-.
      destruct (Herr e1 eq_refl) as [(e0 & Hroot & ->)|(t & Hin & Hfail)].
      * left. exists e0. auto.
      * right. exists t, e1. auto.
    + intros t Hin. exists files. split; [exact Hscan|]. apply Hdone. exact Hin.
Qed.

Lemma convert_result_sound_witness :
  let os := SampleBatch.sample_os in
  let p := SampleScan.plain_paths os in
  let job := SampleBatch.sample_job in
  let visits := SampleScan.missing_visits in
  (forall e, Some SampleScan.scan_error = Some e ->
     (exists e0, Scan.Walk p job visits [] = inl e0 /\ e = ErrScanning e0)
     \/ exists files,
          Scan.Walk p job visits [] = inr files
          /\ ((exists e0, MkdirAll os (toDir job) = Some e0
                          /\ e = ErrBatch (ErrMkdir (toDir job) e0))
              \/ exists t e1,
                   In t (tasks_of os job files)
                   /\ run_task os t = TaskFailed e1 /\ e = ErrBatch e1))
  /\ (forall t, In t [] ->
        exists files,
          Scan.Walk p job visits [] = inr files
          /\ In t (tasks_of os job files)
          /\ forall e, run_task os t <> TaskFailed e)
  /\ NoDup (@nil ConversionTask).
Proof.
  apply (convert_result_sound SampleBatch.sample_os
           (SampleScan.plain_paths SampleBatch.sample_os) SampleBatch.sample_job
           SampleScan.missing_visits 2 []).
  exact scan_failure_run.
Defined.
